(** * POI-ahead backend: route distances, Overpass acquisition, deduplication

    A shallow embedding of [Backend/route_calculator.py] and
    [Backend/overpass_client.py].

    Conventions of the embedding:
    - a Python [float] is the rational number ([Q]) it stands for, and
      comparisons are the exact ones; infinities and NaN are outside the
      model. The arithmetic of [calculate_opening_hours_duration], whose
      results the sort key of [deduplicate_pois] compares, is rounded to
      binary64 as the interpreter does ([Float]); the sums of distances
      and the bounding box are taken without rounding;
    - a Python [str] is a [string] of ASCII characters;
    - [Optional[T]] is [option T]; a [dict] whose order is irrelevant is a
      [gmap]; the insertion-ordered [pois_by_type] is an association list;
    - a call that may raise returns a [result]. *)

From Stdlib Require Import Ascii String ZArith QArith Qround Qpower Qminmax Qabs Qreals Lia Lqa Reals.
From Stdlib Require Import Sorting.Sorted Sorting.Permutation.
From stdpp Require Import base option list strings gmap.

Local Open Scope string_scope.
Local Open Scope list_scope.

(** ** Python truthiness of optional strings *)

Definition truthy_str (s : string) : bool :=
  match s with EmptyString => false | String _ _ => true end.

Definition truthy (o : option string) : bool :=
  match o with None => false | Some s => truthy_str s end.

(** [a or b] on optional strings. *)
Definition py_or (a b : option string) : option string :=
  if truthy a then a else b.

(** ** String helpers ([str.lower], [str.strip], [str.split], [in]) *)

Module Str.

Definition code (c : ascii) : nat := nat_of_ascii c.

Definition is_upper (c : ascii) : bool := (65 <=? code c)%nat && (code c <=? 90)%nat.
Definition is_lower (c : ascii) : bool := (97 <=? code c)%nat && (code c <=? 122)%nat.
Definition is_digit (c : ascii) : bool := (48 <=? code c)%nat && (code c <=? 57)%nat.

(** [str.isspace] on ASCII: TAB, LF, VT, FF, CR, FS, GS, RS, US and space. *)
Definition is_space (c : ascii) : bool :=
  ((9 <=? code c)%nat && (code c <=? 13)%nat)
  || ((28 <=? code c)%nat && (code c <=? 32)%nat).

Definition lower_char (c : ascii) : ascii :=
  if is_upper c then ascii_of_nat (code c + 32) else c.

Fixpoint lower (s : string) : string :=
  match s with
  | EmptyString => EmptyString
  | String c s' => String (lower_char c) (lower s')
  end.

Fixpoint lstrip (s : string) : string :=
  match s with
  | String c s' => if is_space c then lstrip s' else s
  | EmptyString => EmptyString
  end.

(** Drops the trailing white space: a character is kept when something
    that is kept follows it, or when it is not white space. *)
Fixpoint rstrip (s : string) : string :=
  match s with
  | EmptyString => EmptyString
  | String c s' =>
      match rstrip s' with
      | EmptyString => if is_space c then EmptyString else String c EmptyString
      | r => String c r
      end
  end.

Definition strip (s : string) : string := rstrip (lstrip s).

(** [pat in s] *)
Fixpoint contains (pat s : string) : bool :=
  String.prefix pat s
  || match s with
     | EmptyString => false
     | String _ s' => contains pat s'
     end.

(** [s.split(sep)] for a one-character separator: never the empty list. *)
Fixpoint split (sep : ascii) (s : string) : list string :=
  match s with
  | EmptyString => [EmptyString]
  | String c s' =>
      if Ascii.eqb c sep then EmptyString :: split sep s'
      else match split sep s' with
           | p :: ps => String c p :: ps
           | [] => [String c EmptyString]
           end
  end.

(** [int(s)] for a string of decimal digits. *)
Definition digit_val (c : ascii) : Z := Z.of_nat (code c - 48).

Fixpoint int_acc (acc : Z) (s : string) : Z :=
  match s with
  | EmptyString => acc
  | String c s' => int_acc (10 * acc + digit_val c) s'
  end.

Definition int (s : string) : Z := int_acc 0 s.

End Str.

(** ** Arithmetic of Python floats (IEEE 754 binary64)
    An operation returns the exact result rounded to the nearest number
    with a significand of 53 bits, ties to the even significand. The
    range of the exponent is not bounded: overflow and subnormal numbers
    are outside the model (the hours of a clause, computed below from
    times of one or two digits, are 0 or between [2^-58] and [1000] in
    absolute value). *)

Module Float.

(** The nearest integer, ties to even. *)
Definition round_half_even (q : Q) : Z :=
  let f := Qfloor q in
  match (q - inject_Z f ?= 1 # 2)%Q with
  | Lt => f
  | Gt => (f + 1)%Z
  | Eq => if Z.even f then f else (f + 1)%Z
  end.

Definition pow2 (z : Z) : Q := (2 ^ z)%Q.

(** For [0 < x]: the exponent [e] with [2^e <= x < 2^(e+1)]. *)
Definition ilog2 (x : Q) : Z :=
  let e := (Z.log2 (Qnum x) - Z.log2 (Zpos (Qden x)))%Z in
  if Qle_bool (pow2 e) x then e else (e - 1)%Z.

(** For [0 < x]: the significand [x / ulp] lies in [[2^52, 2^53)]. *)
Definition round_pos (x : Q) : Q :=
  let ulp := pow2 (ilog2 x - 52) in
  (inject_Z (round_half_even (x / ulp)) * ulp)%Q.

Definition round (x : Q) : Q :=
  Qred match (x ?= 0)%Q with
       | Eq => 0
       | Gt => round_pos x
       | Lt => - round_pos (- x)
       end.

(** [float(z)], and the four operations on floats. *)
Definition of_int (z : Z) : Q := round (inject_Z z).
Definition add (a b : Q) : Q := round (a + b).
Definition sub (a b : Q) : Q := round (a - b).
Definition mul (a b : Q) : Q := round (a * b).
Definition div (a b : Q) : Q := round (a / b).

End Float.

(** ** Opening hours ([is_24_7], [calculate_opening_hours_duration]) *)

Module OpeningHours.

(** The six groups of a match of [simple_pattern]. *)
Record hours_match := HoursMatch {
  g_start_day : string; g_end_day : string;
  g_start_hour : string; g_start_min : string;
  g_end_hour : string; g_end_min : string
}.

Definition patterns : list string :=
  ["24/7"; "24/24"; "always open"; "mo-su 00:00-24:00"; "24 hours"; "24h"].

Definition is_24_7 (opening_hours : option string) : bool :=
  if negb (truthy opening_hours) then false
  else
    let opening_hours_lower := Str.lower (default "" opening_hours) in
    existsb (fun pattern => Str.contains pattern opening_hours_lower) patterns.

Definition day_patterns : list (string * Z) :=
  [("mo", 1); ("tu", 2); ("we", 3); ("th", 4); ("fr", 5); ("sa", 6); ("su", 7)]%Z.

(** [day_patterns.get(d, 0)] *)
Fixpoint day_get (d : string) (tbl : list (string * Z)) : Z :=
  match tbl with
  | [] => 0%Z
  | (k, v) :: tbl' => if String.eqb k d then v else day_get d tbl'
  end.

(** *** The regular expression
    [([a-z]{2})-([a-z]{2})\s+(\d{1,2}):(\d{2})-(\d{1,2}):(\d{2})],
    as a backtracking matcher: every piece takes the rest of the
    pattern as a continuation, and the greedy pieces ([\s+],
    [\d{1,2}]) try the longer alternative first. *)

Section Matcher.
Context {A : Type}.

Definition re_lower2 (s : string) (k : string -> string -> option A) : option A :=
  match s with
  | String a (String b r) =>
      if Str.is_lower a && Str.is_lower b
      then k (String a (String b EmptyString)) r else None
  | _ => None
  end.

Definition re_digit2 (s : string) (k : string -> string -> option A) : option A :=
  match s with
  | String a (String b r) =>
      if Str.is_digit a && Str.is_digit b
      then k (String a (String b EmptyString)) r else None
  | _ => None
  end.

Definition re_digit1 (s : string) (k : string -> string -> option A) : option A :=
  match s with
  | String a r => if Str.is_digit a then k (String a EmptyString) r else None
  | _ => None
  end.

Definition re_digit12 (s : string) (k : string -> string -> option A) : option A :=
  match re_digit2 s k with
  | Some m => Some m
  | None => re_digit1 s k
  end.

Definition re_char (c : ascii) (s : string) (k : string -> option A) : option A :=
  match s with
  | String a r => if Ascii.eqb a c then k r else None
  | _ => None
  end.

Fixpoint re_spaces_star (s : string) (k : string -> option A) : option A :=
  match s with
  | String c r =>
      if Str.is_space c
      then match re_spaces_star r k with
           | Some m => Some m
           | None => k s
           end
      else k s
  | EmptyString => k s
  end.

Definition re_spaces_plus (s : string) (k : string -> option A) : option A :=
  match s with
  | String c r => if Str.is_space c then re_spaces_star r k else None
  | _ => None
  end.
End Matcher.

(** A match of [simple_pattern] that starts at the head of [s]. *)
Definition simple_pattern_at (s : string) : option hours_match :=
  re_lower2 s (fun d1 s =>
  re_char "-" s (fun s =>
  re_lower2 s (fun d2 s =>
  re_spaces_plus s (fun s =>
  re_digit12 s (fun h1 s =>
  re_char ":" s (fun s =>
  re_digit2 s (fun m1 s =>
  re_char "-" s (fun s =>
  re_digit12 s (fun h2 s =>
  re_char ":" s (fun s =>
  re_digit2 s (fun m2 _ =>
  Some (HoursMatch d1 d2 h1 m1 h2 m2)))))))))))).

(** [re.search(simple_pattern, s)]: the leftmost match. *)
Fixpoint re_search (s : string) : option hours_match :=
  match simple_pattern_at s with
  | Some m => Some m
  | None =>
      match s with
      | EmptyString => None
      | String _ s' => re_search s'
      end
  end.

(** The body shared by the two places that evaluate a match: the hours
    of the span, or [None] when a day abbreviation is unknown (the
    source then falls through). *)
Definition span_hours (m : hours_match) : option Q :=
  let start_day := day_get (g_start_day m) day_patterns in
  let end_day := day_get (g_end_day m) day_patterns in
  let start_hour := Str.int (g_start_hour m) in
  let start_min := Str.int (g_start_min m) in
  let end_hour := Str.int (g_end_hour m) in
  let end_min := Str.int (g_end_min m) in
  if (0 <? start_day)%Z && (0 <? end_day)%Z then
    let num_days :=
      if (start_day <=? end_day)%Z then (end_day - start_day + 1)%Z
      else ((7 - start_day + 1) + end_day)%Z in
    let start_time := Float.add (Float.of_int start_hour) (Float.div (Float.of_int start_min) 60) in
    let end_time := Float.add (Float.of_int end_hour) (Float.div (Float.of_int end_min) 60) in
    let hours_per_day :=
      if Qlt_le_dec end_time start_time
      then Float.add (Float.sub 24 start_time) end_time
      else Float.sub end_time start_time in
    Some (Float.mul (Float.of_int num_days) hours_per_day)
  else None.

(** One iteration of the loop over the semicolon-separated parts. *)
Definition add_part (total_hours : Q) (part : string) : Q :=
  let part := Str.strip part in
  if negb (truthy_str part) then total_hours
  else match re_search part with
       | Some m =>
           match span_hours m with
           | Some h => Float.add total_hours h
           | None => total_hours
           end
       | None => total_hours
       end.

Definition calculate_opening_hours_duration (opening_hours : option string) : Q :=
  if negb (truthy opening_hours) then 0%Q
  else
    let opening_hours_lower := Str.strip (Str.lower (default "" opening_hours)) in
    if is_24_7 opening_hours then 168%Q
    else
      match re_search opening_hours_lower ≫= span_hours with
      | Some h => h
      | None =>
          let parts := Str.split ";" opening_hours_lower in
          let total_hours := fold_left add_part parts 0%Q in
          if Qlt_le_dec 0 total_hours then Qmin total_hours 168 else 0%Q
      end.

End OpeningHours.


(** ** Exceptions and results *)

(** The exception classes the backend raises or catches; the argument is
    the fixed part of the message. Every one of them is an [Exception]. *)
Inductive exn :=
| ValueError (msg : string)
| ConnectionError (msg : string)
| TimeoutError (msg : string)
| KeyError
| IndexError
| StopIteration
| AttributeError
| TypeError
| OtherException (msg : string).

Inductive result (A : Type) :=
| Ok (a : A)
| Raise (e : exn).
Arguments Ok {A} a.
Arguments Raise {A} e.

#[export] Instance result_ret : MRet result := fun A a => Ok a.
#[export] Instance result_bind : MBind result :=
  fun A B f m => match m with Ok a => f a | Raise e => Raise e end.

(** Comparisons of floats as booleans. *)
Definition Qltb (a b : Q) : bool := if Qlt_le_dec a b then true else false.
Definition Qleb (a b : Q) : bool := Qle_bool a b.

(** ** Data model ([route_storage.py], [poi.py]) *)

Record RoutePoint := { lat : Q; lon : Q }.

(** A [Route] with its spatial index. The index (the [rtree] package) is
    its query: for a box [(lon, lat, lon, lat)] the ids that
    [rtree.nearest(box, 1)] yields, in order. The identifier, the GPX
    bytes and the file name play no part in the computations. *)
Record Route := {
  points : list RoutePoint;
  rtree : Q * Q * Q * Q -> list nat
}.

Record POI := {
  poi_lat : Q;
  poi_lon : Q;
  name : string;
  distance_to_route : Q;
  distance_on_route : Q;
  poi_type : string;
  opening_hours : option string;
  url : option string;
  google_maps_link : string;
  price_range : option string;
  brand : option string;
  operator : option string;
  wikipedia : option string;
  wikidata : option string
}.

(** ** [POI_TYPE_CONFIG]
    An insertion-ordered dictionary. The Overpass QL template of a
    category ([query]) is text sent to the server; the model keeps the
    category name in its place. *)
Record poi_type_config := { default_name : string }.

Definition POI_TYPE_CONFIG : list (string * poi_type_config) :=
  [ ("public_toilets", {| default_name := "Unnamed Toilet" |});
    ("bakeries", {| default_name := "Unnamed Bakery" |});
    ("gas_stations", {| default_name := "Unnamed Gas Station" |});
    ("grocery_stores", {| default_name := "Unnamed Grocery Store" |});
    ("water_fountains", {| default_name := "Unnamed Water Fountain" |});
    ("bicycle_shops", {| default_name := "Unnamed Bicycle Shop" |});
    ("bicycle_vending", {| default_name := "Unnamed Bicycle Vending" |});
    ("vending_machines", {| default_name := "Unnamed Vending Machine" |});
    ("camping_hotels", {| default_name := "Unnamed Accommodation" |});
    ("sport_areas", {| default_name := "Unnamed Sport Area" |}) ].

(** [POI_TYPE_CONFIG[k]] when [k in POI_TYPE_CONFIG]. *)
Fixpoint config_get (k : string) (cfg : list (string * poi_type_config)) : option poi_type_config :=
  match cfg with
  | [] => None
  | (k', c) :: cfg' => if String.eqb k' k then Some c else config_get k cfg'
  end.

Definition in_config (k : string) : bool :=
  match config_get k POI_TYPE_CONFIG with Some _ => true | None => false end.

(** ** The Overpass reply and the events of an acquisition *)

(** The replies modelled are the JSON values of the Overpass schema, with
    [null] allowed in every place: a value that is there and is not
    [null] has the type the schema gives it (an object, a list, a
    number, a string).

    Where the code reads an object or a list, [null] makes it raise, so
    the three cases of a key are kept apart. *)
Inductive json_field (A : Type) :=
| Missing
| Null
| Value (a : A).
Arguments Missing {A}.
Arguments Null {A}.
Arguments Value {A} a.

(** The value of a key, when there is one. *)
Definition present {A : Type} (f : json_field A) : option A :=
  match f with Value a => Some a | _ => None end.

(** Where the code compares a value with [None] or with a string, a key
    that is absent and a key whose value is [null] come to the same, and
    both are [None]: the type and the coordinates of an element, the
    coordinates of a centre. *)
Record center_t := { c_lat : option Q; c_lon : option Q }.

(** A dictionary of tags: a key stands for its string, or for [null]. *)
Definition tags_t : Type := gmap string (option string).

(** [tags.get(k)] *)
Definition tags_get (tags : tags_t) (k : string) : option string :=
  match tags !! k with Some v => v | None => None end.

Record element := {
  el_type : option string;
  el_lat : option Q;
  el_lon : option Q;
  el_center : json_field center_t;
  el_tags : json_field tags_t
}.

(** The string under a key of the tags of an element. *)
Definition tag (e : element) (k : string) : option string :=
  match el_tags e with Value tags => tags_get tags k | _ => None end.

(** The body of a reply, as [response.json()] returns it: [null], or an
    object whose key [elements], when it has one, holds [null] or a list
    of elements, each an object or [null] ([None]). *)
Inductive overpass_data :=
| JsonNull
| JsonObject (elements : json_field (list (option element))).

(** The elements of a reply that are objects. *)
Definition entries (data : overpass_data) : list element :=
  match data with
  | JsonObject (Value els) => omap (fun e => e) els
  | _ => []
  end.

Record bbox := { south : Q; north : Q; west : Q; east : Q }.

(** What [requests.post] followed by [raise_for_status] and [json] can
    come to: an exception of the transport, or an HTTP reply with its
    status code and its body ([None]: the body is no JSON). *)
Inductive reply :=
| ReplyTimeout
| ReplyConnectionError
| ReplyRequestException
| ReplyHTTP (status_code : Z) (body : option overpass_data).

Inductive event :=
| Post (overpass_url : string) (poi_type : string) (box : bbox) (timeout : Z) (r : reply)
| Sleep (seconds : Q)
| Progress (poi_type : string) (index total : nat)
| Batch (poi_type : string) (pois : list POI).

Definition trace := list event.

Definition is_post (e : event) : bool :=
  match e with Post _ _ _ _ _ => true | _ => false end.

(** ** What the backend calls and the model does not define
    - [haversine]: the [haversine] package, kilometres between two
      [(lat, lon)] pairs in the valid coordinate range (see [GreatCircle]
      below for its formula over the real numbers);
    - [float_str]: the text of a float in an f-string;
    - [extract_price_range]: the price heuristics of the accommodation
      category, which no property below depends on, so every behaviour
      of it (raising included) is covered;
    - [requests_post]: the reply of an endpoint to a request, given
      everything that happened before. *)
Class Env := {
  haversine : Q * Q -> Q * Q -> Q;
  float_str : Q -> string;
  extract_price_range : tags_t -> result (option string);
  requests_post : trace -> string -> string -> bbox -> Z -> reply
}.

(** ** [RouteCalculator] *)

Module RouteCalculator.
Section WithEnv.
Context {env : Env}.

Definition haversine_distance (point1 point2 : RoutePoint) : Q :=
  haversine (lat point1, lon point1) (lat point2, lon point2).

(** [next(route.rtree.nearest(...))] *)
Definition find_nearest_route_point_index (route : Route) (poi_point : RoutePoint) : result nat :=
  match rtree route (lon poi_point, lat poi_point, lon poi_point, lat poi_point) with
  | nearest_index :: _ => Ok nearest_index
  | [] => Raise StopIteration
  end.

(** [l[i]] *)
Definition getitem {A} (l : list A) (i : nat) : result A :=
  match l !! i with
  | Some x => Ok x
  | None => Raise IndexError
  end.

(** The loop [for i in range(index): distance += ...], over the indices
    that remain. *)
Fixpoint distance_loop (pts : list RoutePoint) (range : list nat) (distance : Q) : result Q :=
  match range with
  | [] => Ok distance
  | i :: range' =>
      a ← getitem pts i;
      b ← getitem pts (i + 1);
      distance_loop pts range' (distance + haversine_distance a b)%Q
  end.

Definition calculate_distance_on_route (route : Route) (point : RoutePoint) : result Q :=
  index ← find_nearest_route_point_index route point;
  distance_loop (points route) (seq 0 index) 0%Q.

End WithEnv.
End RouteCalculator.

(** ** [RouteStorage]
    The registry maps an identifier to a route. What [Route] above leaves
    out (identifier, GPX bytes, file name) is kept beside it. The lock
    orders concurrent calls; the model is one call after the other. *)

Module RouteStorage.

Record stored := {
  stored_route : Route;
  id : string;
  gpx_data : option (list Byte.byte);
  filename : option string
}.

Definition t : Type := gmap string stored.

(** [RouteStorage()] *)
Definition init : t := ∅.

(** The box of a point in the index: [(lon, lat, lon, lat)]. *)
Definition point_box (point : RoutePoint) : Q * Q * Q * Q :=
  (lon point, lat point, lon point, lat point).

(** The entries of the index after the loop
    [for i, point in enumerate(points): idx.insert(i, box)]. *)
Definition index_entries (points : list RoutePoint) : list (nat * (Q * Q * Q * Q)) :=
  imap (fun i point => (i, point_box point)) points.

Section WithIndex.
(** The query of the [rtree] package on an index with the given entries. *)
Context (rtree_nearest : list (nat * (Q * Q * Q * Q)) -> Q * Q * Q * Q -> list nat).

(** [store], with the identifier that [uuid.uuid4()] draws: the
    identifier and the registry after the call. *)
Definition store (self : t) (route_id : string) (points : list RoutePoint) (gpx_data : option (list Byte.byte)) (filename : option string) : string * t :=
  let idx := index_entries points in
  (route_id,
   <[ route_id := {| stored_route := {| points := points; rtree := rtree_nearest idx |};
                     id := route_id;
                     gpx_data := gpx_data;
                     filename := filename |} ]> self).

End WithIndex.

Definition get (self : t) (route_id : string) : option stored := self !! route_id.

End RouteStorage.

(** ** [list.sort(key=...)]
    Python's sort is stable and compares keys with [<] only; a stable
    insertion sort gives the same list. An element is put before the
    first element whose key is not smaller than its own, and the list is
    built from the right, so equal keys keep their order. *)
Section Sort.
Context {A K : Type} (lt : K -> K -> bool) (key : A -> K).

Fixpoint insert_by (x : A) (l : list A) : list A :=
  match l with
  | [] => [x]
  | y :: l' => if lt (key y) (key x) then y :: insert_by x l' else x :: l
  end.

Definition sort_by (l : list A) : list A := fold_right insert_by [] l.
End Sort.

(** ** [min] and [max] of a sequence of floats
    The first item is kept until a later one is smaller (larger); an
    empty sequence raises [ValueError]. *)
Fixpoint min_from (best : Q) (l : list Q) : Q :=
  match l with
  | [] => best
  | x :: l' => min_from (if Qltb x best then x else best) l'
  end.

Fixpoint max_from (best : Q) (l : list Q) : Q :=
  match l with
  | [] => best
  | x :: l' => max_from (if Qltb best x then x else best) l'
  end.

Definition py_min (l : list Q) : result Q :=
  match l with
  | [] => Raise (ValueError "min() arg is an empty sequence")
  | x :: l' => Ok (min_from x l')
  end.

Definition py_max (l : list Q) : result Q :=
  match l with
  | [] => Raise (ValueError "max() arg is an empty sequence")
  | x :: l' => Ok (max_from x l')
  end.

(** ** [OverpassClient] *)

Module OverpassClient.

Record t := { overpass_urls : list string; route : Route }.

(** [__init__] *)
Definition init (route : Route) : t :=
  {| overpass_urls :=
       [ "https://overpass-api.de/api/interpreter";
         "http://overpass-api.de/api/interpreter";
         "https://overpass.kumi.systems/api/interpreter" ];
     route := route |}.

Definition get_route_bounding_box (self : t) (buffer_km : Q) : result bbox :=
  min_lat ← py_min (map lat (points (route self)));
  max_lat ← py_max (map lat (points (route self)));
  min_lon ← py_min (map lon (points (route self)));
  max_lon ← py_max (map lon (points (route self)));
  let conversion_factor := 111%Q in
  let buffer_deg := (buffer_km / conversion_factor)%Q in
  Ok {| south := (min_lat - buffer_deg)%Q;
        north := (max_lat + buffer_deg)%Q;
        west := (min_lon - buffer_deg)%Q;
        east := (max_lon + buffer_deg)%Q |}.

(** One entry of [poi_settings]: a dictionary that may hold the keys
    [max_deviation_km] and [deduplication_radius_km]; a field is what
    [.get] of that key finds. *)
Record poi_setting := {
  get_max_deviation_km : option Q;
  get_deduplication_radius_km : option Q
}.

(** [poi_settings[poi_type]] under the guard
    [poi_settings and poi_type in poi_settings]. *)
Definition settings_for (poi_settings : option (gmap string poi_setting)) (poi_type : string) : option poi_setting :=
  match poi_settings with
  | Some m => m !! poi_type
  | None => None
  end.

(** *** Deduplication *)

Definition deduplicate_types : gset string :=
  {[ "public_toilets"; "grocery_stores"; "bakeries"; "water_fountains";
     "bicycle_shops"; "camping_hotels"; "gas_stations"; "sport_areas" ]}.

(** The sort key of [deduplicate_pois], a tuple. *)
Definition sort_key_t : Type := Q * Q * bool * bool * bool * bool.

Definition sort_key (p : POI) : sort_key_t :=
  ( distance_to_route p,
    (- OpeningHours.calculate_opening_hours_duration (opening_hours p))%Q,
    negb (truthy (py_or (brand p) (operator p))),
    negb (truthy (py_or (wikipedia p) (wikidata p))),
    negb (truthy (url p)),
    negb (truthy_str (name p)) ).

(** [a < b] on tuples: the first components that differ decide. *)
Definition bool_compare (a b : bool) : comparison :=
  match a, b with
  | false, true => Lt
  | true, false => Gt
  | _, _ => Eq
  end.

Definition lex (c1 c2 : comparison) : comparison :=
  match c1 with Eq => c2 | _ => c1 end.

Definition key_compare (a b : sort_key_t) : comparison :=
  let '(a1, a2, a3, a4, a5, a6) := a in
  let '(b1, b2, b3, b4, b5, b6) := b in
  lex (a1 ?= b1)%Q (lex (a2 ?= b2)%Q (lex (bool_compare a3 b3)
    (lex (bool_compare a4 b4) (lex (bool_compare a5 b5) (bool_compare a6 b6))))).

Definition key_lt (a b : sort_key_t) : bool :=
  match key_compare a b with Lt => true | _ => false end.

(** The grouping loop: [pois_by_type] keeps its keys in the order of
    their first POI. *)
Fixpoint group_add (poi : POI) (pois_by_type : list (string * list POI)) : list (string * list POI) :=
  match pois_by_type with
  | [] => [(poi_type poi, [poi])]
  | (k, type_pois) :: rest =>
      if String.eqb k (poi_type poi) then (k, type_pois ++ [poi]) :: rest
      else (k, type_pois) :: group_add poi rest
  end.

Definition group_by_type (pois : list POI) : list (string * list POI) :=
  fold_left (fun pois_by_type poi => group_add poi pois_by_type) pois [].

Definition dedup_radius (deduplication_radius_km : Q) (poi_settings : option (gmap string poi_setting)) (poi_type : string) : Q :=
  match settings_for poi_settings poi_type with
  | Some s => default deduplication_radius_km (get_deduplication_radius_km s)
  | None => deduplication_radius_km
  end.

Section WithEnv.
Context {env : Env}.

(** The inner loop over [kept_pois], with its [break]. *)
Definition too_close (poi_dedup_radius : Q) (poi : POI) (kept_pois : list POI) : bool :=
  existsb (fun kept_poi =>
             Qltb (haversine (poi_lat poi, poi_lon poi) (poi_lat kept_poi, poi_lon kept_poi))
                  poi_dedup_radius) kept_pois.

Definition keep_step (poi_dedup_radius : Q) (kept_pois : list POI) (poi : POI) : list POI :=
  if too_close poi_dedup_radius poi kept_pois then kept_pois else kept_pois ++ [poi].

Definition keep_loop (poi_dedup_radius : Q) (type_pois : list POI) : list POI :=
  fold_left (keep_step poi_dedup_radius) type_pois [].

(** The body of the loop over [pois_by_type.items()]: what one category
    adds to [result]. *)
Definition dedup_group (deduplication_radius_km : Q) (poi_settings : option (gmap string poi_setting)) (poi_type : string) (type_pois : list POI) : list POI :=
  if bool_decide (poi_type ∈ deduplicate_types) then
    let poi_dedup_radius := dedup_radius deduplication_radius_km poi_settings poi_type in
    keep_loop poi_dedup_radius (sort_by key_lt sort_key type_pois)
  else type_pois.

Definition deduplicate_pois (pois : list POI) (deduplication_radius_km : Q) (poi_settings : option (gmap string poi_setting)) : list POI :=
  concat (map (fun '(poi_type, type_pois) =>
                 dedup_group deduplication_radius_km poi_settings poi_type type_pois)
              (group_by_type pois)).

(** *** [filter_pois] *)

(** The coordinates of an element: a node's own, a way's centre, or a
    way's own when it has no centre. For a way whose centre is [null],
    the test ["lat" in center] raises [TypeError]. *)
Definition element_coords (e : element) : result (option Q * option Q) :=
  if bool_decide (el_type e = Some "node") then
    if bool_decide (is_Some (el_lat e)) && bool_decide (is_Some (el_lon e))
    then Ok (el_lat e, el_lon e) else Ok (None, None)
  else if bool_decide (el_type e = Some "way") then
    match el_center e with
    | Value center =>
        if bool_decide (is_Some (c_lat center)) && bool_decide (is_Some (c_lon center))
        then Ok (c_lat center, c_lon center) else Ok (None, None)
    | Null => Raise TypeError
    | Missing =>
        if bool_decide (is_Some (el_lat e)) && bool_decide (is_Some (el_lon e))
        then Ok (el_lat e, el_lon e) else Ok (None, None)
    end
  else Ok (None, None).

(** [tags = element.get("tags", {})] followed by the first [tags.get],
    which raises [AttributeError] when the value of the key is
    [null]. *)
Definition element_tags (e : element) : result tags_t :=
  match el_tags e with
  | Missing => Ok ∅
  | Null => Raise AttributeError
  | Value tags => Ok tags
  end.

(** [name if name else default_name] *)
Definition name_or_default (name : option string) (default_name : string) : string :=
  match name with
  | Some n => if truthy_str n then n else default_name
  | None => default_name
  end.

(** The [try] block of one element: [Ok None] when the element is too far
    from the route, [Ok (Some poi)] when a POI is built. *)
Definition element_poi (self : t) (default_name poi_type : string) (max_distance_to_route_km : Q) (e : element) (lat lon : Q) : result (option POI) :=
  let poi_point := {| lat := lat; lon := lon |} in
  nearest_point_on_route_index ←
    RouteCalculator.find_nearest_route_point_index (route self) poi_point;
  nearest_route_point ←
    RouteCalculator.getitem (points (route self)) nearest_point_on_route_index;
  let distance_to_route_km := RouteCalculator.haversine_distance poi_point nearest_route_point in
  if Qleb distance_to_route_km max_distance_to_route_km then
    distance_along_route ←
      RouteCalculator.calculate_distance_on_route (route self) nearest_route_point;
    tags ← element_tags e;
    let name := tags_get tags "name" in
    let opening_hours := tags_get tags "opening_hours" in
    let url := py_or (tags_get tags "website") (tags_get tags "url") in
    price_range ←
      (if String.eqb poi_type "camping_hotels" then extract_price_range tags else Ok None);
    Ok (Some {| poi_lat := lat;
                poi_lon := lon;
                name := name_or_default name default_name;
                distance_to_route := distance_to_route_km;
                distance_on_route := distance_along_route;
                poi_type := poi_type;
                opening_hours := opening_hours;
                url := url;
                google_maps_link :=
                  "https://www.google.com/maps?q=" +:+ float_str lat +:+ "," +:+ float_str lon;
                price_range := price_range;
                brand := tags_get tags "brand";
                operator := tags_get tags "operator";
                wikipedia := tags_get tags "wikipedia";
                wikidata := tags_get tags "wikidata" |})
  else Ok None.

(** [except (KeyError, IndexError, ValueError)] *)
Definition skipped (e : exn) : bool :=
  match e with
  | KeyError | IndexError | ValueError _ => true
  | _ => false
  end.

(** The loop over the elements. An element that is [null] makes
    [element.get] raise [AttributeError], outside the [try], as the test
    of a centre that is [null] is; inside the [try], an exception that
    the handler does not name ends the call. *)
Fixpoint filter_loop (self : t) (default_name poi_type : string) (max_distance_to_route_km : Q) (els : list (option element)) (filtered_pois : list POI) : result (list POI) :=
  match els with
  | [] => Ok filtered_pois
  | None :: _ => Raise AttributeError
  | Some e :: els' =>
      match element_coords e with
      | Raise ex => Raise ex
      | Ok (Some lat, Some lon) =>
          match element_poi self default_name poi_type max_distance_to_route_km e lat lon with
          | Ok (Some poi) =>
              filter_loop self default_name poi_type max_distance_to_route_km els' (filtered_pois ++ [poi])
          | Ok None =>
              filter_loop self default_name poi_type max_distance_to_route_km els' filtered_pois
          | Raise ex =>
              if skipped ex
              then filter_loop self default_name poi_type max_distance_to_route_km els' filtered_pois
              else Raise ex
          end
      | Ok _ => filter_loop self default_name poi_type max_distance_to_route_km els' filtered_pois
      end
  end.

(** [overpass_poi_data.get("elements", [])], as the [for] iterates over
    it: [AttributeError] for a body that is [null], [TypeError] for
    elements that are [null]. *)
Definition get_elements (overpass_poi_data : overpass_data) : result (list (option element)) :=
  match overpass_poi_data with
  | JsonNull => Raise AttributeError
  | JsonObject Missing => Ok []
  | JsonObject Null => Raise TypeError
  | JsonObject (Value els) => Ok els
  end.

Definition filter_pois (self : t) (overpass_poi_data : overpass_data) (poi_type : string) (max_distance_to_route_km : Q) : result (list POI) :=
  match config_get poi_type POI_TYPE_CONFIG with
  | None => Raise (ValueError "Unknown POI type")
  | Some config =>
      els ← get_elements overpass_poi_data;
      filtered_pois ←
        filter_loop self (default_name config) poi_type max_distance_to_route_km els [];
      Ok (sort_by Qltb distance_on_route filtered_pois)
  end.

(** *** [query_poi_type] *)

(** What one attempt comes to: the [return], or an exception handler that
    sets [last_error] and then sleeps and [continue]s, or [break]s. *)
Inductive attempt_outcome :=
| Return (data : overpass_data)
| Continue (last_error : exn) (wait_time : Q)
| Break (last_error : exn).

(** [attempt < max_retries - 1] then sleep and [continue], else [break]. *)
Definition retry_or_break (attempt max_retries : nat) (last_error : exn) (wait_time : Q) : attempt_outcome :=
  if (attempt <? max_retries - 1)%nat then Continue last_error wait_time
  else Break last_error.

(** The body of the [try] and its [except] clauses, in their order. *)
Definition classify (attempt max_retries : nat) (r : reply) : attempt_outcome :=
  match r with
  | ReplyTimeout =>
      retry_or_break attempt max_retries
        (TimeoutError "Overpass API request timed out") (2 ^ Z.of_nat attempt)%Q
  | ReplyHTTP status_code body =>
      if (400 <=? status_code)%Z && (status_code <? 600)%Z then
        (* raise_for_status raised an HTTPError *)
        if (status_code =? 429)%Z then
          retry_or_break attempt max_retries
            (ConnectionError "Overpass API rate limit exceeded.") 5%Q
        else if (status_code =? 400)%Z then
          Break (ValueError "Bad request to Overpass API")
        else if (500 <=? status_code)%Z && (status_code <? 600)%Z then
          retry_or_break attempt max_retries
            (ConnectionError "Overpass API server error") (2 ^ Z.of_nat attempt)%Q
        else Break (ConnectionError "Overpass API HTTP error")
      else
        match body with
        | Some data => Return data
        | None => Break (ValueError "Invalid JSON response from Overpass API")
        end
  | ReplyConnectionError =>
      retry_or_break attempt max_retries
        (ConnectionError "Overpass API connection error") (2 ^ Z.of_nat attempt)%Q
  | ReplyRequestException =>
      retry_or_break attempt max_retries
        (ConnectionError "Overpass API request failed") (2 ^ Z.of_nat attempt)%Q
  end.

(** The loop [for attempt in range(max_retries)] at one endpoint, over the
    attempts that remain: the data returned if any, [last_error], and the
    trace. *)
Fixpoint attempt_loop (overpass_url poi_type : string) (box : bbox) (max_retries : nat) (range : list nat) (last_error : option exn) (tr : trace) : option overpass_data * option exn * trace :=
  match range with
  | [] => (None, last_error, tr)
  | attempt :: range' =>
      let timeout := (45 + Z.of_nat attempt * 15)%Z in
      let r := requests_post tr overpass_url poi_type box timeout in
      let tr := tr ++ [Post overpass_url poi_type box timeout r] in
      match classify attempt max_retries r with
      | Return data => (Some data, last_error, tr)
      | Continue e wait_time =>
          attempt_loop overpass_url poi_type box max_retries range' (Some e) (tr ++ [Sleep wait_time])
      | Break e => (None, Some e, tr)
      end
  end.

(** The loop [for overpass_url in self.overpass_urls] and the final
    [raise]. *)
Fixpoint endpoint_loop (urls : list string) (poi_type : string) (box : bbox) (max_retries : nat) (last_error : option exn) (tr : trace) : result overpass_data * trace :=
  match urls with
  | [] =>
      (Raise (default (ConnectionError "Failed to query Overpass API after all retry attempts.") last_error), tr)
  | overpass_url :: urls' =>
      match attempt_loop overpass_url poi_type box max_retries (seq 0 max_retries) last_error tr with
      | (Some data, _, tr') => (Ok data, tr')
      | (None, last_error', tr') => endpoint_loop urls' poi_type box max_retries last_error' tr'
      end
  end.

Definition query_poi_type (self : t) (box : bbox) (poi_type : string) (max_retries : nat) (tr : trace) : result overpass_data * trace :=
  if negb (in_config poi_type) then (Raise (ValueError "Unknown POI type"), tr)
  else endpoint_loop (overpass_urls self) poi_type box max_retries None tr.

(** *** [query_all_poi_types] *)

(** The arguments of [query_all_poi_types] that stay fixed during the
    loop. A callback is a Python callable: its call is an event of the
    trace, and it may raise. *)
Record query_args := {
  arg_bbox : bbox;
  delay_seconds : Q;
  max_distance_to_route_km : Q;
  progress_callback : option (string -> nat -> nat -> result unit);
  batch_callback : option (string -> list POI -> result unit);
  deduplication_radius_km : Q;
  poi_settings : option (gmap string poi_setting)
}.

(** The choice of [poi_types], with the validation of a selection. An
    empty selection is falsy: all types are queried. *)
Definition select_poi_types (selected_poi_types : option (list string)) : result (list string) :=
  match selected_poi_types with
  | Some (ty :: tys) =>
      let invalid_types := filter (fun ty' => in_config ty' = false) (ty :: tys) in
      match invalid_types with
      | _ :: _ => Raise (ValueError "Unknown POI types")
      | [] => Ok (ty :: tys)
      end
  | _ => Ok (map fst POI_TYPE_CONFIG)
  end.

Definition call_progress (a : query_args) (poi_type : string) (index total_types : nat) (tr : trace) : result unit * trace :=
  match progress_callback a with
  | Some callback => (callback poi_type index total_types, tr ++ [Progress poi_type index total_types])
  | None => (Ok (), tr)
  end.

Definition call_batch (a : query_args) (poi_type : string) (deduplicated_pois : list POI) (tr : trace) : result unit * trace :=
  match batch_callback a with
  | Some callback => (callback poi_type deduplicated_pois, tr ++ [Batch poi_type deduplicated_pois])
  | None => (Ok (), tr)
  end.

Definition poi_max_distance_for (a : query_args) (poi_type : string) : Q :=
  match settings_for (poi_settings a) poi_type with
  | Some s => default (max_distance_to_route_km a) (get_max_deviation_km s)
  | None => max_distance_to_route_km a
  end.

(** The [try] block of one category, on the state [(all_pois, trace)]. *)
Definition type_body (self : t) (a : query_args) (poi_types : list string) (index : nat) (poi_type : string) (st : list POI * trace) : result unit * (list POI * trace) :=
  let '(all_pois, tr) := st in
  match call_progress a poi_type index (length poi_types) tr with
  | (Raise ex, tr) => (Raise ex, (all_pois, tr))
  | (Ok _, tr) =>
      let poi_max_distance := poi_max_distance_for a poi_type in
      match query_poi_type self (arg_bbox a) poi_type 3 tr with
      | (Raise ex, tr) => (Raise ex, (all_pois, tr))
      | (Ok overpass_data, tr) =>
          match filter_pois self overpass_data poi_type poi_max_distance with
          | Raise ex => (Raise ex, (all_pois, tr))
          | Ok filtered_pois =>
              let deduplicated_pois :=
                deduplicate_pois filtered_pois (deduplication_radius_km a) (poi_settings a) in
              let all_pois := all_pois ++ deduplicated_pois in
              match call_batch a poi_type deduplicated_pois tr with
              | (Raise ex, tr) => (Raise ex, (all_pois, tr))
              | (Ok _, tr) =>
                  if bool_decide (Some poi_type ≠ last poi_types)
                  then (Ok (), (all_pois, tr ++ [Sleep (delay_seconds a)]))
                  else (Ok (), (all_pois, tr))
              end
          end
      end
  end.

(** [for index, poi_type in enumerate(poi_types, start=1)], over the
    categories that remain; [except Exception: continue] drops the
    exception and keeps the state. *)
Fixpoint type_loop (self : t) (a : query_args) (poi_types : list string) (index : nat) (remaining : list string) (st : list POI * trace) : list POI * trace :=
  match remaining with
  | [] => st
  | poi_type :: remaining' =>
      let '(_, st') := type_body self a poi_types index poi_type st in
      type_loop self a poi_types (S index) remaining' st'
  end.

Definition query_all_poi_types (self : t) (a : query_args) (selected_poi_types : option (list string)) (tr : trace) : result (list POI) * trace :=
  match select_poi_types selected_poi_types with
  | Raise ex => (Raise ex, tr)
  | Ok poi_types =>
      let '(all_pois, tr') := type_loop self a poi_types 1 poi_types ([], tr) in
      (Ok (sort_by Qltb distance_on_route all_pois), tr')
  end.

End WithEnv.
End OverpassClient.

(** ** The great-circle distance over the real numbers *)

Module GreatCircle.
Local Open Scope R_scope.

(** The package's mean earth radius in kilometres (the specification says
    about 6371 km). *)
Definition AVG_EARTH_RADIUS_KM : R := 6371.0088.

Definition radians (deg : R) : R := deg * PI / 180.

(** Modelled from the spec: the function [haversine] of the third-party
    [haversine] package, which [RouteCalculator.haversine_distance] calls
    and which is not part of the repository's sources. The specification
    calls it the standard great-circle (haversine) distance with a mean
    earth radius of about 6371 km; this is that formula, over the real
    numbers (rounding of floats is outside the model). *)
Definition haversine (point1 point2 : R * R) : R :=
  let lat1 := radians (fst point1) in
  let lng1 := radians (snd point1) in
  let lat2 := radians (fst point2) in
  let lng2 := radians (snd point2) in
  let lat := lat2 - lat1 in
  let lng := lng2 - lng1 in
  let d := (sin (lat * / 2))² + cos lat1 * cos lat2 * (sin (lng * / 2))² in
  2 * AVG_EARTH_RADIUS_KM * asin (sqrt d).

(** [RouteCalculator.haversine_distance], with the package's function in
    the place of the parameter. *)
Definition haversine_distance (point1 point2 : RoutePoint) : R :=
  haversine (Q2R (lat point1), Q2R (lon point1)) (Q2R (lat point2), Q2R (lon point2)).

End GreatCircle.

(** ** Properties as the specification words them *)

(** The length of the route up to its point [i]: the sum of the
    great-circle distances of the first [i] segments. *)
Definition segments {env : Env} (pts : list RoutePoint) : list Q :=
  zip_with RouteCalculator.haversine_distance pts (tail pts).

Definition Qsum (l : list Q) : Q := fold_right Qplus 0%Q l.

Definition distance_along {env : Env} (pts : list RoutePoint) (i : nat) : Q :=
  Qsum (take i (segments pts)).

Definition route_length {env : Env} (pts : list RoutePoint) : Q := Qsum (segments pts).

(** The great-circle distance of two POIs, as [deduplicate_pois] takes it. *)
Definition poi_distance {env : Env} (p q : POI) : Q :=
  haversine (poi_lat p, poi_lon p) (poi_lat q, poi_lon q).

(** The POIs that [pois_by_type] holds under the key [c]. *)
Fixpoint group_of (c : string) (pois_by_type : list (string * list POI)) : list POI :=
  match pois_by_type with
  | [] => []
  | (k, type_pois) :: rest => if String.eqb k c then type_pois else group_of c rest
  end.

(** The keys of [pois_by_type] are distinct, and each holds POIs of its
    own type. *)
Definition grouped (g : list (string * list POI)) : Prop :=
  NoDup (map fst g) /\ Forall (fun kv => Forall (fun p => poi_type p = fst kv) (snd kv)) g.

(** The POIs of category [c] in a list, in their order. *)
Definition of_type (c : string) (l : list POI) : list POI :=
  filter (fun p => poi_type p = c) l.

(** The order of preference of the specification: closer to the route;
    then longer weekly opening hours, as the code computes them (a
    binary64 number); then a brand or an operator; then a Wikipedia or
    Wikidata reference; then a URL; then a name. *)
Definition hours (p : POI) : Q :=
  OpeningHours.calculate_opening_hours_duration (opening_hours p).
Definition branded (p : POI) : bool := truthy (py_or (brand p) (operator p)).
Definition documented (p : POI) : bool := truthy (py_or (wikipedia p) (wikidata p)).
Definition has_url (p : POI) : bool := truthy (url p).
Definition named (p : POI) : bool := truthy_str (name p).

(** Present on the first, absent on the second. *)
Definition wins (x y : bool) : Prop := x = true /\ y = false.

Definition preferred (a b : POI) : Prop :=
  (distance_to_route a < distance_to_route b)%Q
  \/ ((distance_to_route a == distance_to_route b)%Q
      /\ ((hours b < hours a)%Q
          \/ ((hours a == hours b)%Q
              /\ (wins (branded a) (branded b)
                  \/ (branded a = branded b
                      /\ (wins (documented a) (documented b)
                          \/ (documented a = documented b
                              /\ (wins (has_url a) (has_url b)
                                  \/ (has_url a = has_url b
                                      /\ wins (named a) (named b)))))))))).

(** What [filter_pois] records in a POI it builds from an element. *)
Definition built_from (ty : string) (config : poi_type_config) (max_km : Q) (e : element) (p : POI) : Prop :=
  name p = OverpassClient.name_or_default (tag e "name") (default_name config)
  /\ poi_type p = ty
  /\ (distance_to_route p <= max_km)%Q.

(** *** The failure policy of [query_poi_type], on traces *)

(** A reply that is not retried: a bad request, or a body that is no
    JSON. *)
Definition not_retried (r : reply) : Prop :=
  match r with
  | ReplyHTTP status_code body =>
      status_code = 400%Z \/ (~ (400 <= status_code < 600)%Z /\ body = None)
  | _ => False
  end.

Definition succeeds (r : reply) (data : overpass_data) : Prop :=
  exists status_code, r = ReplyHTTP status_code (Some data) /\ ~ (400 <= status_code < 600)%Z.

(** The error a reply is classified as, by the policy table. *)
Definition error_of (r : reply) : option exn :=
  match r with
  | ReplyTimeout => Some (TimeoutError "Overpass API request timed out")
  | ReplyConnectionError => Some (ConnectionError "Overpass API connection error")
  | ReplyRequestException => Some (ConnectionError "Overpass API request failed")
  | ReplyHTTP status_code body =>
      if bool_decide (400 <= status_code < 600)%Z then
        if bool_decide (status_code = 429%Z) then
          Some (ConnectionError "Overpass API rate limit exceeded.")
        else if bool_decide (status_code = 400%Z) then
          Some (ValueError "Bad request to Overpass API")
        else if bool_decide (500 <= status_code)%Z then
          Some (ConnectionError "Overpass API server error")
        else Some (ConnectionError "Overpass API HTTP error")
      else match body with
           | Some _ => None
           | None => Some (ValueError "Invalid JSON response from Overpass API")
           end
  end.

Definition posts_to (overpass_url : string) (e : event) : Prop :=
  match e with Post u _ _ _ _ => u = overpass_url | _ => False end.

(** The events of the attempts at one endpoint: the requests that are
    retried, each followed by a sleep, and then at most one request that
    returns or breaks. The indices are the attempts that remain, the data
    returned if any, and [last_error] before and after. *)
Inductive attempts_trace (overpass_url ty : string) (box : bbox) :
  list nat -> trace -> option overpass_data -> option exn -> option exn -> Prop :=
| at_done le :
    attempts_trace overpass_url ty box [] [] None le le
| at_return attempt range r data le :
    succeeds r data ->
    attempts_trace overpass_url ty box (attempt :: range)
      [Post overpass_url ty box (45 + Z.of_nat attempt * 15) r] (Some data) le le
| at_break attempt range r e le :
    error_of r = Some e ->
    attempts_trace overpass_url ty box (attempt :: range)
      [Post overpass_url ty box (45 + Z.of_nat attempt * 15) r] None le (Some e)
| at_continue attempt range r e w rest o le le' :
    error_of r = Some e -> ~ not_retried r ->
    attempts_trace overpass_url ty box range rest o (Some e) le' ->
    attempts_trace overpass_url ty box (attempt :: range)
      (Post overpass_url ty box (45 + Z.of_nat attempt * 15) r :: Sleep w :: rest) o le le'.

(** The events of the endpoints in turn, up to the first that returns. *)
Inductive endpoints_trace (ty : string) (box : bbox) (max_retries : nat) :
  list string -> trace -> result overpass_data -> option exn -> Prop :=
| et_exhausted le :
    endpoints_trace ty box max_retries [] []
      (Raise (default (ConnectionError "Failed to query Overpass API after all retry attempts.") le)) le
| et_return u urls new data le le' :
    attempts_trace u ty box (seq 0 max_retries) new (Some data) le le' ->
    endpoints_trace ty box max_retries (u :: urls) new (Ok data) le
| et_next u urls new rest res le le' :
    attempts_trace u ty box (seq 0 max_retries) new None le le' ->
    endpoints_trace ty box max_retries urls rest res le' ->
    endpoints_trace ty box max_retries (u :: urls) (new ++ rest) res le.

(** A time of day as [calculate_opening_hours_duration] reads it from the
    hour and minute groups, and a match whose two times are at most
    24:00. *)
Definition clock (hour minute : string) : Q :=
  (inject_Z (Str.int hour) + inject_Z (Str.int minute) / 60)%Q.

Definition within_day (m : OpeningHours.hours_match) : Prop :=
  (clock (OpeningHours.g_start_hour m) (OpeningHours.g_start_min m) <= 24)%Q
  /\ (clock (OpeningHours.g_end_hour m) (OpeningHours.g_end_min m) <= 24)%Q.

(** A reply without [null] in the places where the code reads an
    object or a list: the body, its elements, each element, the centre
    and the tags of an element. *)
Definition without_null (data : overpass_data) : Prop :=
  match data with
  | JsonNull => False
  | JsonObject Null => False
  | JsonObject Missing => True
  | JsonObject (Value els) =>
      forall entry, entry ∈ els ->
        exists e, entry = Some e /\ el_center e <> Null /\ el_tags e <> Null
  end.

(** Where a POI of [filter_pois] comes from: its coordinates are those of
    the element (a node's own, a way's centre), its distance to the route
    is the distance to a route point, and the tags are taken as they
    are. *)
Definition placed_from {env : Env} (self : OverpassClient.t) (e : element) (p : POI) : Prop :=
  OverpassClient.element_coords e = Ok (Some (poi_lat p), Some (poi_lon p))
  /\ (exists route_point, route_point ∈ points (OverpassClient.route self)
        /\ distance_to_route p
           = RouteCalculator.haversine_distance {| lat := poi_lat p; lon := poi_lon p |} route_point)
  /\ opening_hours p = tag e "opening_hours"
  /\ url p = py_or (tag e "website") (tag e "url")
  /\ brand p = tag e "brand"
  /\ operator p = tag e "operator"
  /\ wikipedia p = tag e "wikipedia"
  /\ wikidata p = tag e "wikidata".

(** *** An acquisition, category by category
    What the specification says of [query_all_poi_types]: the categories
    have their turn one after the other; a category whose query or whose
    filtering raises is skipped, and a category that goes through yields
    its filtered and deduplicated POIs. *)

(** The turn of one category: the trace when its query begins and when
    it ends, and the POIs the category yields. *)
Record category_run := {
  run_type : string;
  run_start : trace;
  run_end : trace;
  run_pois : list POI
}.

(** The progress callback, if there is one, returns for the category. *)
Definition progress_returns (a : OverpassClient.query_args) (poi_type : string) (index total : nat) : Prop :=
  forall callback, OverpassClient.progress_callback a = Some callback ->
    callback poi_type index total = Ok ().

(** What the turn of the category at position [index] (from 1) of
    [total] comes to: the progress callback raises and nothing is asked;
    or the query raises; or the reply is not one that [filter_pois]
    takes; or the category yields the POIs of its reply, filtered by its
    limit and deduplicated. *)
Definition run_outcome {env : Env} (self : OverpassClient.t) (a : OverpassClient.query_args) (index total : nat) (r : category_run) : Prop :=
  (exists callback ex,
      OverpassClient.progress_callback a = Some callback
      /\ callback (run_type r) index total = Raise ex
      /\ run_end r = run_start r /\ run_pois r = [])
  \/ (progress_returns a (run_type r) index total
      /\ ((exists ex,
             OverpassClient.query_poi_type self (OverpassClient.arg_bbox a) (run_type r) 3 (run_start r)
             = (Raise ex, run_end r)
             /\ run_pois r = [])
          \/ exists data,
               OverpassClient.query_poi_type self (OverpassClient.arg_bbox a) (run_type r) 3 (run_start r)
               = (Ok data, run_end r)
               /\ match OverpassClient.filter_pois self data (run_type r)
                          (OverpassClient.poi_max_distance_for a (run_type r)) with
                  | Raise _ => run_pois r = []
                  | Ok filtered =>
                      run_pois r
                      = OverpassClient.deduplicate_pois filtered
                          (OverpassClient.deduplication_radius_km a) (OverpassClient.poi_settings a)
                  end)).

(** The turns follow each other: between the end of a query and the
    beginning of the next (and before the first and after the last)
    there are calls of the callbacks and sleeps, no request. *)
Definition quiet (gap : trace) : Prop := Forall (fun e => is_post e = false) gap.

Fixpoint chained (tr : trace) (runs : list category_run) (tr' : trace) : Prop :=
  match runs with
  | [] => exists gap, tr' = tr ++ gap /\ quiet gap
  | r :: runs' =>
      (exists gap, run_start r = tr ++ gap /\ quiet gap)
      /\ chained (run_end r) runs' tr'
  end.

(** Ascending by [distance_on_route]. *)
Definition sorted_on_route (l : list POI) : Prop :=
  forall i j p q, (i < j)%nat -> l !! i = Some p -> l !! j = Some q ->
    (distance_on_route p <= distance_on_route q)%Q.

(** ** A small world to run the model in *)

(** A stand-in for the distance on examples: 111 km per degree along the
    axes. It is symmetric and zero between equal points, like the
    great-circle distance. *)
Definition grid_km (a b : Q * Q) : Q :=
  (111 * (Qabs (fst a - fst b) + Qabs (snd a - snd b)))%Q.

(** The events one call of [query_poi_type] may add, with [max_retries]
    attempts per endpoint: a request to one of the endpoints for the
    category and box asked for, with the timeout of an attempt below
    [max_retries]; a sleep of 5 seconds or of [2 ** attempt] seconds
    where another attempt follows. *)
Definition within_budget (urls : list string) (ty : string) (box : bbox) (max_retries : nat) (e : event) : Prop :=
  match e with
  | Post u t b timeout _ =>
      u ∈ urls /\ t = ty /\ b = box
      /\ exists attempt, (attempt < max_retries)%nat /\ timeout = (45 + Z.of_nat attempt * 15)%Z
  | Sleep seconds =>
      exists attempt, (S attempt < max_retries)%nat
        /\ (seconds = 5%Q \/ seconds = (2 ^ Z.of_nat attempt)%Q)
  | _ => False
  end.

(** The events of the attempts at one endpoint, from attempt [attempt]
    on: a request with the timeout of the attempt; when the request is
    retried, a sleep of 5 or of [2 ** attempt] seconds and then the
    events of the next attempt at the same endpoint, which is still below
    [max_retries]. *)
Inductive attempts_from (u ty : string) (box : bbox) (max_retries : nat) : nat -> trace -> Prop :=
| af_last attempt r :
    (attempt < max_retries)%nat ->
    attempts_from u ty box max_retries attempt
      [Post u ty box (45 + Z.of_nat attempt * 15) r]
| af_retry attempt r w rest :
    (S attempt < max_retries)%nat ->
    w = 5%Q \/ w = (2 ^ Z.of_nat attempt)%Q ->
    attempts_from u ty box max_retries (S attempt) rest ->
    attempts_from u ty box max_retries attempt
      (Post u ty box (45 + Z.of_nat attempt * 15) r :: Sleep w :: rest).

(** The events of a call: the attempts at the first endpoints of the
    list, one endpoint after the other, each from attempt 0 on. *)
Definition endpoint_blocks (urls : list string) (ty : string) (box : bbox) (max_retries : nat) (new : trace) : Prop :=
  exists blocks : list trace,
    new = concat blocks
    /\ Forall2 (fun u block => attempts_from u ty box max_retries 0 block)
               (take (length blocks) urls) blocks.

(** How many requests of a trace went to an endpoint, how many of them
    for a category, and how often a name stands in a list. *)
Definition is_post_at (u : string) (e : event) : bool :=
  match e with Post overpass_url _ _ _ _ => String.eqb overpass_url u | _ => false end.

Definition posts_at (u : string) (tr : trace) : nat := length (List.filter (is_post_at u) tr).

Definition is_post_for (u ty : string) (e : event) : bool :=
  match e with
  | Post overpass_url poi_type _ _ _ => String.eqb overpass_url u && String.eqb poi_type ty
  | _ => false
  end.

Definition posts_for (u ty : string) (tr : trace) : nat :=
  length (List.filter (is_post_for u ty) tr).

Definition occurrences (x : string) (l : list string) : nat :=
  length (List.filter (String.eqb x) l).

(** The exception classes [query_poi_type] documents and raises. *)
Definition query_error (e : exn) : Prop :=
  match e with
  | ValueError _ | ConnectionError _ | TimeoutError _ => True
  | _ => False
  end.

(** The calls of the two callbacks that a trace records, with their
    arguments. *)
Definition progress_of (e : event) : option (string * nat * nat) :=
  match e with Progress poi_type index total => Some (poi_type, index, total) | _ => None end.

Definition batch_of (e : event) : option (string * list POI) :=
  match e with Batch poi_type pois => Some (poi_type, pois) | _ => None end.

(** Replies by script: the n-th request of a run gets the n-th reply, and
    a request beyond the script times out. *)
Definition posts (tr : trace) : nat := length (List.filter is_post tr).

Definition scripted (script : list reply) : Env :=
  {| haversine := grid_km;
     float_str := fun _ => "?";
     extract_price_range := fun _ => Ok None;
     requests_post := fun tr _ _ _ _ => default ReplyTimeout (script !! posts tr) |}.

(** ** Sample data *)

(** The route of the end-to-end test: three points, with an index that
    answers a query by the position of the nearest point under
    [grid_km]. *)
Definition sample_points : list RoutePoint :=
  [ {| lat := 0; lon := 0 |}; {| lat := 0; lon := 1 |}; {| lat := 1; lon := 1 |} ].

Fixpoint nearest_from (pts : list RoutePoint) (i : nat) (q : Q * Q) (best : nat) (best_d : Q) : nat :=
  match pts with
  | [] => best
  | p :: pts' =>
      let d := grid_km (lat p, lon p) q in
      if Qltb d best_d then nearest_from pts' (S i) q i d
      else nearest_from pts' (S i) q best best_d
  end.

Definition linear_index (pts : list RoutePoint) (box : Q * Q * Q * Q) : list nat :=
  match pts with
  | [] => []
  | p :: pts' =>
      let '(x, y, _, _) := box in
      [nearest_from pts' 1 (y, x) 0 (grid_km (lat p, lon p) (y, x))]
  end.

Definition sample_route : Route :=
  {| points := sample_points; rtree := linear_index sample_points |}.

(** A POI with the fields the examples vary; the others are absent. *)
Definition sample_poi (la lo : Q) (n : string) (to_route : Q) (ty : string) (oh : option string) : POI :=
  {| poi_lat := la; poi_lon := lo; name := n;
     distance_to_route := to_route; distance_on_route := 0;
     poi_type := ty; opening_hours := oh; url := None; google_maps_link := "";
     price_range := None; brand := None; operator := None;
     wikipedia := None; wikidata := None |}.

(** The two toilets of the unit tests, about 0.2 km apart. *)
Definition toilet_1 : POI := sample_poi 0 0 "Toilet 1" 0.1 "public_toilets" (Some "24/7").
Definition toilet_2 : POI :=
  sample_poi 0.001 0.001 "Toilet 2" 0.1 "public_toilets" (Some "Mo-Fr 09:00-17:00").
Definition bakery_1 : POI := sample_poi 0.001 0.001 "Bakery" 0.15 "bakeries" None.

(** Two bakeries at one place, equally far from the route. The first
    has a brand and is open eight hours on five days from 09:20, the
    second has none and is open eight hours on five days from 09:00. *)
Definition bakery_branded : POI :=
  {| poi_lat := 0; poi_lon := 0; name := "Bakery A";
     distance_to_route := 0.1; distance_on_route := 0;
     poi_type := "bakeries"; opening_hours := Some "Mo-Fr 09:20-17:20";
     url := None; google_maps_link := "";
     price_range := None; brand := Some "Brand A"; operator := None;
     wikipedia := None; wikidata := None |}.
Definition bakery_plain : POI :=
  sample_poi 0 0 "Bakery B" 0.1 "bakeries" (Some "Mo-Fr 09:00-17:00").

(** Two vending machines and two bicycle vending stations, each pair at
    one place. *)
Definition vending_1 : POI := sample_poi 0 0 "Drinks" 0.2 "vending_machines" None.
Definition vending_2 : POI := sample_poi 0 0 "Snacks" 0.1 "vending_machines" None.
Definition bike_vending_1 : POI := sample_poi 0 0 "Tubes A" 0.1 "bicycle_vending" None.
Definition bike_vending_2 : POI := sample_poi 0 0 "Tubes B" 0.1 "bicycle_vending" None.

(** The reply of the end-to-end test, with one more element that has no
    name: a fuel station 0.2 km from the start of the route, one far
    away, and an unnamed one on the route. *)
Definition sample_node (la lo : Q) (tags : gmap string string) : option element :=
  Some {| el_type := Some "node"; el_lat := Some la; el_lon := Some lo;
          el_center := Missing; el_tags := Value (Some <$> tags) |}.

Definition sample_data : overpass_data :=
  JsonObject (Value
    [ sample_node 0.001 0.001 {[ "amenity" := "fuel"; "name" := "Gas Station 1" ]};
      sample_node 5 5 {[ "amenity" := "fuel"; "name" := "Gas Station 2" ]};
      sample_node 0 1 {[ "amenity" := "fuel" ]} ]).

(** Elements with [null] in them: a node whose tags are [null], near
    the route and far from it, and a way whose centre is [null]. *)
Definition null_tags_node (la lo : Q) : option element :=
  Some {| el_type := Some "node"; el_lat := Some la; el_lon := Some lo;
          el_center := Missing; el_tags := Null |}.

Definition null_center_way : option element :=
  Some {| el_type := Some "way"; el_lat := Some 0%Q; el_lon := Some 0%Q;
          el_center := Null; el_tags := Missing |}.

Definition sample_client : OverpassClient.t := OverpassClient.init sample_route.

Definition sample_filtered : list POI :=
  Eval vm_compute in
    match OverpassClient.filter_pois (env := scripted []) sample_client sample_data "gas_stations" 2 with
    | Ok pois => pois
    | Raise _ => []
    end.

Definition sample_box : bbox := {| south := -1; north := 2; west := -1; east := 2 |}.

(** Three rate-limit replies, a bad request, and the sample reply. *)
Definition sample_script : list reply :=
  [ ReplyHTTP 429 None; ReplyHTTP 429 None; ReplyHTTP 429 None;
    ReplyHTTP 400 None; ReplyHTTP 200 (Some sample_data) ].

(** Nine rate-limit replies: three attempts at each of the three
    endpoints. *)
Definition rate_limited_script : list reply := replicate 9 (ReplyHTTP 429 None).

(** An acquisition without callbacks and without settings per category. *)
Definition sample_args : OverpassClient.query_args :=
  {| OverpassClient.arg_bbox := sample_box;
     OverpassClient.delay_seconds := 0.75;
     OverpassClient.max_distance_to_route_km := 2;
     OverpassClient.progress_callback := None;
     OverpassClient.batch_callback := None;
     OverpassClient.deduplication_radius_km := 1;
     OverpassClient.poi_settings := None |}.

(** Every endpoint refuses the first category as a bad request; the
    second category gets the sample reply. *)
Definition one_failure_script : list reply :=
  [ ReplyHTTP 400 None; ReplyHTTP 400 None; ReplyHTTP 400 None;
    ReplyHTTP 200 (Some sample_data) ].

(** A query of an index by its entries: the identifier of the entry
    whose box starts nearest to the start of the queried box under
    [grid_km], the first such on ties; nothing on an empty index. *)
Fixpoint nearest_entry (entries : list (nat * (Q * Q * Q * Q))) (q : Q * Q) (best : nat) (best_d : Q) : nat :=
  match entries with
  | [] => best
  | (i, (x, y, _, _)) :: entries' =>
      let d := grid_km (x, y) q in
      if Qltb d best_d then nearest_entry entries' q i d
      else nearest_entry entries' q best best_d
  end.

Definition entries_nearest (entries : list (nat * (Q * Q * Q * Q))) (box : Q * Q * Q * Q) : list nat :=
  match entries with
  | [] => []
  | (i, (x, y, _, _)) :: entries' =>
      let '(qx, qy, _, _) := box in
      [nearest_entry entries' (qx, qy) i (grid_km (x, y) (qx, qy))]
  end.

(** An acquisition with both callbacks, which never raise. *)
Definition callback_args : OverpassClient.query_args :=
  {| OverpassClient.arg_bbox := sample_box;
     OverpassClient.delay_seconds := 0.75;
     OverpassClient.max_distance_to_route_km := 2;
     OverpassClient.progress_callback := Some (fun _ _ _ => Ok ());
     OverpassClient.batch_callback := Some (fun _ _ => Ok ());
     OverpassClient.deduplication_radius_km := 1;
     OverpassClient.poi_settings := None |}.

(** * Properties *)

(** ** Rounding to binary64 *)

Section FloatFacts.
Import Float.
Local Open Scope Q_scope.

Lemma pow2_pos (z : Z) : 0 < pow2 z.
Proof. unfold pow2. apply Qpower_0_lt. reflexivity. Qed.

Lemma pow2_succ (z : Z) : pow2 (z + 1) == 2 * pow2 z.
Proof. unfold pow2. rewrite Qpower_plus by discriminate. simpl. ring. Qed.

Lemma pow2_le (a b : Z) : (a <= b)%Z -> pow2 a <= pow2 b.
Proof.
  intros Hab. replace b with (a + (b - a))%Z by lia.
  assert (Hn : (0 <= b - a)%Z) by lia. revert Hn. generalize (b - a)%Z.
  intros n Hn. pattern n. apply natlike_ind; [| |exact Hn].
  - rewrite Z.add_0_r. apply Qle_refl.
  - intros k Hk IH. replace (a + Z.succ k)%Z with ((a + k) + 1)%Z by lia.
    rewrite pow2_succ. pose proof (pow2_pos (a + k)). lra.
Qed.

Lemma pow2_inject (n : Z) : (0 <= n)%Z -> pow2 n == inject_Z (2 ^ n).
Proof.
  intros Hn. pattern n. apply natlike_ind; [| |exact Hn].
  - reflexivity.
  - intros k Hk IH. unfold Z.succ. rewrite pow2_succ, IH, Z.pow_add_r by lia.
    rewrite inject_Z_mult. change (inject_Z (2 ^ 1)) with 2. ring.
Qed.

Lemma round_half_even_near (q : Q) :
  q - (1 # 2) <= inject_Z (round_half_even q) <= q + (1 # 2).
Proof.
  unfold round_half_even.
  pose proof (Qfloor_le q) as Hlo. pose proof (Qlt_floor q) as Hhi.
  rewrite inject_Z_plus in Hhi. change (inject_Z 1) with 1 in Hhi.
  destruct (Qcompare_spec (q - inject_Z (Qfloor q)) (1 # 2)) as [Hc|Hc|Hc].
  - destruct (Z.even (Qfloor q)).
    + lra.
    + rewrite inject_Z_plus. change (inject_Z 1) with 1. lra.
  - lra.
  - rewrite inject_Z_plus. change (inject_Z 1) with 1. lra.
Qed.

Lemma round_half_even_int (n : Z) : round_half_even (inject_Z n) = n.
Proof.
  unfold round_half_even. rewrite Qfloor_Z.
  destruct (Qcompare_spec (inject_Z n - inject_Z n) (1 # 2)) as [Hc|Hc|Hc].
  - exfalso. lra.
  - reflexivity.
  - exfalso. lra.
Qed.

Lemma round_half_even_mono (p q : Q) :
  p <= q -> (round_half_even p <= round_half_even q)%Z.
Proof.
  intros Hpq.
  assert (Hfl : (Qfloor p <= Qfloor q)%Z) by (by apply Qfloor_resp_le).
  pose proof (Qfloor_le p) as Hp1. pose proof (Qlt_floor p) as Hp2.
  pose proof (Qfloor_le q) as Hq1. pose proof (Qlt_floor q) as Hq2.
  rewrite inject_Z_plus in Hp2, Hq2. change (inject_Z 1) with 1 in Hp2, Hq2.
  destruct (Z.eq_dec (Qfloor p) (Qfloor q)) as [Heq|Hne].
  - unfold round_half_even. rewrite <- Heq in *.
    destruct (Qcompare_spec (p - inject_Z (Qfloor p)) (1 # 2)) as [Hcp|Hcp|Hcp];
      destruct (Qcompare_spec (q - inject_Z (Qfloor p)) (1 # 2)) as [Hcq|Hcq|Hcq];
      try (destruct (Z.even (Qfloor p))); try lia; exfalso; lra.
  - assert (Hlt : (Qfloor p + 1 <= Qfloor q)%Z) by lia.
    assert (Hup : (round_half_even p <= Qfloor p + 1)%Z).
    { unfold round_half_even. destruct (_ ?= _); [destruct (Z.even _)| |]; lia. }
    assert (Hdn : (Qfloor q <= round_half_even q)%Z).
    { unfold round_half_even. destruct (_ ?= _); [destruct (Z.even _)| |]; lia. }
    lia.
Qed.

(** The exponent that [ilog2] finds. *)
Lemma ilog2_spec (x : Q) : 0 < x -> pow2 (ilog2 x) <= x < pow2 (ilog2 x + 1).
Proof.
  intros Hx. destruct x as [n d]. unfold Qlt in Hx. simpl in Hx.
  assert (Hn : (0 < n)%Z) by lia. clear Hx.
  pose proof (Z.log2_spec n Hn) as [Hn1 Hn2].
  pose proof (Z.log2_spec (Zpos d) eq_refl) as [Hd1 Hd2].
  pose proof (Z.log2_nonneg n) as Ha. pose proof (Z.log2_nonneg (Zpos d)) as Hb.
  set (a := Z.log2 n) in *. set (b := Z.log2 (Zpos d)) in *.
  assert (Hq : n # d == inject_Z n / inject_Z (Zpos d)) by (apply Qmake_Qdiv).
  assert (Hdpos : 0 < inject_Z (Zpos d)) by (unfold Qlt; simpl; lia).
  assert (Hlow : pow2 (a - b - 1) <= n # d).
  { rewrite Hq. apply Qle_shift_div_l; [exact Hdpos|].
    assert (Hd' : inject_Z (Zpos d) <= pow2 (b + 1)).
    { rewrite pow2_inject by lia. rewrite <- Zle_Qle. unfold Z.succ in Hd2. lia. }
    assert (Hn' : pow2 a <= inject_Z n).
    { rewrite pow2_inject by lia. by rewrite <- Zle_Qle. }
    assert (Hsplit : pow2 a == pow2 (a - b - 1) * pow2 (b + 1)).
    { unfold pow2. rewrite <- Qpower_plus by discriminate. f_equiv. lia. }
    pose proof (pow2_pos (a - b - 1)). nra. }
  assert (Hhigh : n # d < pow2 (a - b + 1)).
  { rewrite Hq. apply Qlt_shift_div_r; [exact Hdpos|].
    assert (Hd' : pow2 b <= inject_Z (Zpos d)).
    { rewrite pow2_inject by lia. by rewrite <- Zle_Qle. }
    assert (Hn' : inject_Z n < pow2 (a + 1)).
    { rewrite pow2_inject by lia. rewrite <- Zlt_Qlt. unfold Z.succ in Hn2. lia. }
    assert (Hsplit : pow2 (a + 1) == pow2 (a - b + 1) * pow2 b).
    { unfold pow2. rewrite <- Qpower_plus by discriminate. f_equiv. lia. }
    pose proof (pow2_pos (a - b + 1)). nra. }
  unfold ilog2. cbn [Qnum Qden]. fold a b.
  destruct (Qle_bool (pow2 (a - b)) (n # d)) eqn:Hle.
  - apply Qle_bool_iff in Hle. split; [exact Hle|exact Hhigh].
  - assert (Hnle : ~ pow2 (a - b) <= n # d).
    { intros H. apply Qle_bool_iff in H. congruence. }
    apply Qnot_le_lt in Hnle. split; [exact Hlow|].
    by replace (a - b - 1 + 1)%Z with (a - b)%Z by lia.
Qed.

Lemma ilog2_unique (x : Q) (e : Z) : pow2 e <= x < pow2 (e + 1) -> ilog2 x = e.
Proof.
  intros [Hlo Hhi].
  assert (Hx : 0 < x) by (pose proof (pow2_pos e); lra).
  destruct (ilog2_spec x Hx) as [Hlo' Hhi'].
  destruct (Z.lt_trichotomy (ilog2 x) e) as [Hlt|[Heq|Hgt]]; [|exact Heq|].
  - pose proof (pow2_le (ilog2 x + 1) e ltac:(lia)). exfalso. lra.
  - pose proof (pow2_le (e + 1) (ilog2 x) ltac:(lia)). exfalso. lra.
Qed.

Lemma ilog2_mono (x y : Q) : 0 < x -> x <= y -> (ilog2 x <= ilog2 y)%Z.
Proof.
  intros Hx Hxy.
  destruct (ilog2_spec x Hx) as [Hlo _].
  destruct (ilog2_spec y ltac:(lra)) as [_ Hhi].
  destruct (Z_le_gt_dec (ilog2 x) (ilog2 y)) as [?|Hgt]; [done|].
  pose proof (pow2_le (ilog2 y + 1) (ilog2 x) ltac:(lia)). exfalso. lra.
Qed.

(** A positive number is rounded within its binade. *)
Lemma round_pos_binade (x : Q) :
  0 < x -> pow2 (ilog2 x) <= round_pos x <= pow2 (ilog2 x + 1).
Proof.
  intros Hx. destruct (ilog2_spec x Hx) as [Hlo Hhi].
  unfold round_pos. set (e := ilog2 x) in *. set (ulp := pow2 (e - 52)).
  assert (Hulp : 0 < ulp) by apply pow2_pos.
  assert (He : pow2 e == inject_Z (2 ^ 52) * ulp).
  { rewrite <- pow2_inject by lia. unfold ulp, pow2.
    rewrite <- Qpower_plus by discriminate. f_equiv. lia. }
  assert (He1 : pow2 (e + 1) == inject_Z (2 ^ 53) * ulp).
  { rewrite <- pow2_inject by lia. unfold ulp, pow2.
    rewrite <- Qpower_plus by discriminate. f_equiv. lia. }
  assert (Hq1 : inject_Z (2 ^ 52) <= x / ulp).
  { apply Qle_shift_div_l; [exact Hulp|]. by rewrite <- He. }
  assert (Hq2 : x / ulp <= inject_Z (2 ^ 53)).
  { apply Qle_shift_div_r; [exact Hulp|]. rewrite <- He1. lra. }
  apply round_half_even_mono in Hq1, Hq2. rewrite round_half_even_int in Hq1, Hq2.
  rewrite Zle_Qle in Hq1, Hq2. rewrite He, He1. split; nra.
Qed.

Lemma round_pos_mono (x y : Q) : 0 < x -> x <= y -> round_pos x <= round_pos y.
Proof.
  intros Hx Hxy. assert (Hy : 0 < y) by lra.
  pose proof (ilog2_mono x y Hx Hxy) as He.
  destruct (Z.eq_dec (ilog2 x) (ilog2 y)) as [Heq|Hne].
  - unfold round_pos. rewrite Heq. set (ulp := pow2 (ilog2 y - 52)).
    assert (Hulp : 0 < ulp) by apply pow2_pos.
    assert (Hq : x / ulp <= y / ulp).
    { apply Qle_shift_div_l; [exact Hulp|]. field_simplify; [lra|lra]. }
    apply round_half_even_mono in Hq. rewrite Zle_Qle in Hq. nra.
  - destruct (round_pos_binade x Hx) as [_ Hux].
    destruct (round_pos_binade y Hy) as [Hly _].
    pose proof (pow2_le (ilog2 x + 1) (ilog2 y) ltac:(lia)). lra.
Qed.

Lemma round_pos_positive (x : Q) : 0 < x -> 0 < round_pos x.
Proof.
  intros Hx. destruct (round_pos_binade x Hx) as [Hlo _].
  pose proof (pow2_pos (ilog2 x)). lra.
Qed.

(** Rounding keeps the order. *)
Lemma round_mono (x y : Q) : x <= y -> round x <= round y.
Proof.
  intros Hxy. unfold round. rewrite !Qred_correct.
  destruct (Qcompare_spec x 0) as [Hcx|Hcx|Hcx];
    destruct (Qcompare_spec y 0) as [Hcy|Hcy|Hcy];
    try (exfalso; lra).
  - apply Qle_refl.
  - pose proof (round_pos_positive y Hcy). lra.
  - pose proof (round_pos_positive (- x) ltac:(lra)). lra.
  - pose proof (round_pos_mono (- y) (- x) ltac:(lra) ltac:(lra)). lra.
  - pose proof (round_pos_positive (- x) ltac:(lra)).
    pose proof (round_pos_positive y Hcy). lra.
  - by apply round_pos_mono.
Qed.

(** Below 32 the error of rounding is at most [2^-49]. *)
Lemma round_error_below_32 (x : Q) :
  0 <= x -> x < 32 -> round x <= x + pow2 (-49).
Proof.
  intros Hx0 Hx32. unfold round. rewrite Qred_correct.
  pose proof (pow2_pos (-49)) as Hpos.
  destruct (Qcompare_spec x 0) as [Hcx|Hcx|Hcx]; [lra|exfalso; lra|].
  destruct (ilog2_spec x Hcx) as [Hlo _].
  assert (He : (ilog2 x <= 4)%Z).
  { destruct (Z_le_gt_dec (ilog2 x) 4) as [?|Hgt]; [done|].
    pose proof (pow2_le 5 (ilog2 x) ltac:(lia)) as H5.
    change (pow2 5) with 32 in H5. exfalso. lra. }
  unfold round_pos. set (ulp := pow2 (ilog2 x - 52)).
  assert (Hulp : 0 < ulp) by apply pow2_pos.
  assert (Hulp' : ulp <= pow2 (-48)) by (apply pow2_le; lia).
  assert (H49 : pow2 (-48) == 2 * pow2 (-49)) by (apply (pow2_succ (-49))).
  destruct (round_half_even_near (x / ulp)) as [_ Hnear].
  assert (Hx : x / ulp * ulp == x) by (field; lra).
  nra.
Qed.

(** What the model needs of the numbers it starts from: they are
    binary64 numbers. *)
Lemma round_small_nat (k : nat) :
  (k <= 1440)%nat -> round (inject_Z (Z.of_nat k)) = inject_Z (Z.of_nat k).
Proof.
  intros Hk.
  assert (Hall : forallb (fun i => Qeq_bool (round (inject_Z (Z.of_nat i))) (inject_Z (Z.of_nat i))
                                   && Z.eqb (Zpos (Qden (round (inject_Z (Z.of_nat i))))) 1)
                         (List.seq 0 1441) = true) by (vm_compute; reflexivity).
  rewrite forallb_forall in Hall.
  specialize (Hall k ltac:(apply in_seq; lia)).
  apply andb_true_iff in Hall as [Hq Hd].
  apply Qeq_bool_iff in Hq. apply Z.eqb_eq in Hd.
  destruct (round (inject_Z (Z.of_nat k))) as [n d]. simpl in Hd.
  injection Hd as ->. unfold Qeq in Hq. simpl in Hq. unfold inject_Z. f_equal. lia.
Qed.

Lemma round_small_int (z : Z) :
  (0 <= z <= 1440)%Z -> round (inject_Z z) = inject_Z z.
Proof.
  intros Hz. rewrite <- (Z2Nat.id z) by lia. apply round_small_nat. lia.
Qed.

End FloatFacts.



(** ** Opening hours *)

(** C3: [calculate_opening_hours_duration] returns at the first clause
    that parses, before the loop that sums the clauses and before the cap:
    two clauses of 40 and 8 hours give 40, a span of 25 hours a day on
    seven days gives 175, above 168, and a span that starts at 30:00
    gives a negative number of hours. *)
Lemma opening_hours_first_clause_returns_uncapped :
  (OpeningHours.calculate_opening_hours_duration (Some "Mo-Fr 09:00-17:00; Sa-Su 10:00-14:00") == 40)%Q
  /\ (OpeningHours.calculate_opening_hours_duration (Some "Mo-Su 05:00-30:00") == 175)%Q
  /\ (OpeningHours.calculate_opening_hours_duration (Some "Mo-Fr 30:00-05:00") == -5)%Q.
Proof. repeat split; vm_compute; reflexivity. Qed.

Section OpeningHoursFacts.
Import OpeningHours.

(** What holds of the heuristic: 168 hours for the phrasings of an
    opening around the clock, 0 for absent hours, and a value between 0
    and 168 whenever the first clause that matches does not decide (no
    clause matches, or its days are unknown). *)
Lemma opening_hours_around_the_clock (oh : option string) :
  is_24_7 oh = true -> calculate_opening_hours_duration oh = 168%Q.
Proof.
  intros H24. unfold calculate_opening_hours_duration.
  destruct (truthy oh) eqn:Ht; simpl.
  - by rewrite H24.
  - unfold is_24_7 in H24. by rewrite Ht in H24.
Qed.

Lemma opening_hours_absent :
  calculate_opening_hours_duration None = 0%Q
  /\ calculate_opening_hours_duration (Some "") = 0%Q.
Proof. split; reflexivity. Qed.

Lemma opening_hours_sum_bounded (oh : option string) :
  re_search (Str.strip (Str.lower (default "" oh))) ≫= span_hours = None ->
  (0 <= calculate_opening_hours_duration oh <= 168)%Q.
Proof.
  intros Hnone. unfold calculate_opening_hours_duration.
  destruct (negb (truthy oh)); [split; [apply Qle_refl|done]|].
  destruct (is_24_7 oh); [split; [done|apply Qle_refl]|].
  rewrite Hnone.
  destruct (Qlt_le_dec 0 _) as [Hpos|_]; [|split; [apply Qle_refl|done]].
  split.
  - apply Q.min_glb; [by apply Qlt_le_weak|done].
  - apply Q.le_min_r.
Qed.

End OpeningHoursFacts.

(** ** Great-circle distance *)

Section GreatCircleFacts.
Local Open Scope R_scope.

Lemma haversine_same (p : R * R) : GreatCircle.haversine p p = 0.
Proof.
  unfold GreatCircle.haversine. cbv zeta.
  rewrite !Rminus_diag, Rmult_0_l, sin_0, Rsqr_0, Rmult_0_r, Rplus_0_l.
  rewrite sqrt_0, asin_0. ring.
Qed.

Lemma haversine_sym (p q : R * R) : GreatCircle.haversine p q = GreatCircle.haversine q p.
Proof.
  unfold GreatCircle.haversine. cbv zeta.
  set (lat1 := GreatCircle.radians (fst p)). set (lat2 := GreatCircle.radians (fst q)).
  set (lng1 := GreatCircle.radians (snd p)). set (lng2 := GreatCircle.radians (snd q)).
  replace ((lat1 - lat2) * / 2) with (- ((lat2 - lat1) * / 2)) by ring.
  replace ((lng1 - lng2) * / 2) with (- ((lng2 - lng1) * / 2)) by ring.
  rewrite !sin_neg, <- !Rsqr_neg.
  rewrite (Rmult_comm (cos lat2) (cos lat1)). reflexivity.
Qed.

(** C9: the great-circle distance of a point to itself is 0, and the
    distance is symmetric. *)
Theorem haversine_distance_zero_and_symmetric (a b : RoutePoint) :
  GreatCircle.haversine_distance a a = 0
  /\ GreatCircle.haversine_distance a b = GreatCircle.haversine_distance b a.
Proof.
  split.
  - apply haversine_same.
  - apply haversine_sym.
Qed.

End GreatCircleFacts.

(** ** Distance along the route *)

Section RouteDistance.
Context {env : Env}.

Lemma segments_lookup (pts : list RoutePoint) (k : nat) (a b : RoutePoint) :
  pts !! k = Some a -> pts !! (k + 1)%nat = Some b ->
  segments pts !! k = Some (RouteCalculator.haversine_distance a b).
Proof.
  intros Ha Hb. unfold segments.
  rewrite lookup_zip_with, Ha. simpl.
  rewrite lookup_tail. replace (S k) with (k + 1)%nat by lia.
  rewrite Hb. reflexivity.
Qed.

(** The loop adds the segments [k], ..., [k + n - 1] to the accumulator. *)
Lemma distance_loop_sum (pts : list RoutePoint) (n k : nat) (acc : Q) :
  (k + n < length pts)%nat ->
  exists d, RouteCalculator.distance_loop pts (seq k n) acc = Ok d
            /\ (d == acc + Qsum (take n (drop k (segments pts))))%Q.
Proof.
  revert k acc. induction n as [|n IH]; intros k acc Hlen.
  - exists acc. split; [reflexivity|]. simpl. ring.
  - destruct (lookup_lt_is_Some_2 pts k) as [a Ha]; [lia|].
    destruct (lookup_lt_is_Some_2 pts (k + 1)) as [b Hb]; [lia|].
    pose proof (segments_lookup pts k a b Ha Hb) as Hseg.
    simpl seq. simpl RouteCalculator.distance_loop.
    unfold RouteCalculator.getitem at 1 2. rewrite Ha, Hb. simpl.
    destruct (IH (S k) (acc + RouteCalculator.haversine_distance a b)%Q) as [d [Hd Heq]]; [lia|].
    exists d. split; [exact Hd|].
    rewrite Heq. rewrite (drop_S _ _ _ Hseg). simpl. ring.
Qed.

(** C8: [calculate_distance_on_route] returns the sum of the great-circle
    distances of the segments before the nearest route point: 0 when that
    point is the first one, the length of the route when it is the last. *)
Theorem calculate_distance_on_route_is_prefix_sum (route : Route) (point : RoutePoint) (i : nat) :
  RouteCalculator.find_nearest_route_point_index route point = Ok i ->
  (i < length (points route))%nat ->
  exists d, RouteCalculator.calculate_distance_on_route route point = Ok d
    /\ (d == distance_along (points route) i)%Q
    /\ (i = 0%nat -> (d == 0)%Q)
    /\ (S i = length (points route) -> (d == route_length (points route))%Q).
Proof.
  intros Hi Hlt. unfold RouteCalculator.calculate_distance_on_route. rewrite Hi. simpl.
  destruct (distance_loop_sum (points route) i 0 0%Q) as [d [Hd Heq]]; [lia|].
  exists d. split; [exact Hd|].
  assert (Hd' : (d == distance_along (points route) i)%Q).
  { rewrite Heq. unfold distance_along. rewrite drop_0. ring. }
  split; [exact Hd'|]. split.
  - intros ->. rewrite Hd'. reflexivity.
  - intros Hlast. rewrite Hd'. unfold distance_along, route_length.
    rewrite take_ge; [reflexivity|].
    unfold segments. rewrite length_zip_with.
    assert (length (tail (points route)) = (length (points route) - 1)%nat)
      by (destruct (points route); simpl; lia).
    lia.
Qed.

End RouteDistance.

(** The nearest point of the sample route to [(1, 1)] is its last one:
    the distance along the route is the length of the route. *)
Lemma calculate_distance_on_route_witness :
  exists d, RouteCalculator.calculate_distance_on_route (env := scripted []) sample_route {| lat := 1; lon := 1 |} = Ok d
    /\ (d == distance_along (env := scripted []) (points sample_route) 2)%Q
    /\ (2%nat = 0%nat -> (d == 0)%Q)
    /\ (3%nat = length (points sample_route) -> (d == route_length (env := scripted []) (points sample_route))%Q).
Proof.
  apply (calculate_distance_on_route_is_prefix_sum (env := scripted []) sample_route {| lat := 1; lon := 1 |} 2).
  - reflexivity.
  - simpl. lia.
Defined.

(** ** Deduplication *)

Section Grouping.
Import OverpassClient.

Lemma of_type_app (c : string) (l1 l2 : list POI) :
  of_type c (l1 ++ l2) = of_type c l1 ++ of_type c l2.
Proof. unfold of_type. apply filter_app. Qed.

Lemma of_type_all (c : string) (l : list POI) :
  Forall (fun p => poi_type p = c) l -> of_type c l = l.
Proof.
  unfold of_type. induction 1 as [|p l Hp _ IH]; [reflexivity|].
  rewrite filter_cons_True by exact Hp. by rewrite IH.
Qed.

Lemma of_type_none (c : string) (l : list POI) :
  Forall (fun p => poi_type p <> c) l -> of_type c l = [].
Proof.
  unfold of_type. induction 1 as [|p l Hp _ IH]; [reflexivity|].
  rewrite filter_cons_False by exact Hp. exact IH.
Qed.

Lemma group_of_add (c : string) (p : POI) (g : list (string * list POI)) :
  group_of c (group_add p g) = group_of c g ++ of_type c [p].
Proof.
  induction g as [|[k ps] g IH]; simpl.
  - unfold of_type. destruct (String.eqb (poi_type p) c) eqn:E.
    + apply String.eqb_eq in E. by rewrite filter_cons_True.
    + apply String.eqb_neq in E. by rewrite filter_cons_False.
  - destruct (String.eqb k (poi_type p)) eqn:E; simpl.
    + apply String.eqb_eq in E. subst k.
      destruct (String.eqb (poi_type p) c) eqn:E'.
      * apply String.eqb_eq in E'. unfold of_type. by rewrite filter_cons_True.
      * apply String.eqb_neq in E'. unfold of_type.
        rewrite filter_cons_False by exact E'. simpl. by rewrite app_nil_r.
    + destruct (String.eqb k c) eqn:Ec; [|exact IH].
      apply String.eqb_neq in E. apply String.eqb_eq in Ec. subst k.
      unfold of_type. rewrite filter_cons_False by congruence. simpl. by rewrite app_nil_r.
Qed.

Lemma group_of_fold (c : string) (pois : list POI) (g : list (string * list POI)) :
  group_of c (fold_left (fun acc poi => group_add poi acc) pois g) = group_of c g ++ of_type c pois.
Proof.
  revert g. induction pois as [|p pois IH]; intros g; simpl.
  - by rewrite app_nil_r.
  - rewrite IH, group_of_add, <- app_assoc. f_equal.
    change (p :: pois) with ([p] ++ pois). by rewrite of_type_app.
Qed.

Lemma group_of_group_by_type (c : string) (pois : list POI) :
  group_of c (group_by_type pois) = of_type c pois.
Proof. unfold group_by_type. by rewrite group_of_fold. Qed.

Lemma group_add_keys (p : POI) (g : list (string * list POI)) (k : string) :
  k ∈ map fst (group_add p g) -> k = poi_type p \/ k ∈ map fst g.
Proof.
  induction g as [|[k' ps] g IH]; simpl.
  - intros Hk. apply list_elem_of_singleton in Hk. by left.
  - destruct (String.eqb k' (poi_type p)); simpl; intros Hk.
    + by right.
    + apply elem_of_cons in Hk as [->|Hk]; [right; left|].
      destruct (IH Hk) as [->|?]; [by left|right; by right].
Qed.

Lemma grouped_add (p : POI) (g : list (string * list POI)) :
  grouped g -> grouped (group_add p g).
Proof.
  intros [Hnd Hty]. induction g as [|[k ps] g IH]; simpl.
  - split; [apply NoDup_singleton|]. repeat constructor.
  - apply NoDup_cons in Hnd as [Hk Hnd]. apply Forall_cons in Hty as [Hps Hty].
    destruct (String.eqb k (poi_type p)) eqn:E.
    + apply String.eqb_eq in E. split; simpl.
      * apply NoDup_cons. by split.
      * constructor; [|exact Hty]. simpl in *. apply Forall_app. split; [exact Hps|].
        constructor; [by symmetry|constructor].
    + apply String.eqb_neq in E. destruct (IH Hnd Hty) as [Hnd' Hty']. split; simpl.
      * apply NoDup_cons. split; [|exact Hnd'].
        intros Hin. apply group_add_keys in Hin as [->|Hin]; [by apply E|by apply Hk].
      * constructor; [exact Hps|exact Hty'].
Qed.

Lemma grouped_group_by_type (pois : list POI) : grouped (group_by_type pois).
Proof.
  unfold group_by_type.
  assert (Hg : grouped []) by (split; constructor).
  revert Hg. generalize (@nil (string * list POI)).
  induction pois as [|p pois IH]; intros g Hg; simpl; [exact Hg|].
  apply IH. by apply grouped_add.
Qed.

End Grouping.

Section SortFacts.
Context {A K : Type} (lt : K -> K -> bool) (key : A -> K).

Lemma insert_by_perm (x : A) (l : list A) : insert_by lt key x l ≡ₚ x :: l.
Proof.
  induction l as [|y l IH]; simpl; [reflexivity|].
  destruct (lt (key y) (key x)); [|reflexivity].
  rewrite IH. apply Permutation_swap.
Qed.

Lemma sort_by_perm (l : list A) : sort_by lt key l ≡ₚ l.
Proof.
  induction l as [|x l IH]; simpl; [reflexivity|].
  rewrite insert_by_perm. by rewrite IH.
Qed.

Lemma sort_by_elem (x : A) (l : list A) : x ∈ sort_by lt key l <-> x ∈ l.
Proof. by rewrite sort_by_perm. Qed.

(** No element is smaller than one that stands before it, when [lt] is a
    strict weak order. *)
Hypothesis lt_asym : forall a b, lt a b = true -> lt b a = false.
Hypothesis lt_negtrans : forall a b c, lt a b = false -> lt b c = false -> lt a c = false.

Lemma insert_by_sorted (x : A) (l : list A) :
  ForallOrdPairs (fun a b => lt (key b) (key a) = false) l ->
  ForallOrdPairs (fun a b => lt (key b) (key a) = false) (insert_by lt key x l).
Proof.
  induction 1 as [|y l Hy Hl IH]; simpl.
  - constructor; constructor.
  - destruct (lt (key y) (key x)) eqn:E.
    + constructor; [|exact IH].
      rewrite (insert_by_perm x l). constructor; [by apply lt_asym|exact Hy].
    + constructor; [|by constructor].
      constructor; [exact E|].
      eapply Forall_impl; [exact Hy|]. intros z Hz. simpl in Hz.
      by apply (lt_negtrans _ (key y)).
Qed.

Lemma sort_by_sorted (l : list A) :
  ForallOrdPairs (fun a b => lt (key b) (key a) = false) (sort_by lt key l).
Proof.
  induction l as [|x l IH]; simpl; [constructor|]. by apply insert_by_sorted.
Qed.

End SortFacts.

Lemma FOP_lookup {A} (R : A -> A -> Prop) (l : list A) :
  ForallOrdPairs R l ->
  forall i j x y, (i < j)%nat -> l !! i = Some x -> l !! j = Some y -> R x y.
Proof.
  induction 1 as [|a l Ha Hl IH]; intros i j x y Hij Hi Hj; [by destruct i|].
  destruct j as [|j]; [lia|]. simpl in Hj.
  destruct i as [|i]; simpl in Hi.
  - injection Hi as ->. rewrite Forall_forall in Ha. apply Ha.
    by eapply list_elem_of_lookup_2.
  - eapply (IH i j); [lia|done..].
Qed.

Lemma sort_on_route_sorted (l : list POI) :
  sorted_on_route (sort_by Qltb distance_on_route l).
Proof.
  assert (Hs : ForallOrdPairs (fun a b => Qltb (distance_on_route b) (distance_on_route a) = false)
                 (sort_by Qltb distance_on_route l)).
  { apply sort_by_sorted; unfold Qltb; intros a b.
    - destruct (Qlt_le_dec a b), (Qlt_le_dec b a); try done. exfalso. lra.
    - intros c. destruct (Qlt_le_dec a b), (Qlt_le_dec b c), (Qlt_le_dec a c); try done. exfalso. lra. }
  intros i j p q Hij Hp Hq.
  pose proof (FOP_lookup _ _ Hs i j p q Hij Hp Hq) as Hle. simpl in Hle.
  unfold Qltb in Hle. by destruct (Qlt_le_dec (distance_on_route q) (distance_on_route p)).
Qed.

Lemma FOP_snoc {A} (R : A -> A -> Prop) (l : list A) (x : A) :
  ForallOrdPairs R l -> Forall (fun y => R y x) l -> ForallOrdPairs R (l ++ [x]).
Proof.
  induction 1 as [|a l Ha Hl IH]; intros Hx; simpl.
  - constructor; constructor.
  - apply Forall_cons in Hx as [Hax Hx]. constructor; [|by apply IH].
    apply Forall_app. split; [exact Ha|]. by constructor.
Qed.

Lemma FOP_filter {A} (R : A -> A -> Prop) (P : A -> Prop) `{forall x, Decision (P x)} (l : list A) :
  ForallOrdPairs R (filter P l) ->
  ForallOrdPairs (fun x y => P x -> P y -> R x y) l.
Proof.
  induction l as [|a l IH]; intros Hf; [constructor|].
  destruct (decide (P a)) as [Ha|Ha].
  - rewrite filter_cons_True in Hf by exact Ha. inversion Hf as [|? ? Hal Hl]; subst.
    constructor; [|by apply IH].
    apply Forall_forall. intros y Hy _ Py.
    rewrite Forall_forall in Hal. apply Hal. by apply list_elem_of_filter.
  - rewrite filter_cons_False in Hf by exact Ha.
    constructor; [|by apply IH]. apply Forall_forall. by intros y _ Pa.
Qed.

Section KeepLoop.
Context {env : Env}.
Import OverpassClient.

Lemma too_close_false (R : Q) (poi : POI) (kept : list POI) :
  too_close R poi kept = false -> Forall (fun k => (R <= poi_distance poi k)%Q) kept.
Proof.
  unfold too_close. induction kept as [|k kept IH]; simpl; [constructor|].
  intros Hor. apply orb_false_iff in Hor as [Hk Hrest].
  constructor; [|by apply IH].
  unfold Qltb in Hk. unfold poi_distance. by destruct (Qlt_le_dec _ R).
Qed.

Lemma too_close_true (R : Q) (poi : POI) (kept : list POI) :
  too_close R poi kept = true -> exists k, k ∈ kept /\ (poi_distance poi k < R)%Q.
Proof.
  unfold too_close. induction kept as [|k kept IH]; simpl; [done|].
  intros Hor. apply orb_true_iff in Hor as [Hk|Hrest].
  - exists k. split; [left|]. unfold Qltb in Hk. unfold poi_distance.
    by destruct (Qlt_le_dec _ R).
  - destruct (IH Hrest) as [k' [Hin Hlt]]. exists k'. split; [by right|exact Hlt].
Qed.

Lemma keep_fold_mono (R : Q) (l acc : list POI) (x : POI) :
  x ∈ acc -> x ∈ fold_left (keep_step R) l acc.
Proof.
  revert acc. induction l as [|p l IH]; intros acc Hx; simpl; [exact Hx|].
  apply IH. unfold keep_step. destruct (too_close R p acc); [exact Hx|].
  apply elem_of_app. by left.
Qed.

Lemma keep_fold_subset (R : Q) (l acc : list POI) (x : POI) :
  x ∈ fold_left (keep_step R) l acc -> x ∈ acc \/ x ∈ l.
Proof.
  revert acc. induction l as [|p l IH]; intros acc Hx; simpl in *; [by left|].
  destruct (IH _ Hx) as [Hacc|Hl]; [|right; by right].
  unfold keep_step in Hacc. destruct (too_close R p acc); [by left|].
  apply elem_of_app in Hacc as [?|Hp]; [by left|].
  apply list_elem_of_singleton in Hp as ->. right. left.
Qed.

(** Every retained POI is at least the radius away from every POI
    retained before it. *)
Lemma keep_fold_separated (R : Q) (l acc : list POI) :
  ForallOrdPairs (fun p q => (R <= poi_distance q p)%Q) acc ->
  ForallOrdPairs (fun p q => (R <= poi_distance q p)%Q) (fold_left (keep_step R) l acc).
Proof.
  revert acc. induction l as [|p l IH]; intros acc Hacc; simpl; [exact Hacc|].
  apply IH. unfold keep_step. destruct (too_close R p acc) eqn:E; [exact Hacc|].
  apply FOP_snoc; [exact Hacc|]. by apply too_close_false.
Qed.

(** Every POI that is dropped is within the radius of a retained one. *)
Lemma keep_fold_cover (R : Q) (l acc : list POI) (x : POI) :
  x ∈ l ->
  x ∈ fold_left (keep_step R) l acc
  \/ exists q, q ∈ fold_left (keep_step R) l acc /\ (poi_distance x q < R)%Q.
Proof.
  revert acc. induction l as [|p l IH]; intros acc Hx; [by apply elem_of_nil in Hx|].
  simpl. apply elem_of_cons in Hx as [->|Hx]; [|by apply IH].
  unfold keep_step at 2 4. destruct (too_close R p acc) eqn:E.
  - right. destruct (too_close_true _ _ _ E) as [k [Hk Hlt]].
    exists k. split; [by apply keep_fold_mono|exact Hlt].
  - left. apply keep_fold_mono. apply elem_of_app. right. left.
Qed.

Lemma dedup_group_subset (r : Q) (s : option (gmap string poi_setting)) (c : string) (ps : list POI) (x : POI) :
  x ∈ dedup_group r s c ps -> x ∈ ps.
Proof.
  unfold dedup_group, keep_loop. case_bool_decide; [|done].
  intros Hx. apply keep_fold_subset in Hx as [Hx|Hx]; [by apply elem_of_nil in Hx|].
  by apply sort_by_elem in Hx.
Qed.

Lemma dedup_group_nil (r : Q) (s : option (gmap string poi_setting)) (c : string) :
  dedup_group r s c [] = [].
Proof. unfold dedup_group. by case_bool_decide. Qed.

(** The POIs of a category in the result are what the category's own
    POIs give: no other category takes part. *)
Lemma of_type_groups (r : Q) (s : option (gmap string poi_setting)) (c : string) (g : list (string * list POI)) :
  grouped g ->
  of_type c (concat (map (fun '(poi_type, type_pois) => dedup_group r s poi_type type_pois) g))
  = dedup_group r s c (group_of c g).
Proof.
  intros [Hnd Hty]. induction g as [|[k ps] g IH]; simpl.
  - by rewrite dedup_group_nil.
  - apply NoDup_cons in Hnd as [Hk Hnd]. apply Forall_cons in Hty as [Hps Hty]. simpl in *.
    rewrite of_type_app, (IH Hnd Hty).
    assert (Hsub : Forall (fun p => poi_type p = k) (dedup_group r s k ps)).
    { apply Forall_forall. intros x Hx. apply dedup_group_subset in Hx.
      rewrite Forall_forall in Hps. by apply Hps. }
    destruct (String.eqb k c) eqn:E.
    + apply String.eqb_eq in E. subst k. rewrite (of_type_all _ _ Hsub).
      assert (Hnone : group_of c g = []).
      { clear -Hk. induction g as [|[k' ps'] g IH]; simpl; [done|].
        destruct (String.eqb k' c) eqn:E'.
        - apply String.eqb_eq in E'. subst k'. exfalso. apply Hk. left.
        - apply IH. intros Hin. apply Hk. by right. }
      by rewrite Hnone, dedup_group_nil, app_nil_r.
    + apply String.eqb_neq in E. rewrite of_type_none; [done|].
      eapply Forall_impl; [exact Hsub|]. simpl. congruence.
Qed.

Lemma dedup_of_type (pois : list POI) (r : Q) (s : option (gmap string poi_setting)) (c : string) :
  of_type c (deduplicate_pois pois r s) = dedup_group r s c (of_type c pois).
Proof.
  unfold deduplicate_pois.
  rewrite of_type_groups by apply grouped_group_by_type.
  by rewrite group_of_group_by_type.
Qed.

End KeepLoop.

Section DedupClaims.
Context {env : Env}.
Import OverpassClient.

Lemma dedup_group_single (r : Q) (s : option (gmap string poi_setting)) (c : string) (x : POI) :
  dedup_group r s c [x] = [x].
Proof. unfold dedup_group. by case_bool_decide. Qed.

Lemma dedup_two_types (a b : POI) (r : Q) (s : option (gmap string poi_setting)) :
  poi_type a <> poi_type b -> deduplicate_pois [a; b] r s = [a; b].
Proof.
  intros Hne. unfold deduplicate_pois, group_by_type. simpl.
  apply String.eqb_neq in Hne. rewrite Hne. simpl.
  by rewrite !dedup_group_single.
Qed.

(** In the result, a POI of an eligible category is at least the
    category's radius away from every POI of that category before it. *)
Lemma dedup_separated (pois : list POI) (r : Q) (s : option (gmap string poi_setting)) (c : string) :
  c ∈ deduplicate_types ->
  ForallOrdPairs (fun p q => poi_type p = c -> poi_type q = c ->
                             (dedup_radius r s c <= poi_distance q p)%Q)
                 (deduplicate_pois pois r s).
Proof.
  intros Hc. apply (FOP_filter _ (fun p => poi_type p = c)).
  fold (of_type c (deduplicate_pois pois r s)). rewrite dedup_of_type.
  unfold dedup_group. rewrite bool_decide_eq_true_2 by exact Hc.
  apply keep_fold_separated. constructor.
Qed.

(** C2: two retained POIs of one eligible category are not closer to each
    other than the category's radius (the distance is taken from the later
    to the earlier one, as the scan does; both ways when the distance is
    symmetric); the POIs retained of a category depend on the POIs of that
    category alone; two POIs of different categories are both retained. *)
Theorem deduplicate_pois_separates_within_category (pois : list POI) (r : Q) (s : option (gmap string poi_setting)) :
  (forall i j p q,
      (i < j)%nat ->
      deduplicate_pois pois r s !! i = Some p ->
      deduplicate_pois pois r s !! j = Some q ->
      poi_type p = poi_type q -> poi_type p ∈ deduplicate_types ->
      (dedup_radius r s (poi_type p) <= poi_distance q p)%Q
      /\ ((forall x y, haversine x y = haversine y x) ->
          (dedup_radius r s (poi_type p) <= poi_distance p q)%Q))
  /\ (forall c, of_type c (deduplicate_pois pois r s) = dedup_group r s c (of_type c pois))
  /\ (forall a b, poi_type a <> poi_type b -> deduplicate_pois [a; b] r s = [a; b]).
Proof.
  split; [|split].
  - intros i j p q Hij Hp Hq Hpq Hel.
    pose proof (FOP_lookup _ _ (dedup_separated pois r s (poi_type p) Hel) i j p q Hij Hp Hq) as Hsep.
    simpl in Hsep. specialize (Hsep eq_refl (eq_sym Hpq)).
    split; [exact Hsep|]. intros Hsym. unfold poi_distance in *. by rewrite Hsym.
  - intros c. apply dedup_of_type.
  - intros a b. apply dedup_two_types.
Qed.

(** A toilet and a bakery 0.2 km apart, with a radius of 1 km. *)
Example dedup_keeps_other_category :
  deduplicate_pois [toilet_1; bakery_1] 1 None = [toilet_1; bakery_1].
Proof. by apply dedup_two_types. Qed.

End DedupClaims.

Section Eligibility.
Context {env : Env}.
Import OverpassClient.

Lemma configured_types (c : string) :
  in_config c = true ->
  c ∈ deduplicate_types \/ c = "bicycle_vending" \/ c = "vending_machines".
Proof.
  unfold in_config, POI_TYPE_CONFIG. cbn [config_get].
  repeat (destruct (String.eqb _ c) eqn:?E;
          [ apply String.eqb_eq in E; subst c; intros _;
            first [ left; vm_compute; reflexivity
                  | right; left; reflexivity
                  | right; right; reflexivity ]
          | clear E ]).
  discriminate.
Qed.

Lemma not_eligible_vending :
  ("bicycle_vending" ∉ deduplicate_types) /\ ("vending_machines" ∉ deduplicate_types).
Proof. split; vm_compute; discriminate. Qed.

(** C4, as the code has it: the eight categories of [deduplicate_types]
    are subject to the radius rule: no two retained POIs of such a
    category are closer to each other than the category's radius (the
    distance is taken from the later to the earlier one, as the scan
    does), and a POI of such a category that is not retained lies within
    the category's radius of a retained POI of that category. The POIs of
    every other category are passed through unchanged, in their order; of
    the configured categories the others are [bicycle_vending] and
    [vending_machines]. *)
Theorem deduplicate_pois_eligible_categories (pois : list POI) (r : Q) (s : option (gmap string poi_setting)) (c : string) :
  (c ∈ deduplicate_types ->
     (forall i j p q,
        (i < j)%nat ->
        deduplicate_pois pois r s !! i = Some p ->
        deduplicate_pois pois r s !! j = Some q ->
        poi_type p = c -> poi_type q = c ->
        (dedup_radius r s c <= poi_distance q p)%Q)
     /\ (forall x, x ∈ pois -> poi_type x = c ->
           x ∈ deduplicate_pois pois r s
           \/ exists q, q ∈ deduplicate_pois pois r s /\ poi_type q = c
                        /\ (poi_distance x q < dedup_radius r s c)%Q))
  /\ ((c ∉ deduplicate_types) -> of_type c (deduplicate_pois pois r s) = of_type c pois)
  /\ (in_config c = true ->
        ((c ∉ deduplicate_types) <-> c = "bicycle_vending" \/ c = "vending_machines")).
Proof.
  split; [|split].
  - intros Hc. split.
    { intros i j p q Hij Hp Hq Hpc Hqc.
      pose proof (FOP_lookup _ _ (dedup_separated pois r s c Hc) i j p q Hij Hp Hq) as Hsep.
      simpl in Hsep. by apply Hsep. }
    intros x Hx Hty.
    assert (Hxc : x ∈ sort_by key_lt sort_key (of_type c pois)).
    { apply sort_by_elem. unfold of_type. by apply list_elem_of_filter. }
    pose proof (dedup_of_type pois r s c) as Heq.
    unfold dedup_group in Heq. rewrite bool_decide_eq_true_2 in Heq by exact Hc.
    unfold keep_loop in Heq.
    destruct (keep_fold_cover (dedup_radius r s c) _ [] x Hxc) as [Hin|[q [Hq Hlt]]].
    + left. rewrite <- Heq in Hin. unfold of_type in Hin.
      by apply list_elem_of_filter in Hin as [_ ?].
    + right. rewrite <- Heq in Hq. unfold of_type in Hq.
      apply list_elem_of_filter in Hq as [Hqc Hq]. by exists q.
  - intros Hc. rewrite dedup_of_type. unfold dedup_group.
    by rewrite bool_decide_eq_false_2.
  - intros Hcfg. destruct not_eligible_vending as [Hb Hv]. split.
    + intros Hn. destruct (configured_types c Hcfg) as [?|?]; done.
    + by intros [-> | ->].
Qed.

End Eligibility.

(** C4, as the specification words it, fails: two bicycle vending
    stations at one place, with a radius of 1 km, are both retained. *)
Lemma bicycle_vending_not_deduplicated :
  in_config (poi_type bike_vending_1) = true
  /\ poi_type bike_vending_1 = poi_type bike_vending_2
  /\ (poi_distance (env := scripted []) bike_vending_2 bike_vending_1 < 1)%Q
  /\ OverpassClient.deduplicate_pois (env := scripted []) [bike_vending_1; bike_vending_2] 1 None
     = [bike_vending_1; bike_vending_2].
Proof. repeat split; vm_compute; reflexivity. Qed.

Section PairClaim.
Context {env : Env}.
Import OverpassClient.

Lemma bool_compare_lt (x y : bool) : bool_compare (negb x) (negb y) = Lt <-> wins x y.
Proof. unfold wins. destruct x, y; simpl; intuition congruence. Qed.

Lemma bool_compare_eq (x y : bool) : bool_compare (negb x) (negb y) = Eq <-> x = y.
Proof. destruct x, y; simpl; intuition congruence. Qed.

Lemma lex_lt (c1 c2 : comparison) : lex c1 c2 = Lt <-> c1 = Lt \/ (c1 = Eq /\ c2 = Lt).
Proof. destruct c1; simpl; intuition congruence. Qed.

Lemma neg_compare_lt (x y : Q) : ((- x ?= - y) = Lt)%Q <-> (y < x)%Q.
Proof. rewrite <- Qlt_alt. split; intros; lra. Qed.

Lemma neg_compare_eq (x y : Q) : ((- x ?= - y) = Eq)%Q <-> (x == y)%Q.
Proof. rewrite <- Qeq_alt. split; intros; lra. Qed.

(** The sort key puts [a] strictly before [b] exactly when the
    specification prefers [a] to [b]. *)
Lemma key_lt_preferred (a b : POI) :
  key_lt (sort_key a) (sort_key b) = true <-> preferred a b.
Proof.
  unfold key_lt, preferred.
  assert (Hlt : forall c, match c with Lt => true | _ => false end = true <-> c = Lt)
    by (intros []; intuition congruence).
  rewrite Hlt. unfold key_compare, sort_key.
  rewrite !lex_lt.
  rewrite neg_compare_lt, neg_compare_eq, <- Qlt_alt, <- Qeq_alt.
  rewrite !bool_compare_lt, !bool_compare_eq.
  unfold hours, branded, documented, has_url, named.
  intuition.
Qed.

Lemma key_compare_antisym (x y : sort_key_t) : key_compare y x = CompOpp (key_compare x y).
Proof.
  destruct x as [[[[[x1 x2] x3] x4] x5] x6], y as [[[[[y1 y2] y3] y4] y5] y6].
  unfold key_compare.
  rewrite <- (Qcompare_antisym x1 y1), <- (Qcompare_antisym x2 y2).
  destruct (x1 ?= y1)%Q, (x2 ?= y2)%Q; simpl; try reflexivity;
    destruct x3, y3; simpl; try reflexivity;
    destruct x4, y4; simpl; try reflexivity;
    destruct x5, y5; simpl; try reflexivity;
    destruct x6, y6; reflexivity.
Qed.

Lemma preferred_asym (a b : POI) : preferred a b -> ~ preferred b a.
Proof.
  rewrite <- !key_lt_preferred. unfold key_lt.
  rewrite (key_compare_antisym (sort_key a) (sort_key b)).
  destruct (key_compare (sort_key a) (sort_key b)); simpl; congruence.
Qed.

(** What [deduplicate_pois] returns for two POIs of one eligible category
    that are within the radius of each other. *)
Lemma dedup_pair (a b : POI) (r : Q) (s : option (gmap string poi_setting)) :
  poi_type a = poi_type b ->
  poi_type a ∈ deduplicate_types ->
  (poi_distance a b < dedup_radius r s (poi_type a))%Q ->
  (poi_distance b a < dedup_radius r s (poi_type a))%Q ->
  deduplicate_pois [a; b] r s = if key_lt (sort_key b) (sort_key a) then [b] else [a].
Proof.
  intros Hty Hel Hab Hba. unfold deduplicate_pois, group_by_type. simpl.
  rewrite Hty, String.eqb_refl. simpl. rewrite app_nil_r.
  unfold dedup_group. rewrite <- Hty, bool_decide_eq_true_2 by exact Hel.
  unfold sort_by. simpl.
  assert (Hclose : forall x y, (poi_distance x y < dedup_radius r s (poi_type a))%Q ->
                     keep_loop (dedup_radius r s (poi_type a)) [y; x] = [y]).
  { intros x y Hxy. unfold keep_loop. simpl. unfold keep_step at 2. simpl.
    unfold keep_step, too_close. simpl. fold (poi_distance x y).
    unfold Qltb. destruct (Qlt_le_dec _ _) as [_|Hle]; [reflexivity|]. exfalso. lra. }
  destruct (key_lt (sort_key b) (sort_key a)); by apply Hclose.
Qed.

(** C1, for a category that is deduplicated: of two POIs of the category
    that are within its radius of each other exactly one is retained, the
    one the order of preference puts first, and the first of the input
    when the order does not tell them apart. *)
Theorem deduplicate_pois_pair_keeps_preferred (a b : POI) (r : Q) (s : option (gmap string poi_setting)) :
  poi_type a = poi_type b ->
  poi_type a ∈ deduplicate_types ->
  (poi_distance a b < dedup_radius r s (poi_type a))%Q ->
  (poi_distance b a < dedup_radius r s (poi_type a))%Q ->
  (deduplicate_pois [a; b] r s = [a] \/ deduplicate_pois [a; b] r s = [b])
  /\ (preferred a b -> deduplicate_pois [a; b] r s = [a])
  /\ (preferred b a -> deduplicate_pois [a; b] r s = [b])
  /\ (~ preferred a b -> ~ preferred b a -> deduplicate_pois [a; b] r s = [a]).
Proof.
  intros Hty Hel Hab Hba. rewrite (dedup_pair a b r s Hty Hel Hab Hba).
  pose proof (key_lt_preferred b a) as Hk.
  destruct (key_lt (sort_key b) (sort_key a)) eqn:E.
  - assert (Hp : preferred b a) by (by apply Hk).
    split; [by right|]. split; [|split]; try done.
    intros Hpa. by destruct (preferred_asym a b Hpa).
  - assert (Hp : ~ preferred b a) by (intros Hp; apply Hk in Hp; congruence).
    split; [by left|]. split; [done|]. split; [|done].
    intros Hpb. by destruct Hp.
Qed.

End PairClaim.

(** The toilets of the unit tests: equally far from the route, and the
    one that is open around the clock is retained. *)
Lemma deduplicate_pois_pair_witness :
  (OverpassClient.deduplicate_pois (env := scripted []) [toilet_2; toilet_1] 1 None = [toilet_2]
   \/ OverpassClient.deduplicate_pois (env := scripted []) [toilet_2; toilet_1] 1 None = [toilet_1])
  /\ (preferred toilet_2 toilet_1 ->
      OverpassClient.deduplicate_pois (env := scripted []) [toilet_2; toilet_1] 1 None = [toilet_2])
  /\ (preferred toilet_1 toilet_2 ->
      OverpassClient.deduplicate_pois (env := scripted []) [toilet_2; toilet_1] 1 None = [toilet_1])
  /\ (~ preferred toilet_2 toilet_1 -> ~ preferred toilet_1 toilet_2 ->
      OverpassClient.deduplicate_pois (env := scripted []) [toilet_2; toilet_1] 1 None = [toilet_2]).
Proof.
  apply (deduplicate_pois_pair_keeps_preferred (env := scripted []) toilet_2 toilet_1 1 None).
  - reflexivity.
  - vm_compute. reflexivity.
  - vm_compute. reflexivity.
  - vm_compute. reflexivity.
Defined.

Example toilet_open_longer_is_kept :
  preferred toilet_1 toilet_2
  /\ OverpassClient.deduplicate_pois (env := scripted []) [toilet_2; toilet_1] 1 None = [toilet_1].
Proof.
  split; [|vm_compute; reflexivity].
  right. split; [reflexivity|]. left. vm_compute. reflexivity.
Qed.

(** The hours that the order compares are the rounded ones: 09:20 to
    17:20 on five days comes to 39.99999999999999 hours (20 / 60.0 is
    not a binary64 number), less than the 40 hours of 09:00 to 17:00. So
    of the two bakeries the one without a brand is retained. *)
Example rounded_hours_decide :
  (hours bakery_branded == 5629499534213119 # 140737488355328)%Q
  /\ (hours bakery_plain == 40)%Q
  /\ preferred bakery_plain bakery_branded
  /\ OverpassClient.deduplicate_pois (env := scripted []) [bakery_branded; bakery_plain] 1 None
     = [bakery_plain].
Proof.
  split; [vm_compute; reflexivity|]. split; [vm_compute; reflexivity|].
  split; [|vm_compute; reflexivity].
  right. split; [reflexivity|]. left. vm_compute. reflexivity.
Qed.

(** C1, as the specification words it, fails for a category that is not
    deduplicated: two vending machines at one place, one of them closer
    to the route, are both retained. *)
Lemma vending_machines_pair_both_kept :
  in_config (poi_type vending_1) = true
  /\ poi_type vending_1 = poi_type vending_2
  /\ (poi_distance (env := scripted []) vending_1 vending_2 < 1)%Q
  /\ (distance_to_route vending_2 < distance_to_route vending_1)%Q
  /\ OverpassClient.deduplicate_pois (env := scripted []) [vending_1; vending_2] 1 None
     = [vending_1; vending_2].
Proof. repeat split; vm_compute; reflexivity. Qed.

(** ** [filter_pois] *)

Section FilterClaims.
Context {env : Env}.
Import OverpassClient.

Lemma default_name_nonempty (ty : string) (config : poi_type_config) :
  config_get ty POI_TYPE_CONFIG = Some config -> truthy_str (default_name config) = true.
Proof.
  unfold POI_TYPE_CONFIG. cbn [config_get].
  repeat (destruct (String.eqb _ ty); [intros [= <-]; reflexivity|]).
  discriminate.
Qed.

Lemma name_or_default_nonempty (n : option string) (d : string) :
  truthy_str d = true -> truthy_str (name_or_default n d) = true.
Proof.
  intros Hd. unfold name_or_default. destruct n as [n|]; [|exact Hd].
  by destruct (truthy_str n) eqn:E.
Qed.

Lemma element_poi_built (self : t) (config : poi_type_config) (ty : string) (max_km : Q) (e : element) (la lo : Q) (p : POI) :
  element_poi self (default_name config) ty max_km e la lo = Ok (Some p) ->
  built_from ty config max_km e p.
Proof.
  unfold element_poi. intros Hp.
  destruct (RouteCalculator.find_nearest_route_point_index _ _) as [i|]; simpl in Hp; [|done].
  destruct (RouteCalculator.getitem _ i) as [nearest|]; simpl in Hp; [|done].
  destruct (Qleb _ max_km) eqn:Hle; [|done].
  destruct (RouteCalculator.calculate_distance_on_route _ nearest) as [along|]; simpl in Hp; [|done].
  unfold element_tags in Hp. unfold built_from, tag.
  destruct (el_tags e) as [| |tags]; simpl in Hp; [|done|];
    (destruct (if String.eqb ty "camping_hotels" then _ else _) as [price|]; simpl in Hp; [|done]);
    injection Hp as <-; simpl;
    (split; [reflexivity|]; split; [reflexivity|]);
    unfold Qleb in Hle; by apply Qle_bool_iff.
Qed.

(** The elements that the loop iterates over are the entries of the
    reply. *)
Lemma get_elements_entries (data : overpass_data) (els : list (option element)) (e : element) :
  get_elements data = Ok els -> Some e ∈ els -> e ∈ entries data.
Proof.
  unfold get_elements, entries. destruct data as [|[| |l]]; intros [= <-] He.
  - by apply elem_of_nil in He.
  - apply list_elem_of_omap. by exists (Some e).
Qed.

Lemma get_elements_length (data : overpass_data) (els : list (option element)) :
  get_elements data = Ok els -> Forall is_Some els -> length els = length (entries data).
Proof.
  unfold get_elements, entries. destruct data as [|[| |l]]; intros [= <-] Hall; [done|].
  induction Hall as [|[x|] l [y Hy] _ IH]; simpl; [done| |done]. by rewrite IH.
Qed.

Lemma filter_loop_built (self : t) (config : poi_type_config) (ty : string) (max_km : Q) (all : list element) (els : list (option element)) (acc pois : list POI) :
  (forall e, Some e ∈ els -> e ∈ all) ->
  filter_loop self (default_name config) ty max_km els acc = Ok pois ->
  Forall (fun p => exists e, e ∈ all /\ built_from ty config max_km e p) acc ->
  Forall (fun p => exists e, e ∈ all /\ built_from ty config max_km e p) pois.
Proof.
  revert acc. induction els as [|[e|] els IH]; intros acc Hsub Hrun Hacc; simpl in Hrun.
  - by injection Hrun as <-.
  - assert (Hsub' : forall e', Some e' ∈ els -> e' ∈ all) by (intros e' He'; apply Hsub; by right).
    destruct (element_coords e) as [[[la|] [lo|]]|]; try done; try (by eapply IH).
    destruct (element_poi self (default_name config) ty max_km e la lo) as [[p|]|ex] eqn:Hp.
    + eapply IH; [exact Hsub'|exact Hrun|].
      apply Forall_app. split; [exact Hacc|]. constructor; [|constructor].
      exists e. split; [apply Hsub; left|]. by eapply element_poi_built.
    + by eapply IH.
    + destruct (skipped ex); [by eapply IH|done].
  - done.
Qed.


End FilterClaims.


(** ** [query_poi_type] *)

Section QueryClaims.
Context {env : Env}.
Import OverpassClient.

Lemma classify_cases (attempt max_retries : nat) (r : reply) :
  match classify attempt max_retries r with
  | Return data => succeeds r data
  | Continue e _ => error_of r = Some e /\ ~ not_retried r
  | Break e => error_of r = Some e
  end.
Proof.
  unfold classify, retry_or_break, error_of, not_retried, succeeds.
  destruct r as [| | |st body]; try (destruct (_ <? _)%nat; by intuition).
  destruct (400 <=? st)%Z eqn:E1; destruct (st <? 600)%Z eqn:E2; simpl;
    try (rewrite bool_decide_eq_false_2 by lia;
         destruct body as [d|]; [exists st; split; [done|lia] | done]).
  rewrite bool_decide_eq_true_2 by lia.
  destruct (st =? 429)%Z eqn:E3.
  - rewrite bool_decide_eq_true_2 by lia. destruct (_ <? _)%nat; split; try done; lia.
  - rewrite bool_decide_eq_false_2 by lia.
    destruct (st =? 400)%Z eqn:E4.
    + by rewrite bool_decide_eq_true_2 by lia.
    + rewrite bool_decide_eq_false_2 by lia.
      destruct (500 <=? st)%Z eqn:E5; simpl.
      * rewrite bool_decide_eq_true_2 by lia. destruct (_ <? _)%nat; split; try done; lia.
      * by rewrite bool_decide_eq_false_2 by lia.
Qed.

Lemma attempt_loop_trace (u ty : string) (box : bbox) (n : nat) (range : list nat) (le : option exn) (tr : trace) :
  exists new, snd (attempt_loop u ty box n range le tr) = tr ++ new
    /\ attempts_trace u ty box range new
         (fst (fst (attempt_loop u ty box n range le tr)))
         le (snd (fst (attempt_loop u ty box n range le tr))).
Proof.
  revert le tr. induction range as [|a range IH]; intros le tr; simpl.
  - exists []. split; [by rewrite app_nil_r|constructor].
  - pose proof (classify_cases a n (requests_post tr u ty box (45 + Z.of_nat a * 15)%Z)) as Hc.
    destruct (classify a n _) as [data|e w|e]; simpl.
    + eexists. split; [reflexivity|]. by constructor.
    + destruct Hc as [He Hr].
      destruct (IH (Some e) ((tr ++ [Post u ty box (45 + Z.of_nat a * 15)%Z
                                       (requests_post tr u ty box (45 + Z.of_nat a * 15)%Z)])
                             ++ [Sleep w])) as [new [Htr Hnew]].
      exists (Post u ty box (45 + Z.of_nat a * 15)%Z
                (requests_post tr u ty box (45 + Z.of_nat a * 15)%Z) :: Sleep w :: new).
      split.
      * rewrite Htr, <- !app_assoc. reflexivity.
      * by econstructor.
    + eexists. split; [reflexivity|]. by constructor.
Qed.

Lemma endpoint_loop_trace (urls : list string) (ty : string) (box : bbox) (n : nat) (le : option exn) (tr : trace) :
  exists new, snd (endpoint_loop urls ty box n le tr) = tr ++ new
    /\ endpoints_trace ty box n urls new (fst (endpoint_loop urls ty box n le tr)) le.
Proof.
  revert le tr. induction urls as [|u urls IH]; intros le tr; simpl.
  - exists []. split; [by rewrite app_nil_r|constructor].
  - destruct (attempt_loop_trace u ty box n (seq 0 n) le tr) as [new [Htr Hnew]].
    destruct (attempt_loop u ty box n (seq 0 n) le tr) as [[[data|] le'] tr']; simpl in *.
    + exists new. split; [exact Htr|]. by econstructor.
    + destruct (IH le' tr') as [rest [Hrest Hres]].
      exists (new ++ rest). split.
      * rewrite Hrest, Htr, app_assoc. reflexivity.
      * by econstructor.
Qed.


Lemma succeeds_no_error (r : reply) (d : overpass_data) : succeeds r d -> error_of r = None.
Proof.
  intros [st [-> Hst]]. unfold error_of. by rewrite bool_decide_eq_false_2.
Qed.

Lemma succeeds_inj (r : reply) (d d' : overpass_data) : succeeds r d -> succeeds r d' -> d = d'.
Proof. intros [st [-> _]] [st' [[= _ ->] _]]. reflexivity. Qed.

Lemma not_retried_no_success (r : reply) (d : overpass_data) : not_retried r -> ~ succeeds r d.
Proof.
  intros Hn [st [-> Hst]]. simpl in Hn. destruct Hn as [->|[_ ?]]; [lia|done].
Qed.

Lemma attempts_no_posts (u ty : string) (box : bbox) range new o le le' :
  attempts_trace u ty box range new o le le' ->
  Forall (fun x => is_post x = false) new -> new = [] /\ o = None /\ le' = le.
Proof.
  destruct 1; intros Hall; try done; by apply Forall_cons in Hall as [? _].
Qed.

Lemma attempts_posts (u ty : string) (box : bbox) range new o le le' :
  attempts_trace u ty box range new o le le' ->
  Forall (fun x => is_post x = false \/ posts_to u x) new.
Proof.
  induction 1 as [| | |a range r e w rest o le le' He Hr Hrest IH].
  - constructor.
  - constructor; [by right|constructor].
  - constructor; [by right|constructor].
  - constructor; [by right|]. constructor; [by left|exact IH].
Qed.

Lemma attempts_first (u ty : string) (box : bbox) range new o le le' :
  attempts_trace u ty box range new o le le' ->
  match range with
  | [] => new = []
  | attempt :: _ => exists r rest, new = Post u ty box (45 + Z.of_nat attempt * 15) r :: rest
  end.
Proof. destruct 1; eauto. Qed.

Lemma attempts_has_post (u ty : string) (box : bbox) range new o le le' :
  attempts_trace u ty box range new o le le' ->
  range <> [] -> exists x, x ∈ new /\ posts_to u x.
Proof.
  destruct 1; intros Hr; try done; eexists; (split; [left|reflexivity]).
Qed.

Lemma attempts_some (u ty : string) (box : bbox) range new o le le' :
  attempts_trace u ty box range new o le le' ->
  forall d, o = Some d ->
  exists pre tm r, new = pre ++ [Post u ty box tm r] /\ succeeds r d.
Proof.
  induction 1 as [| | |a range r e w rest o le le' He Hr Hrest IH]; intros d Hd; try done.
  - injection Hd as <-. by exists [], (45 + Z.of_nat attempt * 15)%Z, r.
  - destruct (IH d Hd) as [pre [tm' [r' [-> Hs]]]].
    by exists (Post u ty box (45 + Z.of_nat a * 15) r :: Sleep w :: pre), tm', r'.
Qed.

(** Where a request stands in the events of one endpoint. *)
Lemma attempts_decomp (u ty : string) (box : bbox) range new o le le' :
  attempts_trace u ty box range new o le le' ->
  forall pre u' t b tm r suf, new = pre ++ Post u' t b tm r :: suf ->
    u' = u
    /\ (not_retried r -> suf = [])
    /\ (forall d, succeeds r d -> suf = [] /\ o = Some d)
    /\ (Forall (fun x => is_post x = false) suf -> o = None -> le' = error_of r /\ is_Some (error_of r)).
Proof.
  induction 1 as [|a range r0 data le Hs|a range r0 e le He
                  |a range r0 e w rest o le le' He Hr Hrest IH];
    intros pre u' t b tm r suf Heq.
  - by destruct pre.
  - destruct pre as [|x [|y pre]]; try done. injection Heq as <- <- <- <- <- <-.
    split; [done|]. split; [done|]. split; [|done].
    intros d Hd. split; [done|]. f_equal. by eapply succeeds_inj.
  - destruct pre as [|x [|y pre]]; try done. injection Heq as <- <- <- <- <- <-.
    split; [done|]. split; [done|]. split.
    + intros d Hd. apply succeeds_no_error in Hd. congruence.
    + intros _ _. rewrite He. split; [done|by eexists].
  - destruct pre as [|x pre].
    + injection Heq as <- <- <- <- <- <-.
      split; [done|]. split; [done|]. split.
      * intros d Hd. apply succeeds_no_error in Hd. congruence.
      * intros Hsuf _. apply Forall_cons in Hsuf as [_ Hsuf].
        destruct (attempts_no_posts _ _ _ _ _ _ _ _ Hrest Hsuf) as [_ [_ ->]].
        rewrite He. split; [done|by eexists].
    + injection Heq as <- Heq. destruct pre as [|y pre]; [done|].
      injection Heq as <- Heq. by eapply IH.
Qed.

Lemma endpoints_posts (ty : string) (box : bbox) (n : nat) urls new res le :
  endpoints_trace ty box n urls new res le ->
  Forall (fun x => is_post x = false \/ exists u, u ∈ urls /\ posts_to u x) new.
Proof.
  induction 1 as [|u urls new data le le' Hat|u urls new rest res le le' Hat Hrest IH].
  - constructor.
  - eapply Forall_impl; [by eapply attempts_posts|]. simpl.
    intros x [?|?]; [by left|right]. exists u. split; [left|done].
  - apply Forall_app. split.
    + eapply Forall_impl; [by eapply attempts_posts|]. simpl.
      intros x [?|?]; [by left|right]. exists u. split; [left|done].
    + eapply Forall_impl; [exact IH|]. simpl.
      intros x [?|[u' [? ?]]]; [by left|right]. exists u'. split; [by right|done].
Qed.

(** The events of a call start with the first attempt, with its timeout
    of 45 seconds, at one of the endpoints. *)
Lemma endpoints_first (ty : string) (box : bbox) (n : nat) urls new res le :
  endpoints_trace ty box n urls new res le ->
  new = [] \/ exists u r rest, u ∈ urls /\ new = Post u ty box 45 r :: rest.
Proof.
  induction 1 as [|u urls new data le le' Hat|u urls new rest res le le' Hat Hrest IH].
  - by left.
  - apply attempts_first in Hat. destruct n as [|n]; simpl in Hat; [by left|].
    destruct Hat as [r [rest ->]]. right. exists u, r, rest. split; [left|done].
  - apply attempts_first in Hat. destruct n as [|n]; simpl in Hat.
    + subst new. simpl. destruct IH as [->|[u' [r [rest' [Hu' ->]]]]]; [by left|].
      right. exists u', r, rest'. split; [by right|done].
    + destruct Hat as [r [rest' ->]]. right. exists u, r, (rest' ++ rest). split; [left|done].
Qed.

Lemma endpoints_no_posts (ty : string) (box : bbox) (n : nat) urls new res le :
  endpoints_trace ty box n urls new res le ->
  Forall (fun x => is_post x = false) new ->
  res = Raise (default (ConnectionError "Failed to query Overpass API after all retry attempts.") le).
Proof.
  induction 1 as [|u urls new data le le' Hat|u urls new rest res le le' Hat Hrest IH];
    intros Hall.
  - reflexivity.
  - by destruct (attempts_no_posts _ _ _ _ _ _ _ _ Hat Hall) as [_ [? _]].
  - apply Forall_app in Hall as [Hnew Hall].
    destruct (attempts_no_posts _ _ _ _ _ _ _ _ Hat Hnew) as [_ [_ ->]]. by apply IH.
Qed.

Lemma endpoints_ok (ty : string) (box : bbox) (n : nat) urls new res le :
  endpoints_trace ty box n urls new res le ->
  forall d, res = Ok d ->
  exists pre u tm r, new = pre ++ [Post u ty box tm r] /\ succeeds r d.
Proof.
  induction 1 as [|u urls new data le le' Hat|u urls new rest res le le' Hat Hrest IH];
    intros d Hd; [done| |].
  - injection Hd as <-.
    destruct (attempts_some _ _ _ _ _ _ _ _ Hat data eq_refl) as [pre [tm [r [-> Hs]]]].
    by exists pre, u, tm, r.
  - destruct (IH d Hd) as [pre [u' [tm [r [-> Hs]]]]].
    exists (new ++ pre), u', tm, r. by rewrite app_assoc.
Qed.

Lemma endpoints_all_tried (ty : string) (box : bbox) (n : nat) urls new res le :
  endpoints_trace ty box n urls new res le ->
  (0 < n)%nat -> forall e, res = Raise e ->
  forall u, u ∈ urls -> exists x, x ∈ new /\ posts_to u x.
Proof.
  induction 1 as [|u urls new data le le' Hat|u urls new rest res le le' Hat Hrest IH];
    intros Hn e He u0 Hu; [by apply elem_of_nil in Hu|done|].
  apply elem_of_cons in Hu as [->|Hu].
  - destruct (attempts_has_post _ _ _ _ _ _ _ _ Hat) as [x [Hx Hp]].
    { destruct n; [lia|done]. }
    exists x. split; [apply elem_of_app; by left|done].
  - destruct (IH Hn e He u0 Hu) as [x [Hx Hp]].
    exists x. split; [apply elem_of_app; by right|done].
Qed.

(** Where a request stands in the events of a call. *)
Lemma endpoints_decomp (ty : string) (box : bbox) (n : nat) urls new res le :
  endpoints_trace ty box n urls new res le -> NoDup urls ->
  forall pre u t b tm r suf, new = pre ++ Post u t b tm r :: suf ->
    (not_retried r ->
       (forall x, x ∈ suf -> ~ posts_to u x)
       /\ (suf = [] \/ exists u' r' rest, u' <> u /\ suf = Post u' ty box 45 r' :: rest))
    /\ (forall d, succeeds r d -> suf = [] /\ res = Ok d)
    /\ (forall e, res = Raise e -> Forall (fun x => is_post x = false) suf ->
          error_of r = Some e).
Proof.
  induction 1 as [|u0 urls new data le le' Hat|u0 urls new rest res le le' Hat Hrest IH];
    intros Hnd pre u t b tm r suf Heq.
  - by destruct pre.
  - destruct (attempts_decomp _ _ _ _ _ _ _ _ Hat _ _ _ _ _ _ _ Heq) as [-> [Hnr [Hs _]]].
    split; [|split].
    + intros Hr. rewrite (Hnr Hr). split; [intros x Hx; by apply elem_of_nil in Hx|by left].
    + intros d Hd. destruct (Hs d Hd) as [-> [= ->]]. done.
    + done.
  - apply NoDup_cons in Hnd as [Hu0 Hnd].
    apply app_eq_inv in Heq as [[k [Hnew Hk]]|[k [Hpre Hk]]].
    + destruct k as [|x k].
      * (* the request is the first event of the later endpoints *)
        simpl in Hk. rewrite app_nil_r in Hnew. subst pre.
        by apply (IH Hnd [] u t b tm r suf).
      * (* the request is one of the attempts at this endpoint *)
        injection Hk as <- Hsuf. subst suf.
        destruct (attempts_decomp _ _ _ _ _ _ _ _ Hat _ _ _ _ _ _ _ Hnew) as [-> [Hnr [Hs Hle]]].
        split; [|split].
        -- intros Hr. rewrite (Hnr Hr). simpl. split.
           ++ intros x Hx Hp.
              pose proof (endpoints_posts _ _ _ _ _ _ _ Hrest) as Hall.
              rewrite Forall_forall in Hall. destruct (Hall x Hx) as [Hnp|[u' [Hu' Hp']]].
              ** destruct x; simpl in *; done.
              ** destruct x; simpl in *; try done. subst. done.
           ++ destruct (endpoints_first _ _ _ _ _ _ _ Hrest) as [->|[u' [r' [rest' [Hu' ->]]]]];
                [by left|right].
              exists u', r', rest'. split; [|done]. intros ->. done.
        -- intros d Hd. by destruct (Hs d Hd) as [_ ?].
        -- intros e He Hsuf. apply Forall_app in Hsuf as [Hk Hrestp].
           destruct (Hle Hk eq_refl) as [Hle' _].
           pose proof (endpoints_no_posts _ _ _ _ _ _ _ Hrest Hrestp) as Hres.
           destruct (attempts_decomp _ _ _ _ _ _ _ _ Hat _ _ _ _ _ _ _ Hnew) as [_ [_ [_ Hle2]]].
           destruct (Hle2 Hk eq_refl) as [_ [e' He']].
           rewrite Hle', He' in Hres. simpl in Hres. rewrite He in Hres.
           injection Hres as ->. exact He'.
    + subst pre. by apply (IH Hnd k u t b tm r suf).
Qed.

Lemma last_post (new : trace) :
  Forall (fun x => is_post x = false) new
  \/ exists pre u t b tm r suf,
       new = pre ++ Post u t b tm r :: suf /\ Forall (fun x => is_post x = false) suf.
Proof.
  induction new as [|x new [IH|[pre [u [t [b [tm [r [suf [-> Hsuf]]]]]]]]]].
  - left. constructor.
  - destruct x as [u t b tm r| | |].
    + right. by exists [], u, t, b, tm, r, new.
    + left. by constructor.
    + left. by constructor.
    + left. by constructor.
  - right. by exists (x :: pre), u, t, b, tm, r, suf.
Qed.

(** C7: in the events [new] of a call of [query_poi_type], a request that
    is answered by a bad request or by a body that is no JSON is followed
    by no further request to its endpoint, and what follows it at once,
    if anything, is the first attempt at another endpoint; a request that
    succeeds is the last event, and its data is returned; when the call
    raises, every endpoint was asked (if attempts are allowed at all) and
    the exception is the error the last reply is classified as; so when
    every reply was a rate-limit reply the call raises the
    connection-class rate-limit error. *)
Theorem query_poi_type_failover (self : t) (box : bbox) (ty : string) (n : nat) (tr : trace) :
  NoDup (overpass_urls self) ->
  in_config ty = true ->
  exists new, snd (query_poi_type self box ty n tr) = tr ++ new
    /\ (forall pre u t b tm r suf, new = pre ++ Post u t b tm r :: suf ->
          (not_retried r ->
             (forall x, x ∈ suf -> ~ posts_to u x)
             /\ (suf = [] \/ exists u' r' rest, u' <> u /\ suf = Post u' ty box 45 r' :: rest))
          /\ (forall d, succeeds r d ->
                suf = [] /\ fst (query_poi_type self box ty n tr) = Ok d)
          /\ (forall e, fst (query_poi_type self box ty n tr) = Raise e ->
                Forall (fun x => is_post x = false) suf -> error_of r = Some e))
    /\ (forall d, fst (query_poi_type self box ty n tr) = Ok d ->
          exists pre u tm r, new = pre ++ [Post u ty box tm r] /\ succeeds r d)
    /\ (forall e, fst (query_poi_type self box ty n tr) = Raise e -> (0 < n)%nat ->
          forall u, u ∈ overpass_urls self -> exists x, x ∈ new /\ posts_to u x)
    /\ ((forall u t b tm r, Post u t b tm r ∈ new -> exists body, r = ReplyHTTP 429 body) ->
        (0 < n)%nat -> overpass_urls self <> [] ->
        fst (query_poi_type self box ty n tr)
        = Raise (ConnectionError "Overpass API rate limit exceeded.")).
Proof.
  intros Hnd Hcfg. unfold query_poi_type. rewrite Hcfg. simpl.
  destruct (endpoint_loop_trace (overpass_urls self) ty box n None tr) as [new [Htr Hnew]].
  set (res := fst (endpoint_loop (overpass_urls self) ty box n None tr)) in *.
  exists new. split; [exact Htr|].
  split; [|split; [|split]].
  - intros pre u t b tm r suf Heq.
    by apply (endpoints_decomp _ _ _ _ _ _ _ Hnew Hnd pre u t b tm r suf).
  - by apply (endpoints_ok _ _ _ _ _ _ _ Hnew).
  - intros e He Hn. by apply (endpoints_all_tried _ _ _ _ _ _ _ Hnew Hn e).
  - intros Hall Hn Hurls.
    destruct res as [d|e] eqn:Hres.
    + destruct (endpoints_ok _ _ _ _ _ _ _ Hnew d eq_refl) as [pre [u [tm [r [Heq Hs]]]]].
      destruct (Hall u ty box tm r) as [body ->].
      { rewrite Heq. apply elem_of_app. right. left. }
      destruct Hs as [st [[= <- _] Hst]]. lia.
    + destruct (overpass_urls self) as [|u0 urls] eqn:Hu; [done|].
      destruct (endpoints_all_tried _ _ _ _ _ _ _ Hnew Hn e eq_refl u0) as [x [Hx Hp]]; [left|].
      destruct (last_post new) as [Hnone|[pre [u [t [b [tm [r [suf [Heq Hsuf]]]]]]]]].
      * rewrite Forall_forall in Hnone. specialize (Hnone x Hx). by destruct x.
      * destruct (Hall u t b tm r) as [body ->].
        { rewrite Heq. apply elem_of_app. right. left. }
        destruct (endpoints_decomp _ _ _ _ _ _ _ Hnew Hnd pre u t b tm _ suf Heq) as [_ [_ He]].
        specialize (He e eq_refl Hsuf). cbn in He. by injection He as <-.
Qed.

End QueryClaims.

(** A run on the sample script: three rate-limit replies of the first
    endpoint, a bad request of the second, the data of the third. *)
Lemma query_poi_type_witness :
  OverpassClient.query_poi_type (env := scripted sample_script) sample_client sample_box "gas_stations" 3 []
  = (Ok sample_data,
     [ Post "https://overpass-api.de/api/interpreter" "gas_stations" sample_box 45 (ReplyHTTP 429 None);
       Sleep 5;
       Post "https://overpass-api.de/api/interpreter" "gas_stations" sample_box 60 (ReplyHTTP 429 None);
       Sleep 5;
       Post "https://overpass-api.de/api/interpreter" "gas_stations" sample_box 75 (ReplyHTTP 429 None);
       Post "http://overpass-api.de/api/interpreter" "gas_stations" sample_box 45 (ReplyHTTP 400 None);
       Post "https://overpass.kumi.systems/api/interpreter" "gas_stations" sample_box 45
            (ReplyHTTP 200 (Some sample_data)) ])
  /\ exists new,
       snd (OverpassClient.query_poi_type (env := scripted sample_script) sample_client sample_box "gas_stations" 3 [])
       = [] ++ new
       /\ forall pre u t b tm r suf, new = pre ++ Post u t b tm r :: suf ->
            not_retried r -> forall x, x ∈ suf -> ~ posts_to u x.
Proof.
  split; [vm_compute; reflexivity|].
  destruct (query_poi_type_failover (env := scripted sample_script) sample_client sample_box "gas_stations" 3 [])
    as [new [Hnew [Hdec _]]].
  - apply (bool_decide_unpack _). vm_compute. exact I.
  - reflexivity.
  - exists new. split; [exact Hnew|].
    intros pre u t b tm r suf Heq Hr. by destruct (Hdec pre u t b tm r suf Heq) as [[? _] _].
Defined.

(** Every endpoint answers every attempt with a rate-limit reply. *)
Example query_poi_type_rate_limited :
  fst (OverpassClient.query_poi_type (env := scripted rate_limited_script) sample_client sample_box "gas_stations" 3 [])
  = Raise (ConnectionError "Overpass API rate limit exceeded.")
  /\ posts (snd (OverpassClient.query_poi_type (env := scripted rate_limited_script) sample_client sample_box "gas_stations" 3 [])) = 9%nat.
Proof. split; vm_compute; reflexivity. Qed.

(** ** [query_all_poi_types] *)

Section AcquisitionClaims.
Context {env : Env}.
Import OverpassClient.

Lemma select_invalid (sel : list string) (ty : string) :
  ty ∈ sel -> in_config ty = false ->
  select_poi_types (Some sel) = Raise (ValueError "Unknown POI types").
Proof.
  intros Hin Hcfg. unfold select_poi_types.
  destruct sel as [|ty0 tys]; [by apply elem_of_nil in Hin|].
  assert (Hf : ty ∈ filter (fun ty' => in_config ty' = false) (ty0 :: tys))
    by (by apply list_elem_of_filter).
  destruct (filter _ (ty0 :: tys)) as [|x xs]; [by apply elem_of_nil in Hf|done].
Qed.

(** C6: a selection with a name that is not configured makes
    [query_all_poi_types] raise the validation error with the trace as it
    was: no request, no progress call, no batch, no list. Asked for such
    a name, [query_poi_type] raises before its first request too. *)
Theorem unknown_poi_type_raises_before_any_request (self : t) (a : query_args) (sel : list string) (ty : string) (box : bbox) (n : nat) (tr : trace) :
  ty ∈ sel -> in_config ty = false ->
  query_all_poi_types self a (Some sel) tr = (Raise (ValueError "Unknown POI types"), tr)
  /\ query_poi_type self box ty n tr = (Raise (ValueError "Unknown POI type"), tr).
Proof.
  intros Hin Hcfg. split.
  - unfold query_all_poi_types. by rewrite (select_invalid sel ty Hin Hcfg).
  - unfold query_poi_type. by rewrite Hcfg.
Qed.

Lemma quiet_app (gap gap' : trace) : quiet gap -> quiet gap' -> quiet (gap ++ gap').
Proof. unfold quiet. intros. by apply Forall_app. Qed.

Lemma chained_gap (tr gap : trace) (runs : list category_run) (tr' : trace) :
  quiet gap -> chained (tr ++ gap) runs tr' -> chained tr runs tr'.
Proof.
  intros Hgap. destruct runs as [|r runs]; simpl.
  - intros (gap' & -> & Hq). exists (gap ++ gap'). split; [by rewrite app_assoc|by apply quiet_app].
  - intros [(gap' & -> & Hq) Hrest]. split; [|exact Hrest].
    exists (gap ++ gap'). split; [by rewrite app_assoc|by apply quiet_app].
Qed.

(** The turn of one category, as the [try] block has it. *)
Lemma type_body_run (self : t) (a : query_args) (types : list string) (i : nat) (c : string) (all : list POI) (tr : trace) :
  exists (r : category_run) (gap gap' : trace),
    run_type r = c
    /\ run_start r = tr ++ gap /\ quiet gap
    /\ run_outcome self a i (length types) r
    /\ snd (type_body self a types i c (all, tr)) = (all ++ run_pois r, run_end r ++ gap')
    /\ quiet gap'.
Proof.
  unfold type_body, call_progress.
  destruct (progress_callback a) as [callback|] eqn:Hcb.
  - destruct (callback c i (length types)) as [[]|ex] eqn:Hcall.
    + assert (Hret : progress_returns a c i (length types)).
      { intros callback' Hcb'. rewrite Hcb in Hcb'. by injection Hcb' as <-. }
      set (tr0 := tr ++ [Progress c i (length types)]).
      destruct (query_poi_type self (arg_bbox a) c 3 tr0) as [[data|ex] tr1] eqn:Hq.
      * destruct (filter_pois self data c (poi_max_distance_for a c)) as [filtered|ex] eqn:Hf.
        -- set (pois := deduplicate_pois filtered (deduplication_radius_km a) (poi_settings a)).
           assert (Hout : run_outcome self a i (length types)
                            {| run_type := c; run_start := tr0; run_end := tr1; run_pois := pois |}).
           { right. split; [exact Hret|]. right. exists data. simpl. split; [exact Hq|].
             by rewrite Hf. }
           unfold call_batch. destruct (batch_callback a) as [batch|].
           ++ destruct (batch c pois) as [[]|ex].
              ** destruct (bool_decide (Some c ≠ last types)).
                 --- exists {| run_type := c; run_start := tr0; run_end := tr1; run_pois := pois |},
                       [Progress c i (length types)], [Batch c pois; Sleep (delay_seconds a)].
                     simpl. rewrite <- app_assoc.
                     repeat (split; [try done; by repeat constructor|]). by repeat constructor.
                 --- exists {| run_type := c; run_start := tr0; run_end := tr1; run_pois := pois |},
                       [Progress c i (length types)], [Batch c pois].
                     simpl. repeat (split; [try done; by repeat constructor|]).
                     by repeat constructor.
              ** exists {| run_type := c; run_start := tr0; run_end := tr1; run_pois := pois |},
                   [Progress c i (length types)], [Batch c pois].
                 simpl. repeat (split; [try done; by repeat constructor|]).
                 by repeat constructor.
           ++ destruct (bool_decide (Some c ≠ last types)).
              ** exists {| run_type := c; run_start := tr0; run_end := tr1; run_pois := pois |},
                   [Progress c i (length types)], [Sleep (delay_seconds a)].
                 simpl. repeat (split; [try done; by repeat constructor|]).
                 by repeat constructor.
              ** exists {| run_type := c; run_start := tr0; run_end := tr1; run_pois := pois |},
                   [Progress c i (length types)], [].
                 simpl. rewrite !app_nil_r.
                 repeat (split; [try done; by repeat constructor|]). constructor.
        -- exists {| run_type := c; run_start := tr0; run_end := tr1; run_pois := [] |},
             [Progress c i (length types)], [].
           simpl. rewrite !app_nil_r.
           split; [done|]. split; [done|]. split; [by repeat constructor|].
           split; [|split; [done|constructor]].
           right. split; [exact Hret|]. right. exists data. simpl. split; [exact Hq|].
           by rewrite Hf.
      * exists {| run_type := c; run_start := tr0; run_end := tr1; run_pois := [] |},
          [Progress c i (length types)], [].
        simpl. rewrite !app_nil_r.
        split; [done|]. split; [done|]. split; [by repeat constructor|].
        split; [|split; [done|constructor]].
        right. split; [exact Hret|]. left. by exists ex.
    + exists {| run_type := c; run_start := tr; run_end := tr; run_pois := [] |},
        [], [Progress c i (length types)].
      simpl. rewrite !app_nil_r.
      split; [done|]. split; [done|]. split; [constructor|].
      split; [|split; [done|by repeat constructor]].
      left. by exists callback, ex.
  - assert (Hret : progress_returns a c i (length types)).
    { intros callback' Hcb'. by rewrite Hcb in Hcb'. }
    destruct (query_poi_type self (arg_bbox a) c 3 tr) as [[data|ex] tr1] eqn:Hq.
    + destruct (filter_pois self data c (poi_max_distance_for a c)) as [filtered|ex] eqn:Hf.
      * set (pois := deduplicate_pois filtered (deduplication_radius_km a) (poi_settings a)).
        assert (Hout : run_outcome self a i (length types)
                         {| run_type := c; run_start := tr; run_end := tr1; run_pois := pois |}).
        { right. split; [exact Hret|]. right. exists data. simpl. split; [exact Hq|].
          by rewrite Hf. }
        unfold call_batch. destruct (batch_callback a) as [batch|].
        -- destruct (batch c pois) as [[]|ex].
           ++ destruct (bool_decide (Some c ≠ last types)).
              ** exists {| run_type := c; run_start := tr; run_end := tr1; run_pois := pois |},
                   [], [Batch c pois; Sleep (delay_seconds a)].
                 simpl. rewrite app_nil_r, <- app_assoc.
                 repeat (split; [try done; by repeat constructor|]). by repeat constructor.
              ** exists {| run_type := c; run_start := tr; run_end := tr1; run_pois := pois |},
                   [], [Batch c pois].
                 simpl. rewrite app_nil_r.
                 repeat (split; [try done; by repeat constructor|]). by repeat constructor.
           ++ exists {| run_type := c; run_start := tr; run_end := tr1; run_pois := pois |},
                [], [Batch c pois].
              simpl. rewrite app_nil_r.
              repeat (split; [try done; by repeat constructor|]). by repeat constructor.
        -- destruct (bool_decide (Some c ≠ last types)).
           ++ exists {| run_type := c; run_start := tr; run_end := tr1; run_pois := pois |},
                [], [Sleep (delay_seconds a)].
              simpl. rewrite app_nil_r.
              repeat (split; [try done; by repeat constructor|]). by repeat constructor.
           ++ exists {| run_type := c; run_start := tr; run_end := tr1; run_pois := pois |},
                [], [].
              simpl. rewrite !app_nil_r.
              repeat (split; [try done; by repeat constructor|]). constructor.
      * exists {| run_type := c; run_start := tr; run_end := tr1; run_pois := [] |}, [], [].
        simpl. rewrite !app_nil_r.
        split; [done|]. split; [done|]. split; [constructor|].
        split; [|split; [done|constructor]].
        right. split; [exact Hret|]. right. exists data. simpl. split; [exact Hq|].
        by rewrite Hf.
    + exists {| run_type := c; run_start := tr; run_end := tr1; run_pois := [] |}, [], [].
      simpl. rewrite !app_nil_r.
      split; [done|]. split; [done|]. split; [constructor|].
      split; [|split; [done|constructor]].
      right. split; [exact Hret|]. left. by exists ex.
Qed.

Lemma type_loop_runs (self : t) (a : query_args) (types remaining : list string) (i : nat) (all : list POI) (tr : trace) :
  exists runs : list category_run,
    map run_type runs = remaining
    /\ chained tr runs (snd (type_loop self a types i remaining (all, tr)))
    /\ (forall k r, runs !! k = Some r -> run_outcome self a (i + k) (length types) r)
    /\ fst (type_loop self a types i remaining (all, tr)) = all ++ concat (map run_pois runs).
Proof.
  revert i all tr. induction remaining as [|c remaining IH]; intros i all tr.
  { exists []. simpl. split; [done|]. split; [exists []; split; [by rewrite app_nil_r|constructor]|].
    split; [done|by rewrite app_nil_r]. }
  cbn [type_loop].
  destruct (type_body_run self a types i c all tr)
    as (r & gap & gap' & Hty & Hstart & Hgap & Hout & Hbody & Hgap').
  destruct (type_body self a types i c (all, tr)) as [res st']. simpl in Hbody. subst st'.
  cbv beta iota.
  destruct (IH (S i) (all ++ run_pois r) (run_end r ++ gap'))
    as (runs & Htypes & Hchain & Houts & Hall).
  exists (r :: runs). split; [simpl; by rewrite Hty, Htypes|]. split; [|split].
  - simpl. split; [by exists gap|]. by eapply chained_gap.
  - intros [|k] r' Hr'; simpl in Hr'.
    + injection Hr' as <-. by rewrite Nat.add_0_r.
    + rewrite Nat.add_succ_r. by apply Houts.
  - transitivity ((all ++ run_pois r) ++ concat (map run_pois runs)); [exact Hall|].
    simpl. by rewrite app_assoc.
Qed.

(** C5: the acquisition does not fail when the query or the filtering of
    a category raises. Every category of the selection has its turn, in
    order, whatever happened to the ones before it; a category whose
    query raised after all endpoints, or whose reply could not be
    filtered, yields nothing; a category that goes through yields the
    POIs of its reply, filtered and deduplicated; and what is returned
    is the POIs that the categories yield, together, sorted ascending by
    [distance_on_route]. *)
Theorem query_all_poi_types_skips_failed_category (self : t) (a : query_args) (sel : option (list string)) (tr : trace) (types : list string) :
  select_poi_types sel = Ok types ->
  exists runs : list category_run,
    map run_type runs = types
    /\ chained tr runs (snd (query_all_poi_types self a sel tr))
    /\ (forall k r, runs !! k = Some r -> run_outcome self a (S k) (length types) r)
    /\ fst (query_all_poi_types self a sel tr)
       = Ok (sort_by Qltb distance_on_route (concat (map run_pois runs)))
    /\ sorted_on_route (sort_by Qltb distance_on_route (concat (map run_pois runs)))
    /\ sort_by Qltb distance_on_route (concat (map run_pois runs)) ≡ₚ concat (map run_pois runs).
Proof.
  intros Hsel. unfold query_all_poi_types. rewrite Hsel.
  destruct (type_loop_runs self a types types 1 [] tr) as (runs & Htypes & Hchain & Houts & Hall).
  destruct (type_loop self a types 1 types ([], tr)) as [all tr'] eqn:Hloop.
  simpl in *. subst all. exists runs.
  split; [exact Htypes|]. split; [exact Hchain|]. split; [exact Houts|].
  split; [reflexivity|]. split; [apply sort_on_route_sorted|apply sort_by_perm].
Qed.

End AcquisitionClaims.

(** A selection with a name that is not configured, on a world whose
    endpoints would answer. *)
Lemma unknown_poi_type_witness :
  OverpassClient.query_all_poi_types (env := scripted sample_script) sample_client sample_args
    (Some ["bakeries"; "cinemas"]) []
  = (Raise (ValueError "Unknown POI types"), [])
  /\ OverpassClient.query_poi_type (env := scripted sample_script) sample_client sample_box "cinemas" 3 []
     = (Raise (ValueError "Unknown POI type"), []).
Proof.
  apply (unknown_poi_type_raises_before_any_request (env := scripted sample_script)
           sample_client sample_args ["bakeries"; "cinemas"] "cinemas" sample_box 3 []).
  - right. left.
  - reflexivity.
Defined.

(** Bakeries fail at every endpoint, gas stations go through: the result
    is the gas stations, sorted along the route. *)
Lemma query_all_poi_types_witness :
  fst (OverpassClient.query_all_poi_types (env := scripted one_failure_script) sample_client sample_args
         (Some ["bakeries"; "gas_stations"]) [])
  = Ok sample_filtered
  /\ sorted_on_route sample_filtered.
Proof.
  destruct (query_all_poi_types_skips_failed_category (env := scripted one_failure_script)
              sample_client sample_args (Some ["bakeries"; "gas_stations"])
              [] ["bakeries"; "gas_stations"] eq_refl)
    as (runs & _ & _ & _ & Hres & Hsorted & _).
  assert (Hrun : fst (OverpassClient.query_all_poi_types (env := scripted one_failure_script)
                        sample_client sample_args (Some ["bakeries"; "gas_stations"]) [])
                 = Ok sample_filtered) by (vm_compute; reflexivity).
  split; [exact Hrun|].
  rewrite Hrun in Hres. injection Hres as Hres. by rewrite Hres.
Defined.

(** * Further properties of the code *)

(** ** [get_route_bounding_box] *)

Lemma min_from_spec (l : list Q) (best : Q) :
  (min_from best l = best \/ min_from best l ∈ l)
  /\ (min_from best l <= best)%Q
  /\ (forall x, x ∈ l -> (min_from best l <= x)%Q).
Proof.
  revert best. induction l as [|y l IH]; intros best; simpl.
  - split; [by left|]. split; [apply Qle_refl|]. intros x Hx. by apply elem_of_nil in Hx.
  - destruct (IH (if Qltb y best then y else best)) as [Hin [Hle Hall]].
    unfold Qltb in *. destruct (Qlt_le_dec y best) as [Hlt|Hge].
    + split; [right; destruct Hin as [->|Hin]; [left|by right]|].
      split; [lra|]. intros x Hx. apply elem_of_cons in Hx as [->|Hx]; [done|by apply Hall].
    + split; [destruct Hin as [->|Hin]; [by left|right; by right]|].
      split; [done|]. intros x Hx. apply elem_of_cons in Hx as [->|Hx]; [lra|by apply Hall].
Qed.

Lemma max_from_spec (l : list Q) (best : Q) :
  (max_from best l = best \/ max_from best l ∈ l)
  /\ (best <= max_from best l)%Q
  /\ (forall x, x ∈ l -> (x <= max_from best l)%Q).
Proof.
  revert best. induction l as [|y l IH]; intros best; simpl.
  - split; [by left|]. split; [apply Qle_refl|]. intros x Hx. by apply elem_of_nil in Hx.
  - destruct (IH (if Qltb best y then y else best)) as [Hin [Hle Hall]].
    unfold Qltb in *. destruct (Qlt_le_dec best y) as [Hlt|Hge].
    + split; [right; destruct Hin as [->|Hin]; [left|by right]|].
      split; [lra|]. intros x Hx. apply elem_of_cons in Hx as [->|Hx]; [done|by apply Hall].
    + split; [destruct Hin as [->|Hin]; [by left|right; by right]|].
      split; [done|]. intros x Hx. apply elem_of_cons in Hx as [->|Hx]; [lra|by apply Hall].
Qed.

Lemma py_min_spec (l : list Q) :
  l <> [] -> exists m, py_min l = Ok m /\ m ∈ l /\ forall x, x ∈ l -> (m <= x)%Q.
Proof.
  destruct l as [|y l]; [done|]. intros _. exists (min_from y l).
  destruct (min_from_spec l y) as [Hin [Hle Hall]].
  split; [done|]. split.
  - destruct Hin as [->|Hin]; [left|by right].
  - intros x Hx. apply elem_of_cons in Hx as [->|Hx]; [done|by apply Hall].
Qed.

Lemma py_max_spec (l : list Q) :
  l <> [] -> exists m, py_max l = Ok m /\ m ∈ l /\ forall x, x ∈ l -> (x <= m)%Q.
Proof.
  destruct l as [|y l]; [done|]. intros _. exists (max_from y l).
  destruct (max_from_spec l y) as [Hin [Hle Hall]].
  split; [done|]. split.
  - destruct Hin as [->|Hin]; [left|by right].
  - intros x Hx. apply elem_of_cons in Hx as [->|Hx]; [done|by apply Hall].
Qed.

(** The bounding box of a route: an empty route makes the call raise
    [ValueError]; otherwise every route point lies in the box with a margin
    of [buffer_km / 111] degrees on each side, and each side is that far
    from some route point (the box is tight). *)
Theorem bounding_box_pads_route (self : OverpassClient.t) (buffer_km : Q) :
  (points (OverpassClient.route self) = [] ->
     exists msg, OverpassClient.get_route_bounding_box self buffer_km = Raise (ValueError msg))
  /\ (points (OverpassClient.route self) <> [] ->
      exists box, OverpassClient.get_route_bounding_box self buffer_km = Ok box
        /\ (forall p, p ∈ points (OverpassClient.route self) ->
              (south box <= lat p - buffer_km / 111)%Q /\ (lat p + buffer_km / 111 <= north box)%Q
              /\ (west box <= lon p - buffer_km / 111)%Q /\ (lon p + buffer_km / 111 <= east box)%Q)
        /\ (exists p, p ∈ points (OverpassClient.route self) /\ south box = (lat p - buffer_km / 111)%Q)
        /\ (exists p, p ∈ points (OverpassClient.route self) /\ north box = (lat p + buffer_km / 111)%Q)
        /\ (exists p, p ∈ points (OverpassClient.route self) /\ west box = (lon p - buffer_km / 111)%Q)
        /\ (exists p, p ∈ points (OverpassClient.route self) /\ east box = (lon p + buffer_km / 111)%Q)).
Proof.
  unfold OverpassClient.get_route_bounding_box. split.
  - intros ->. by eexists.
  - intros Hne. set (pts := points (OverpassClient.route self)) in *.
    assert (Hlat : map lat pts <> []) by (by destruct pts).
    assert (Hlon : map lon pts <> []) by (by destruct pts).
    destruct (py_min_spec _ Hlat) as [mla [-> [Hmla1 Hmla2]]].
    destruct (py_max_spec _ Hlat) as [Mla [-> [HMla1 HMla2]]].
    destruct (py_min_spec _ Hlon) as [mlo [-> [Hmlo1 Hmlo2]]].
    destruct (py_max_spec _ Hlon) as [Mlo [-> [HMlo1 HMlo2]]].
    simpl. eexists. split; [reflexivity|]. simpl.
    split; [|repeat split].
    + intros p Hp.
      assert (lat p ∈ map lat pts) by (by apply list_elem_of_fmap_2).
      assert (lon p ∈ map lon pts) by (by apply list_elem_of_fmap_2).
      pose proof (Hmla2 _ H). pose proof (HMla2 _ H).
      pose proof (Hmlo2 _ H0). pose proof (HMlo2 _ H0).
      repeat split; lra.
    + apply list_elem_of_fmap in Hmla1 as [p [-> Hp]]. by exists p.
    + apply list_elem_of_fmap in HMla1 as [p [-> Hp]]. by exists p.
    + apply list_elem_of_fmap in Hmlo1 as [p [-> Hp]]. by exists p.
    + apply list_elem_of_fmap in HMlo1 as [p [-> Hp]]. by exists p.
Qed.

(** ** [calculate_distance_on_route]: errors and growth *)

Section RouteErrors.
Context {env : Env}.

Lemma distance_loop_out_of_range (pts : list RoutePoint) (n k : nat) (acc : Q) :
  (0 < n)%nat -> (length pts <= k + n)%nat ->
  RouteCalculator.distance_loop pts (seq k n) acc = Raise IndexError.
Proof.
  revert k acc. induction n as [|n IH]; intros k acc Hn Hlen; [lia|].
  simpl. unfold RouteCalculator.getitem.
  destruct (pts !! k) as [a|] eqn:Ha; simpl; [|done].
  destruct (pts !! (k + 1)%nat) as [b|] eqn:Hb; simpl; [|done].
  apply lookup_lt_Some in Hb.
  apply IH; lia.
Qed.

(** When [calculate_distance_on_route] raises: [StopIteration] when the
    index yields nothing; [IndexError] when the identifier it yields is
    positive and no position of the route. An identifier of 0 gives 0
    even for a route without points. *)
Theorem calculate_distance_on_route_errors (route : Route) (point : RoutePoint) :
  let answer := rtree route (lon point, lat point, lon point, lat point) in
  (answer = [] ->
     RouteCalculator.calculate_distance_on_route route point = Raise StopIteration)
  /\ (forall i rest, answer = i :: rest -> (0 < i)%nat -> (length (points route) <= i)%nat ->
        RouteCalculator.calculate_distance_on_route route point = Raise IndexError)
  /\ (forall rest, answer = 0%nat :: rest ->
        RouteCalculator.calculate_distance_on_route route point = Ok 0%Q)
  /\ (forall i rest, answer = i :: rest -> (i < length (points route))%nat ->
        exists d, RouteCalculator.calculate_distance_on_route route point = Ok d).
Proof.
  unfold RouteCalculator.calculate_distance_on_route,
    RouteCalculator.find_nearest_route_point_index. simpl.
  split; [by intros ->|]. split; [|split].
  - intros i rest -> Hi Hlen. simpl. by apply distance_loop_out_of_range.
  - by intros rest ->.
  - intros i rest -> Hlt. simpl.
    destruct (distance_loop_sum (points route) i 0 0%Q) as [d [Hd _]]; [lia|]. by exists d.
Qed.

Lemma Qsum_nonneg (l : list Q) : Forall (fun x => (0 <= x)%Q) l -> (0 <= Qsum l)%Q.
Proof.
  induction 1 as [|x l Hx _ IH]; simpl; [apply Qle_refl|]. lra.
Qed.

Lemma Qsum_app (l1 l2 : list Q) : (Qsum (l1 ++ l2) == Qsum l1 + Qsum l2)%Q.
Proof. induction l1 as [|x l1 IH]; simpl; [ring|]. rewrite IH. ring. Qed.

Lemma segments_nonneg (pts : list RoutePoint) :
  (forall a b, (0 <= haversine a b)%Q) -> Forall (fun x => (0 <= x)%Q) (segments pts).
Proof.
  intros Hpos. apply Forall_forall. intros x Hx. unfold segments in Hx.
  apply list_elem_of_lookup in Hx as [i Hi]. rewrite lookup_zip_with in Hi.
  destruct (pts !! i) as [a|]; simpl in Hi; [|done].
  destruct (tail pts !! i) as [b|]; simpl in Hi; [|done].
  injection Hi as <-. apply Hpos.
Qed.

Lemma take_add_drop {A} (l : list A) (i k : nat) :
  take (i + k) l = take i l ++ take k (drop i l).
Proof.
  revert l. induction i as [|i IH]; intros l; simpl; [done|].
  destruct l as [|x l]; simpl; [by destruct k|]. by rewrite IH.
Qed.

Lemma distance_along_mono (pts : list RoutePoint) (i j : nat) :
  (forall a b, (0 <= haversine a b)%Q) -> (i <= j)%nat ->
  (0 <= distance_along pts i)%Q
  /\ (distance_along pts i <= distance_along pts j)%Q
  /\ (distance_along pts j <= route_length pts)%Q.
Proof.
  intros Hpos Hij. unfold distance_along, route_length.
  pose proof (segments_nonneg pts Hpos) as Hseg.
  split; [apply Qsum_nonneg; by apply Forall_take|].
  split.
  - replace j with (i + (j - i))%nat by lia. rewrite take_add_drop.
    rewrite Qsum_app.
    assert (0 <= Qsum (take (j - i) (drop i (segments pts))))%Q
      by (apply Qsum_nonneg; by apply Forall_take, Forall_drop).
    lra.
  - rewrite <- (take_drop j (segments pts)) at 2. rewrite Qsum_app.
    assert (0 <= Qsum (drop j (segments pts)))%Q by (apply Qsum_nonneg; by apply Forall_drop).
    lra.
Qed.

(** With distances that are not negative, the distance along the route
    grows with the position of the nearest route point, from 0 up to the
    length of the route. *)
Theorem calculate_distance_on_route_grows (route : Route) (p q : RoutePoint) (i j : nat) :
  (forall a b, (0 <= haversine a b)%Q) ->
  RouteCalculator.find_nearest_route_point_index route p = Ok i ->
  RouteCalculator.find_nearest_route_point_index route q = Ok j ->
  (i <= j)%nat -> (j < length (points route))%nat ->
  exists d e,
    RouteCalculator.calculate_distance_on_route route p = Ok d
    /\ RouteCalculator.calculate_distance_on_route route q = Ok e
    /\ (0 <= d)%Q /\ (d <= e)%Q /\ (e <= route_length (points route))%Q.
Proof.
  intros Hpos Hi Hj Hij Hlt. unfold RouteCalculator.calculate_distance_on_route.
  rewrite Hi, Hj. simpl.
  destruct (distance_loop_sum (points route) i 0 0%Q) as [d [Hd Hdeq]]; [lia|].
  destruct (distance_loop_sum (points route) j 0 0%Q) as [e [He Heeq]]; [lia|].
  exists d, e. split; [exact Hd|]. split; [exact He|].
  rewrite drop_0 in Hdeq, Heeq.
  destruct (distance_along_mono (points route) i j Hpos Hij) as [H0 [H1 H2]].
  unfold distance_along in *. rewrite Hdeq, Heeq. repeat split; lra.
Qed.

End RouteErrors.

Lemma grid_km_nonneg (a b : Q * Q) : (0 <= grid_km a b)%Q.
Proof.
  unfold grid_km.
  pose proof (Qabs_nonneg (fst a - fst b)). pose proof (Qabs_nonneg (snd a - snd b)). lra.
Qed.

(** On the sample route, from its first point to its last. *)
Lemma calculate_distance_on_route_grows_witness :
  exists d e,
    RouteCalculator.calculate_distance_on_route (env := scripted []) sample_route {| lat := 0; lon := 0 |} = Ok d
    /\ RouteCalculator.calculate_distance_on_route (env := scripted []) sample_route {| lat := 1; lon := 1 |} = Ok e
    /\ (0 <= d)%Q /\ (d <= e)%Q /\ (e <= route_length (env := scripted []) (points sample_route))%Q.
Proof.
  apply (calculate_distance_on_route_grows (env := scripted []) sample_route
           {| lat := 0; lon := 0 |} {| lat := 1; lon := 1 |} 0 2).
  - intros a b. apply grid_km_nonneg.
  - reflexivity.
  - reflexivity.
  - lia.
  - simpl. lia.
Defined.

(** ** [RouteStorage] *)

Section StorageFacts.
Context {env : Env}.
Context (rtree_nearest : list (nat * (Q * Q * Q * Q)) -> Q * Q * Q * Q -> list nat).

Lemma index_entries_ids (pts : list RoutePoint) (i : nat) (b : Q * Q * Q * Q) :
  (i, b) ∈ RouteStorage.index_entries pts -> (i < length pts)%nat.
Proof.
  unfold RouteStorage.index_entries. intros Hin.
  apply elem_of_lookup_imap in Hin as [j [p [[= -> _] Hp]]].
  by eapply lookup_lt_Some.
Qed.

(** A stored route is found again under its identifier, with its points,
    and the other identifiers keep what they had. When the index yields
    only identifiers that were inserted, and yields one whenever it has
    entries, the nearest point of a stored route with points is a position
    of the route, and [calculate_distance_on_route] returns for every
    query point. *)
Theorem stored_route_is_found_and_indexed (self : RouteStorage.t) (route_id : string) (pts : list RoutePoint) (gpx : option (list Byte.byte)) (fn : option string) :
  (forall entries box i, i ∈ rtree_nearest entries box -> exists b, (i, b) ∈ entries) ->
  (forall entries box, entries <> [] -> rtree_nearest entries box <> []) ->
  let self' := snd (RouteStorage.store rtree_nearest self route_id pts gpx fn) in
  fst (RouteStorage.store rtree_nearest self route_id pts gpx fn) = route_id
  /\ (forall other, other <> route_id ->
        RouteStorage.get self' other = RouteStorage.get self other)
  /\ exists e, RouteStorage.get self' route_id = Some e
       /\ points (RouteStorage.stored_route e) = pts
       /\ RouteStorage.id e = route_id
       /\ RouteStorage.gpx_data e = gpx
       /\ RouteStorage.filename e = fn
       /\ (pts <> [] -> forall p, exists i d,
             RouteCalculator.find_nearest_route_point_index (RouteStorage.stored_route e) p = Ok i
             /\ (i < length pts)%nat
             /\ RouteCalculator.calculate_distance_on_route (RouteStorage.stored_route e) p = Ok d).
Proof.
  intros Hids Hne self'. subst self'. unfold RouteStorage.store, RouteStorage.get, RouteStorage.t in *. simpl.
  split; [reflexivity|]. split.
  - intros other Hother. by rewrite lookup_insert_ne.
  - eexists. split; [apply lookup_insert_eq|]. simpl.
    repeat split. intros Hpts p.
    unfold RouteCalculator.calculate_distance_on_route,
      RouteCalculator.find_nearest_route_point_index. simpl.
    set (box := (lon p, lat p, lon p, lat p)).
    assert (Hent : RouteStorage.index_entries pts <> []).
    { destruct pts; [done|]. unfold RouteStorage.index_entries. simpl. done. }
    destruct (rtree_nearest (RouteStorage.index_entries pts) box) as [|i rest] eqn:Hq.
    { by destruct (Hne _ box Hent). }
    assert (Hi : (i < length pts)%nat).
    { destruct (Hids (RouteStorage.index_entries pts) box i) as [b Hb]; [rewrite Hq; left|].
      by eapply index_entries_ids. }
    simpl. destruct (distance_loop_sum pts i 0 0%Q) as [d [Hd _]]; [lia|].
    by exists i, d.
Qed.

End StorageFacts.

Lemma nearest_entry_id (entries : list (nat * (Q * Q * Q * Q))) (q : Q * Q) (best : nat) (best_d : Q) :
  nearest_entry entries q best best_d = best
  \/ exists b, (nearest_entry entries q best best_d, b) ∈ entries.
Proof.
  revert best best_d. induction entries as [|[i [[[x y] z] w]] entries IH]; intros best best_d; simpl.
  - by left.
  - destruct (Qltb (grid_km (x, y) q) best_d).
    + right. destruct (IH i (grid_km (x, y) q)) as [->|[b Hb]].
      * eexists. left.
      * exists b. by right.
    + destruct (IH best best_d) as [->|[b Hb]]; [by left|right]. exists b. by right.
Qed.

(** A stored copy of the sample route, in an empty registry, with the
    index that searches its entries one by one. *)
Lemma stored_route_witness :
  fst (RouteStorage.store entries_nearest RouteStorage.init "route-1" sample_points None None) = "route-1"
  /\ exists e,
       RouteStorage.get (snd (RouteStorage.store entries_nearest RouteStorage.init "route-1" sample_points None None)) "route-1" = Some e
       /\ forall p, exists i d,
            RouteCalculator.find_nearest_route_point_index (RouteStorage.stored_route e) p = Ok i
            /\ (i < 3)%nat
            /\ RouteCalculator.calculate_distance_on_route (env := scripted []) (RouteStorage.stored_route e) p = Ok d.
Proof.
  destruct (stored_route_is_found_and_indexed (env := scripted []) entries_nearest
              RouteStorage.init "route-1" sample_points None None)
    as [Hid [_ [e [He [Hpts [_ [_ [_ Hnear]]]]]]]].
  - intros entries [[[qx qy] qz] qw] i Hi. unfold entries_nearest in Hi.
    destruct entries as [|[i0 [[[x y] z] w]] entries]; [by apply elem_of_nil in Hi|].
    apply list_elem_of_singleton in Hi as ->.
    destruct (nearest_entry_id entries (qx, qy) i0 (grid_km (x, y) (qx, qy))) as [->|[b Hb]].
    + eexists. left.
    + exists b. by right.
  - intros entries [[[qx qy] qz] qw] Hne. unfold entries_nearest.
    by destruct entries as [|[i0 [[[x y] z] w]] entries].
  - split; [exact Hid|]. exists e. split; [exact He|]. intros p.
    apply Hnear. done.
Defined.

(** ** Opening hours: when the documented range holds *)

Section OpeningHoursRange.
Import OpeningHours.

Lemma int_acc_nonneg (s : string) (acc : Z) : (0 <= acc)%Z -> (0 <= Str.int_acc acc s)%Z.
Proof.
  revert acc. induction s as [|c s IH]; intros acc Hacc; simpl; [done|].
  apply IH. unfold Str.digit_val. lia.
Qed.

Lemma clock_nonneg (h m : string) : (0 <= clock h m)%Q.
Proof.
  unfold clock, Str.int.
  pose proof (int_acc_nonneg h 0 ltac:(lia)) as Hh.
  pose proof (int_acc_nonneg m 0 ltac:(lia)) as Hm.
  rewrite Zle_Qle in Hh. rewrite Zle_Qle in Hm.
  change (inject_Z 0) with 0%Q in *.
  assert (0 <= inject_Z (Str.int_acc 0 m) / 60)%Q.
  { apply Qle_shift_div_l; [done|]. lra. }
  lra.
Qed.

Lemma day_get_range (d : string) : (0 <= day_get d day_patterns <= 7)%Z.
Proof.
  unfold day_patterns. cbn [day_get].
  repeat (destruct (String.eqb _ d); [lia|]). lia.
Qed.

Lemma round_between (lo hi : Z) (x : Q) :
  (0 <= lo)%Z -> (lo <= 1440)%Z -> (0 <= hi)%Z -> (hi <= 1440)%Z ->
  (inject_Z lo <= x)%Q -> (x <= inject_Z hi)%Q ->
  (inject_Z lo <= Float.round x <= inject_Z hi)%Q.
Proof.
  intros ? ? ? ? Hlo Hhi. apply round_mono in Hlo, Hhi.
  rewrite round_small_int in Hlo by lia. rewrite round_small_int in Hhi by lia. done.
Qed.

(** A time of day up to 24:00, as the code computes it. *)
Lemma float_clock_range (h m : Z) :
  (0 <= h)%Z -> (0 <= m)%Z -> (inject_Z h + inject_Z m / 60 <= 24)%Q ->
  (0 <= Float.add (Float.of_int h) (Float.div (Float.of_int m) 60) <= 24)%Q.
Proof.
  intros Hh Hm Hday.
  assert (Hh' : (0 <= inject_Z h)%Q) by (change 0%Q with (inject_Z 0); by rewrite <- Zle_Qle).
  assert (Hm' : (0 <= inject_Z m)%Q) by (change 0%Q with (inject_Z 0); by rewrite <- Zle_Qle).
  assert (Hm60 : (inject_Z m / 60 * 60 == inject_Z m)%Q) by (field).
  assert (Hh24 : (h <= 24)%Z).
  { rewrite Zle_Qle. change (inject_Z 24) with 24%Q. nra. }
  assert (Hm1440 : (m <= 1440)%Z).
  { rewrite Zle_Qle. change (inject_Z 1440) with 1440%Q. nra. }
  unfold Float.add, Float.div, Float.of_int.
  rewrite (round_small_int h), (round_small_int m) by lia.
  assert (H24h : (inject_Z (24 - h) == 24 - inject_Z h)%Q).
  { unfold Z.sub. rewrite inject_Z_plus, inject_Z_opp. reflexivity. }
  destruct (round_between 0 (24 - h) (inject_Z m / 60)) as [Hd0 Hd1]; try lia.
  { change (inject_Z 0) with 0%Q. nra. }
  { rewrite H24h. lra. }
  rewrite H24h in Hd1. change (inject_Z 0) with 0%Q in Hd0.
  apply (round_between 0 24); try lia.
  - change (inject_Z 0) with 0%Q. lra.
  - change (inject_Z 24) with 24%Q. lra.
Qed.

(** The hours of a day between two such times, overnight or not. *)
Lemma float_hours_per_day_range (s e : Q) :
  (0 <= s <= 24)%Q -> (0 <= e <= 24)%Q ->
  (0 <= (if Qlt_le_dec e s then Float.add (Float.sub 24 s) e else Float.sub e s) <= 24)%Q.
Proof.
  intros [Hs0 Hs24] [He0 He24]. unfold Float.add, Float.sub.
  destruct (Qlt_le_dec e s) as [Hlt|Hle].
  - pose proof (round_between 0 24 (24 - s) ltac:(lia) ltac:(lia) ltac:(lia) ltac:(lia)) as Hu.
    change (inject_Z 0) with 0%Q in Hu. change (inject_Z 24) with 24%Q in Hu.
    destruct Hu as [Hu0 _]; [lra|lra|].
    pose proof (round_error_below_32 (24 - s) ltac:(lra) ltac:(lra)) as Herr.
    split.
    + assert (Hlow : (0 <= Float.round (24 - s) + e)%Q) by lra.
      apply round_mono in Hlow.
      change 0%Q with (inject_Z 0) in Hlow at 1.
      rewrite (round_small_int 0) in Hlow by lia. exact Hlow.
    + assert (Hup : (Float.round (24 - s) + e <= 24 + Float.pow2 (-49))%Q) by lra.
      apply round_mono in Hup.
      assert (Htie : Float.round (24 + Float.pow2 (-49)) = 24%Q) by (vm_compute; reflexivity).
      rewrite Htie in Hup. exact Hup.
  - apply (round_between 0 24); try lia.
    + change (inject_Z 0) with 0%Q. lra.
    + change (inject_Z 24) with 24%Q. lra.
Qed.

(** The hours of a span whose times are within a day. *)
Lemma span_hours_range (m : hours_match) (h : Q) :
  within_day m -> span_hours m = Some h -> (0 <= h <= 168)%Q.
Proof.
  unfold within_day, clock, span_hours. intros [Hs He].
  pose proof (int_acc_nonneg (g_start_hour m) 0 ltac:(lia)) as Hsh.
  pose proof (int_acc_nonneg (g_start_min m) 0 ltac:(lia)) as Hsm.
  pose proof (int_acc_nonneg (g_end_hour m) 0 ltac:(lia)) as Heh.
  pose proof (int_acc_nonneg (g_end_min m) 0 ltac:(lia)) as Hem.
  fold (Str.int (g_start_hour m)) in Hsh. fold (Str.int (g_start_min m)) in Hsm.
  fold (Str.int (g_end_hour m)) in Heh. fold (Str.int (g_end_min m)) in Hem.
  pose proof (float_clock_range _ _ Hsh Hsm Hs) as Hsr.
  pose proof (float_clock_range _ _ Heh Hem He) as Her.
  set (s := Float.add (Float.of_int (Str.int (g_start_hour m))) _) in *.
  set (e := Float.add (Float.of_int (Str.int (g_end_hour m))) _) in *.
  pose proof (day_get_range (g_start_day m)) as Hsd.
  pose proof (day_get_range (g_end_day m)) as Hed.
  set (sd := day_get (g_start_day m) day_patterns) in *.
  set (ed := day_get (g_end_day m) day_patterns) in *.
  destruct (0 <? sd)%Z eqn:E1; [|done]. destruct (0 <? ed)%Z eqn:E2; [|done]. simpl.
  intros [= <-].
  set (nd := if (sd <=? ed)%Z then (ed - sd + 1)%Z else (7 - sd + 1 + ed)%Z).
  assert (Hnd : (1 <= nd <= 7)%Z) by (subst nd; destruct (sd <=? ed)%Z eqn:E3; lia).
  assert (Hnd1 : (1 <= inject_Z nd)%Q) by (change 1%Q with (inject_Z 1); rewrite <- Zle_Qle; lia).
  assert (Hnd7 : (inject_Z nd <= 7)%Q) by (change 7%Q with (inject_Z 7); rewrite <- Zle_Qle; lia).
  pose proof (float_hours_per_day_range s e Hsr Her) as Hhpd.
  set (hpd := if Qlt_le_dec e s then _ else _) in *.
  unfold Float.mul, Float.of_int. rewrite (round_small_int nd) by lia.
  apply (round_between 0 168); try lia.
  - change (inject_Z 0) with 0%Q. nra.
  - change (inject_Z 168) with 168%Q. nra.
Qed.

(** The value is within 0 and 168 hours, as the docstring says, whenever
    the two times of the first clause that matches are at most 24:00. *)
Theorem opening_hours_within_week (oh : option string) :
  (forall m, re_search (Str.strip (Str.lower (default "" oh))) = Some m -> within_day m) ->
  (0 <= calculate_opening_hours_duration oh <= 168)%Q.
Proof.
  intros Hday.
  destruct (re_search (Str.strip (Str.lower (default "" oh))) ≫= span_hours) as [h|] eqn:Hfirst.
  - destruct (re_search _) as [m|] eqn:Hm; [|done]. simpl in Hfirst.
    pose proof (span_hours_range m h (Hday m eq_refl) Hfirst) as Hh.
    unfold calculate_opening_hours_duration.
    destruct (negb (truthy oh)); [split; [apply Qle_refl|done]|].
    destruct (is_24_7 oh); [split; [done|apply Qle_refl]|].
    rewrite Hm. simpl. by rewrite Hfirst.
  - by apply opening_hours_sum_bounded.
Qed.

End OpeningHoursRange.

Lemma opening_hours_within_week_witness :
  (0 <= OpeningHours.calculate_opening_hours_duration (Some "Tu-Sa 22:00-02:30; Su 10:00-12:00") <= 168)%Q.
Proof.
  apply opening_hours_within_week. intros m Hm.
  vm_compute in Hm. injection Hm as <-.
  split; vm_compute; discriminate.
Defined.

(** ** [deduplicate_pois]: what is retained *)

Section SortLe.
Context {A K : Type} (lt : K -> K -> bool) (key : A -> K) (le : A -> A -> Prop).
Hypothesis le_trans : forall a b c, le a b -> le b c -> le a c.
Hypothesis lt_le : forall a b, lt (key a) (key b) = true -> le a b.
Hypothesis not_lt_le : forall a b, lt (key a) (key b) = false -> le b a.

Lemma insert_by_le (x : A) (l : list A) :
  ForallOrdPairs le l -> ForallOrdPairs le (insert_by lt key x l).
Proof.
  induction 1 as [|y l Hy Hl IH]; simpl.
  - constructor; constructor.
  - destruct (lt (key y) (key x)) eqn:E.
    + constructor; [|exact IH].
      rewrite (insert_by_perm lt key x l). constructor; [by apply lt_le|exact Hy].
    + constructor; [|by constructor].
      constructor; [by apply not_lt_le|].
      eapply Forall_impl; [exact Hy|]. intros z Hz. simpl in Hz.
      eapply le_trans; [|exact Hz]. by apply not_lt_le.
Qed.

Lemma sort_by_le (l : list A) : ForallOrdPairs le (sort_by lt key l).
Proof. induction l as [|x l IH]; simpl; [constructor|]. by apply insert_by_le. Qed.

End SortLe.

Section DedupRetained.
Context {env : Env}.
Import OverpassClient.

Lemma keep_fold_sublist (R : Q) (l acc : list POI) :
  exists l', fold_left (keep_step R) l acc = acc ++ l' /\ l' `sublist_of` l.
Proof.
  revert acc. induction l as [|p l IH]; intros acc; simpl.
  - exists []. by rewrite app_nil_r.
  - unfold keep_step at 2. destruct (too_close R p acc).
    + destruct (IH acc) as [l' [-> Hl']]. exists l'. split; [done|]. by apply sublist_cons.
    + destruct (IH (acc ++ [p])) as [l' [-> Hl']]. exists (p :: l').
      split; [by rewrite <- app_assoc|]. by apply sublist_skip.
Qed.

Lemma keep_loop_sublist (R : Q) (l : list POI) : keep_loop R l `sublist_of` l.
Proof. unfold keep_loop. by destruct (keep_fold_sublist R l []) as [l' [-> ?]]. Qed.

Lemma dedup_group_submseteq (r : Q) (s : option (gmap string poi_setting)) (c : string) (ps : list POI) :
  dedup_group r s c ps ⊆+ ps.
Proof.
  unfold dedup_group. case_bool_decide; [|done].
  rewrite <- (sort_by_perm key_lt sort_key ps) at 2.
  apply sublist_submseteq, keep_loop_sublist.
Qed.

Lemma group_add_concat (p : POI) (g : list (string * list POI)) :
  concat (map snd (group_add p g)) ≡ₚ concat (map snd g) ++ [p].
Proof.
  induction g as [|[k ps] g IH]; simpl; [done|].
  destruct (String.eqb k (poi_type p)); simpl.
  - rewrite <- !app_assoc. apply Permutation_app_head. apply Permutation_app_comm.
  - rewrite IH. by rewrite app_assoc.
Qed.

Lemma group_by_type_concat (pois : list POI) : concat (map snd (group_by_type pois)) ≡ₚ pois.
Proof.
  unfold group_by_type.
  assert (Hgen : forall g, concat (map snd (fold_left (fun acc poi => group_add poi acc) pois g))
                           ≡ₚ concat (map snd g) ++ pois).
  { induction pois as [|p pois IH]; intros g; simpl; [by rewrite app_nil_r|].
    rewrite IH, group_add_concat, <- app_assoc. done. }
  by rewrite Hgen.
Qed.

Lemma dedup_submseteq (pois : list POI) (r : Q) (s : option (gmap string poi_setting)) :
  deduplicate_pois pois r s ⊆+ pois.
Proof.
  unfold deduplicate_pois. rewrite <- (group_by_type_concat pois) at 2.
  induction (group_by_type pois) as [|[k ps] g IH]; simpl; [done|].
  apply submseteq_app; [apply dedup_group_submseteq|exact IH].
Qed.

(** Deduplication only drops: the result holds no POI that the input
    does not hold, no POI more often than the input, and it is empty for
    an empty input. *)
Theorem deduplicate_pois_only_drops (pois : list POI) (r : Q) (s : option (gmap string poi_setting)) :
  deduplicate_pois pois r s ⊆+ pois
  /\ (forall p, p ∈ deduplicate_pois pois r s -> p ∈ pois)
  /\ (length (deduplicate_pois pois r s) <= length pois)%nat
  /\ deduplicate_pois [] r s = [].
Proof.
  pose proof (dedup_submseteq pois r s) as Hsub.
  split; [exact Hsub|]. split; [|split].
  - intros p Hp. by eapply elem_of_submseteq.
  - by apply submseteq_length.
  - reflexivity.
Qed.

Lemma keep_loop_head (R : Q) (x : POI) (l : list POI) : x ∈ keep_loop R (x :: l).
Proof. unfold keep_loop. simpl. apply keep_fold_mono. unfold keep_step. simpl. left. Qed.

Lemma sorted_by_distance_to_route (l : list POI) :
  ForallOrdPairs (fun a b => (distance_to_route a <= distance_to_route b)%Q)
                 (sort_by key_lt sort_key l).
Proof.
  apply sort_by_le.
  - intros a b c. lra.
  - intros a b Hlt. apply key_lt_preferred in Hlt. destruct Hlt as [?|[? _]]; lra.
  - intros a b Hlt.
    destruct (Qlt_le_dec (distance_to_route a) (distance_to_route b)) as [Hab|?]; [|done].
    assert (key_lt (sort_key a) (sort_key b) = true) by (apply key_lt_preferred; by left).
    congruence.
Qed.

(** The closest POI of a category survives: for every POI of the input
    the result holds a POI of the same category that is not farther from
    the route. So every category of the input is there in the result. *)
Theorem deduplicate_pois_keeps_closest (pois : list POI) (r : Q) (s : option (gmap string poi_setting)) (p : POI) :
  p ∈ pois ->
  exists q, q ∈ deduplicate_pois pois r s
    /\ poi_type q = poi_type p
    /\ (distance_to_route q <= distance_to_route p)%Q.
Proof.
  intros Hp.
  assert (Hpc : p ∈ of_type (poi_type p) pois) by (by apply list_elem_of_filter).
  assert (Hback : forall q, q ∈ dedup_group r s (poi_type p) (of_type (poi_type p) pois) ->
                    q ∈ deduplicate_pois pois r s /\ poi_type q = poi_type p).
  { intros q Hq. rewrite <- dedup_of_type in Hq. unfold of_type in Hq.
    by apply list_elem_of_filter in Hq as [? ?]. }
  unfold dedup_group in Hback. destruct (bool_decide (poi_type p ∈ deduplicate_types)).
  - pose proof (sorted_by_distance_to_route (of_type (poi_type p) pois)) as Hsorted.
    assert (Hps : p ∈ sort_by key_lt sort_key (of_type (poi_type p) pois)) by (by apply sort_by_elem).
    destruct (sort_by key_lt sort_key (of_type (poi_type p) pois)) as [|h t]; [by apply elem_of_nil in Hps|].
    destruct (Hback h (keep_loop_head _ h t)) as [Hin Hty].
    exists h. split; [exact Hin|]. split; [exact Hty|].
    apply elem_of_cons in Hps as [->|Hpt]; [apply Qle_refl|].
    inversion Hsorted as [|? ? Hh _]; subst. rewrite Forall_forall in Hh. by apply Hh.
  - destruct (Hback p Hpc) as [Hin Hty]. exists p. split; [exact Hin|]. split; [done|apply Qle_refl].
Qed.

Lemma keep_fold_all (R : Q) (l acc : list POI) :
  (forall a b, (0 <= haversine a b)%Q) -> (R <= 0)%Q ->
  fold_left (keep_step R) l acc = acc ++ l.
Proof.
  intros Hpos HR. revert acc. induction l as [|p l IH]; intros acc; simpl.
  - by rewrite app_nil_r.
  - assert (Hfar : too_close R p acc = false).
    { unfold too_close. apply not_true_is_false. intros Hex.
      apply existsb_exists in Hex as [k [_ Hk]]. unfold Qltb in Hk.
      destruct (Qlt_le_dec _ R) as [Hlt|]; [|done].
      pose proof (Hpos (poi_lat p, poi_lon p) (poi_lat k, poi_lon k)). lra. }
    unfold keep_step at 2. rewrite Hfar, IH, <- app_assoc. done.
Qed.

(** A radius of 0 (or less) switches deduplication off: with distances
    that are not negative, every POI is retained. *)
Theorem deduplicate_pois_zero_radius (pois : list POI) (r : Q) (s : option (gmap string poi_setting)) :
  (forall a b, (0 <= haversine a b)%Q) ->
  (forall c, (dedup_radius r s c <= 0)%Q) ->
  deduplicate_pois pois r s ≡ₚ pois.
Proof.
  intros Hpos Hr. unfold deduplicate_pois. rewrite <- (group_by_type_concat pois) at 2.
  induction (group_by_type pois) as [|[k ps] g IH]; simpl; [done|].
  apply Permutation_app; [|exact IH].
  unfold dedup_group. case_bool_decide; [|done].
  unfold keep_loop. rewrite (keep_fold_all _ _ [] Hpos (Hr k)). simpl.
  apply sort_by_perm.
Qed.

End DedupRetained.

(** The two toilets, 0.2 km apart, with a radius of 0. *)
Lemma deduplicate_pois_zero_radius_witness :
  OverpassClient.deduplicate_pois (env := scripted []) [toilet_1; toilet_2] 0 None
  ≡ₚ [toilet_1; toilet_2].
Proof.
  apply (deduplicate_pois_zero_radius (env := scripted [])).
  - intros a b. apply grid_km_nonneg.
  - intros c. vm_compute. discriminate.
Defined.

Lemma deduplicate_pois_keeps_closest_witness :
  exists q, q ∈ OverpassClient.deduplicate_pois (env := scripted []) [toilet_2; bakery_1; toilet_1] 1 None
    /\ poi_type q = poi_type toilet_2
    /\ (distance_to_route q <= distance_to_route toilet_2)%Q.
Proof.
  apply (deduplicate_pois_keeps_closest (env := scripted [])). left.
Defined.

(** ** [deduplicate_pois] twice *)

Section DedupTwice.
Context {env : Env}.
Import OverpassClient.

Lemma key_lt_asym (a b : sort_key_t) : key_lt a b = true -> key_lt b a = false.
Proof.
  unfold key_lt. rewrite (key_compare_antisym a b).
  by destruct (key_compare a b).
Qed.

Lemma key_lt_negtrans (a b c : sort_key_t) :
  key_lt a b = false -> key_lt b c = false -> key_lt a c = false.
Proof.
  destruct a as [[[[[a1 a2] a3] a4] a5] a6], b as [[[[[b1 b2] b3] b4] b5] b6],
           c as [[[[[c1 c2] c3] c4] c5] c6].
  unfold key_lt, key_compare.
  destruct (Qcompare_spec a1 b1) as [H1|H1|H1], (Qcompare_spec b1 c1) as [H2|H2|H2],
           (Qcompare_spec a1 c1) as [H3|H3|H3];
    simpl; try done; try (exfalso; lra).
  destruct (Qcompare_spec a2 b2) as [G1|G1|G1], (Qcompare_spec b2 c2) as [G2|G2|G2],
           (Qcompare_spec a2 c2) as [G3|G3|G3];
    simpl; try done; try (exfalso; lra).
  clear. destruct a3, b3, c3; simpl; try done;
    destruct a4, b4, c4; simpl; try done;
    destruct a5, b5, c5; simpl; try done;
    destruct a6, b6, c6; simpl; done.
Qed.

Lemma sorted_by_key (l : list POI) :
  ForallOrdPairs (fun a b => key_lt (sort_key b) (sort_key a) = false) (sort_by key_lt sort_key l).
Proof. apply sort_by_sorted; [apply key_lt_asym|apply key_lt_negtrans]. Qed.

Lemma FOP_sublist {A} (R : A -> A -> Prop) (l l' : list A) :
  l' `sublist_of` l -> ForallOrdPairs R l -> ForallOrdPairs R l'.
Proof.
  induction 1 as [|x l1 l2 Hsub IH|x l1 l2 Hsub IH]; intros HR.
  - constructor.
  - inversion HR as [|? ? Hx Hl]; subst. constructor; [|by apply IH].
    rewrite Forall_forall in *. intros y Hy. apply Hx. eapply elem_of_submseteq; [exact Hy|]. by apply sublist_submseteq.
  - inversion HR; subst. by apply IH.
Qed.

Lemma sort_by_sorted_id (l : list POI) :
  ForallOrdPairs (fun a b => key_lt (sort_key b) (sort_key a) = false) l ->
  sort_by key_lt sort_key l = l.
Proof.
  induction 1 as [|x l Hx Hl IH]; [done|]. simpl. rewrite IH.
  destruct l as [|y l]; [done|]. simpl.
  apply Forall_cons in Hx as [Hxy _]. by rewrite Hxy.
Qed.

Lemma keep_fold_separated_id (R : Q) (l acc : list POI) :
  ForallOrdPairs (fun p q => (R <= poi_distance q p)%Q) (acc ++ l) ->
  fold_left (keep_step R) l acc = acc ++ l.
Proof.
  revert acc. induction l as [|p l IH]; intros acc Hsep; simpl.
  - by rewrite app_nil_r.
  - assert (Hfar : too_close R p acc = false).
    { unfold too_close. apply not_true_is_false. intros Hex.
      apply existsb_exists in Hex as [k [Hk Hlt]]. unfold Qltb in Hlt.
      destruct (Qlt_le_dec _ R) as [Hlt'|]; [|done].
      apply list_elem_of_In in Hk. apply list_elem_of_lookup in Hk as [i Hi].
      pose proof (FOP_lookup _ _ Hsep i (length acc) k p) as Hge.
      simpl in Hge. unfold poi_distance in Hge.
      assert ((R <= haversine (poi_lat p, poi_lon p) (poi_lat k, poi_lon k))%Q).
      { apply Hge.
        - by eapply lookup_lt_Some.
        - by rewrite lookup_app_l by (by eapply lookup_lt_Some).
        - by rewrite list_lookup_middle. }
      lra. }
    unfold keep_step at 2. rewrite Hfar. rewrite IH; [by rewrite <- app_assoc|].
    by rewrite <- app_assoc.
Qed.

(** What one category gives is left as it is by a second pass. *)
Lemma dedup_group_idem (r : Q) (s : option (gmap string poi_setting)) (c : string) (ps : list POI) :
  dedup_group r s c (dedup_group r s c ps) = dedup_group r s c ps.
Proof.
  unfold dedup_group. case_bool_decide; [|done].
  set (R := dedup_radius r s c). set (kept := keep_loop R (sort_by key_lt sort_key ps)).
  assert (Hsorted : ForallOrdPairs (fun a b => key_lt (sort_key b) (sort_key a) = false) kept).
  { eapply FOP_sublist; [apply keep_loop_sublist|apply sorted_by_key]. }
  rewrite (sort_by_sorted_id kept Hsorted).
  unfold keep_loop at 1. apply (keep_fold_separated_id R kept []). simpl.
  apply keep_fold_separated. constructor.
Qed.

Lemma group_add_new (p : POI) (g : list (string * list POI)) :
  poi_type p ∉ map fst g -> group_add p g = g ++ [(poi_type p, [p])].
Proof.
  induction g as [|[k ps] g IH]; simpl; intros Hk; [done|].
  apply not_elem_of_cons in Hk as [Hne Hk].
  assert (String.eqb k (poi_type p) = false) as -> by (apply String.eqb_neq; congruence).
  by rewrite IH.
Qed.

Lemma group_add_last (p : POI) (g : list (string * list POI)) (ps : list POI) :
  poi_type p ∉ map fst g ->
  group_add p (g ++ [(poi_type p, ps)]) = g ++ [(poi_type p, ps ++ [p])].
Proof.
  induction g as [|[k qs] g IH]; simpl; intros Hk.
  - by rewrite String.eqb_refl.
  - apply not_elem_of_cons in Hk as [Hne Hk].
    assert (String.eqb k (poi_type p) = false) as -> by (apply String.eqb_neq; congruence).
    by rewrite IH.
Qed.

Lemma group_fold_block (k : string) (ps : list POI) (g : list (string * list POI)) :
  ps <> [] -> Forall (fun p => poi_type p = k) ps -> k ∉ map fst g ->
  fold_left (fun acc poi => group_add poi acc) ps g = g ++ [(k, ps)].
Proof.
  intros Hne Hty Hk. destruct ps as [|p ps]; [done|]. clear Hne.
  apply Forall_cons in Hty as [Hp Hty]. simpl.
  rewrite group_add_new by (by rewrite Hp). rewrite Hp.
  assert (Hgen : forall qs, fold_left (fun acc poi => group_add poi acc) ps (g ++ [(k, qs)])
                            = g ++ [(k, qs ++ ps)]).
  { clear Hp. induction Hty as [|q ps Hq _ IH]; intros qs; simpl; [by rewrite app_nil_r|].
    rewrite <- Hq at 1 2. rewrite group_add_last by (by rewrite Hq).
    rewrite Hq, IH, <- app_assoc. done. }
  by rewrite Hgen.
Qed.

(** Grouping a list that is made of blocks, one per category, gives the
    blocks back. *)
Lemma group_blocks (blocks g : list (string * list POI)) :
  NoDup (map fst (g ++ blocks)) ->
  Forall (fun kv => snd kv <> [] /\ Forall (fun p => poi_type p = fst kv) (snd kv)) blocks ->
  fold_left (fun acc poi => group_add poi acc) (concat (map snd blocks)) g = g ++ blocks.
Proof.
  revert g. induction blocks as [|[k ps] blocks IH]; intros g Hnd Hb; simpl.
  - by rewrite app_nil_r.
  - apply Forall_cons in Hb as [[Hne Hty] Hb]. simpl in *.
    rewrite fold_left_app.
    rewrite (group_fold_block k ps g Hne Hty).
    + rewrite IH; [by rewrite <- app_assoc|by rewrite <- app_assoc|exact Hb].
    + rewrite map_app in Hnd. apply NoDup_app in Hnd as [_ [Hdisj _]].
      intros Hin. apply (Hdisj k Hin). left.
Qed.

Lemma group_add_nonempty (p : POI) (g : list (string * list POI)) :
  Forall (fun kv => snd kv <> []) g -> Forall (fun kv => snd kv <> []) (group_add p g).
Proof.
  induction 1 as [|[k ps] g Hk Hg IH]; simpl.
  - by repeat constructor.
  - destruct (String.eqb k (poi_type p)); constructor; try done. simpl. by destruct ps.
Qed.

Lemma group_by_type_nonempty (pois : list POI) :
  Forall (fun kv => snd kv <> []) (group_by_type pois).
Proof.
  unfold group_by_type.
  assert (Hg : Forall (fun kv : string * list POI => snd kv <> []) []) by constructor.
  revert Hg. generalize (@nil (string * list POI)).
  induction pois as [|p pois IH]; intros g Hg; simpl; [exact Hg|].
  apply IH. by apply group_add_nonempty.
Qed.

Lemma dedup_group_nonempty (r : Q) (s : option (gmap string poi_setting)) (c : string) (ps : list POI) :
  ps <> [] -> dedup_group r s c ps <> [].
Proof.
  intros Hne. unfold dedup_group. case_bool_decide; [|done].
  assert (Hs : sort_by key_lt sort_key ps <> []).
  { intros Hnil. apply Hne. apply Permutation_nil_r. rewrite <- Hnil.
    symmetry. apply sort_by_perm. }
  destruct (sort_by key_lt sort_key ps) as [|h t]; [done|].
  intros Hnil. pose proof (keep_loop_head (dedup_radius r s c) h t) as Hin.
  rewrite Hnil in Hin. by apply elem_of_nil in Hin.
Qed.

(** Deduplication is idempotent: a second pass over its result, with the
    same radius and settings, changes nothing. *)
Theorem deduplicate_pois_idempotent (pois : list POI) (r : Q) (s : option (gmap string poi_setting)) :
  deduplicate_pois (deduplicate_pois pois r s) r s = deduplicate_pois pois r s.
Proof.
  unfold deduplicate_pois at 1 2.
  destruct (grouped_group_by_type pois) as [Hnd Hty].
  pose proof (group_by_type_nonempty pois) as Hne.
  set (g := group_by_type pois) in *.
  set (blocks := map (fun kv => (fst kv, dedup_group r s (fst kv) (snd kv))) g).
  assert (Hconcat : concat (map (fun '(poi_type, type_pois) => dedup_group r s poi_type type_pois) g)
                    = concat (map snd blocks)).
  { subst blocks. rewrite map_map. f_equal. apply map_ext. by intros [k ps]. }
  assert (Hkeys : map fst blocks = map fst g).
  { subst blocks. rewrite map_map. by apply map_ext. }
  assert (Hgroup : group_by_type (concat (map snd blocks)) = blocks).
  { unfold group_by_type. rewrite (group_blocks blocks []); [done| |].
    - simpl. by rewrite Hkeys.
    - subst blocks. apply Forall_forall. intros kv Hkv.
      apply list_elem_of_fmap in Hkv as [[k ps] [-> Hin]]. simpl.
      rewrite Forall_forall in Hne, Hty.
      specialize (Hne _ Hin). specialize (Hty _ Hin). simpl in *. split.
      + by apply dedup_group_nonempty.
      + apply Forall_forall. intros p Hp. apply dedup_group_subset in Hp.
        rewrite Forall_forall in Hty. by apply Hty. }
  rewrite Hconcat, Hgroup. unfold deduplicate_pois. fold g. rewrite Hconcat.
  f_equal. subst blocks. rewrite !map_map. apply map_ext.
  intros [k ps]. simpl. apply dedup_group_idem.
Qed.

End DedupTwice.

(** ** [filter_pois]: failures, order, provenance *)

Section FilterMore.
Context {env : Env}.
Import OverpassClient.

Lemma distance_on_route_raise (route : Route) (point : RoutePoint) (ex : exn) :
  RouteCalculator.calculate_distance_on_route route point = Raise ex ->
  (ex = StopIteration /\ exists box, rtree route box = []) \/ ex = IndexError.
Proof.
  unfold RouteCalculator.calculate_distance_on_route,
    RouteCalculator.find_nearest_route_point_index.
  destruct (rtree route _) as [|i rest] eqn:Hq; simpl;
    [intros [= <-]; left; split; [done|by eexists]|].
  generalize 0%Q. generalize (seq 0 i). intros range.
  induction range as [|k range IH]; intros acc; simpl; [done|].
  unfold RouteCalculator.getitem.
  destruct (points route !! k); simpl; [|intros [= <-]; by right].
  destruct (points route !! (k + 1)%nat); simpl; [|intros [= <-]; by right].
  apply IH.
Qed.

Lemma element_poi_raise (self : t) (dn ty : string) (max_km : Q) (e : element) (la lo : Q) (ex : exn) :
  element_poi self dn ty max_km e la lo = Raise ex ->
  (ex = StopIteration /\ exists box, rtree (route self) box = []) \/ ex = IndexError
  \/ (ex = AttributeError /\ el_tags e = Null)
  \/ (ty = "camping_hotels" /\ exists tags, extract_price_range tags = Raise ex).
Proof.
  unfold element_poi, RouteCalculator.find_nearest_route_point_index.
  destruct (rtree (route self) _) as [|i rest] eqn:Hq; simpl;
    [intros [= <-]; left; split; [done|by eexists]|].
  unfold RouteCalculator.getitem at 1.
  destruct (points (route self) !! i) as [nearest|]; simpl; [|intros [= <-]; right; by left].
  destruct (Qleb _ max_km); [|done].
  destruct (RouteCalculator.calculate_distance_on_route (route self) nearest) as [along|ex'] eqn:Hd; simpl.
  - unfold element_tags. destruct (el_tags e) as [| |tags] eqn:Ht; simpl.
    + destruct (String.eqb ty "camping_hotels") eqn:Hty; [|done].
      apply String.eqb_eq in Hty.
      destruct (extract_price_range _) as [price|ex'] eqn:Hp; simpl; [done|].
      intros [= <-]. right. right. right. split; [done|]. by eexists.
    + intros [= <-]. right. right. left. done.
    + destruct (String.eqb ty "camping_hotels") eqn:Hty; [|done].
      apply String.eqb_eq in Hty.
      destruct (extract_price_range _) as [price|ex'] eqn:Hp; simpl; [done|].
      intros [= <-]. right. right. right. split; [done|]. by eexists.
  - intros [= <-]. apply distance_on_route_raise in Hd as [?| ->]; [by left|right; by left].
Qed.

Lemma element_coords_raise (e : element) (ex : exn) :
  element_coords e = Raise ex ->
  ex = TypeError /\ el_type e = Some "way" /\ el_center e = Null.
Proof.
  unfold element_coords.
  case_bool_decide as Hnode; [by destruct (_ && _)|].
  case_bool_decide as Hway; [|done].
  destruct (el_center e) as [| |center]; [by destruct (_ && _)| |by destruct (_ && _)].
  by intros [= <-].
Qed.

Lemma filter_loop_raise (self : t) (dn ty : string) (max_km : Q) (els : list (option element)) (acc : list POI) (ex : exn) :
  filter_loop self dn ty max_km els acc = Raise ex ->
  skipped ex = false
  /\ ((ex = StopIteration /\ exists box, rtree (route self) box = [])
      \/ (ex = AttributeError
          /\ (None ∈ els \/ exists e, Some e ∈ els /\ el_tags e = Null))
      \/ (ex = TypeError
          /\ exists e, Some e ∈ els /\ el_type e = Some "way" /\ el_center e = Null)
      \/ (ty = "camping_hotels" /\ exists tags, extract_price_range tags = Raise ex)).
Proof.
  revert acc. induction els as [|[e|] els IH]; intros acc; simpl; [done| |].
  - assert (Hnext : forall acc', filter_loop self dn ty max_km els acc' = Raise ex ->
              skipped ex = false
              /\ ((ex = StopIteration /\ exists box, rtree (route self) box = [])
                  \/ (ex = AttributeError
                      /\ (None ∈ Some e :: els \/ exists e', Some e' ∈ Some e :: els /\ el_tags e' = Null))
                  \/ (ex = TypeError
                      /\ exists e', Some e' ∈ Some e :: els /\ el_type e' = Some "way" /\ el_center e' = Null)
                  \/ (ty = "camping_hotels" /\ exists tags, extract_price_range tags = Raise ex))).
    { intros acc' Hrun. destruct (IH acc' Hrun) as [Hs [?|[[-> Hin]|[[-> Hin]|?]]]].
      - split; [done|by left].
      - split; [done|]. right. left. split; [done|].
        destruct Hin as [?|[e' [? ?]]]; [left; by right|right; exists e'; split; [by right|done]].
      - split; [done|]. right. right. left. split; [done|].
        destruct Hin as [e' [? ?]]. exists e'. split; [by right|done].
      - split; [done|]. by do 3 right. }
    destruct (element_coords e) as [[[la|] [lo|]]|ex'] eqn:Hc; try apply Hnext.
    + destruct (element_poi self dn ty max_km e la lo) as [[p|]|ex'] eqn:Hp; try apply Hnext.
      destruct (skipped ex') eqn:Hs; [apply Hnext|].
      intros [= <-]. split; [exact Hs|].
      apply element_poi_raise in Hp as [?|[->|[[-> Ht]|?]]]; [by left|done| |by do 3 right].
      right. left. split; [done|]. right. exists e. split; [left|done].
    + intros [= <-]. apply element_coords_raise in Hc as (-> & Hway & Hnull).
      split; [done|]. right. right. left. split; [done|]. exists e. split; [left|done].
  - intros [= <-]. split; [done|]. right. left. split; [done|]. left. left.
Qed.

Lemma element_poi_total (self : t) (dn ty : string) (max_km : Q) (e : element) (la lo : Q) :
  (forall box, rtree (route self) box <> []) -> ty <> "camping_hotels" -> el_tags e <> Null ->
  forall ex, element_poi self dn ty max_km e la lo = Raise ex -> skipped ex = true.
Proof.
  intros Hidx Hty Htags ex Hex.
  apply element_poi_raise in Hex as [[_ [box Hbox]]|[->|[[_ ?]|[? _]]]]; [|done|done|done].
  by destruct (Hidx box).
Qed.

Lemma filter_loop_total (self : t) (dn ty : string) (max_km : Q) (els : list (option element)) (acc : list POI) :
  (forall box, rtree (route self) box <> []) -> ty <> "camping_hotels" ->
  (forall entry, entry ∈ els -> exists e, entry = Some e /\ el_center e <> Null /\ el_tags e <> Null) ->
  exists pois, filter_loop self dn ty max_km els acc = Ok pois.
Proof.
  intros Hidx Hty. revert acc. induction els as [|entry els IH]; intros acc Hels; simpl; [by eexists|].
  destruct (Hels entry ltac:(left)) as (e & -> & Hcenter & Htags).
  assert (Hnext : forall acc', exists pois, filter_loop self dn ty max_km els acc' = Ok pois).
  { intros acc'. apply IH. intros entry' Hin. apply Hels. by right. }
  destruct (element_coords e) as [[[la|] [lo|]]|ex] eqn:Hc; try apply Hnext.
  - destruct (element_poi self dn ty max_km e la lo) as [[p|]|ex] eqn:Hp; try apply Hnext.
    rewrite (element_poi_total self dn ty max_km e la lo Hidx Hty Htags ex Hp). apply Hnext.
  - by apply element_coords_raise in Hc as (_ & _ & ?).
Qed.

(** How [filter_pois] fails. For a category that is not configured it
    raises [ValueError], whatever the data. For a configured one it never
    raises an error of the classes it catches per element; what it lets
    through is [StopIteration] of an index that yields nothing,
    [AttributeError] for a body, an element or tags that are [null],
    [TypeError] for elements that are [null] or the centre of a way that
    is [null], or what the price heuristics of the accommodation
    category raise. With an index that answers every query and a reply
    without such a [null], any other configured category gets its list:
    an element whose nearest identifier is no position of the route is
    skipped. *)
Theorem filter_pois_failures (self : t) (data : overpass_data) (ty : string) (max_km : Q) :
  (in_config ty = false ->
     filter_pois self data ty max_km = Raise (ValueError "Unknown POI type"))
  /\ (forall ex, in_config ty = true -> filter_pois self data ty max_km = Raise ex ->
        skipped ex = false
        /\ ((ex = StopIteration /\ exists box, rtree (route self) box = [])
            \/ (ex = AttributeError
                /\ (data = JsonNull
                    \/ exists els, data = JsonObject (Value els)
                         /\ (None ∈ els \/ exists e, Some e ∈ els /\ el_tags e = Null)))
            \/ (ex = TypeError
                /\ (data = JsonObject Null
                    \/ exists els e, data = JsonObject (Value els) /\ Some e ∈ els
                         /\ el_type e = Some "way" /\ el_center e = Null))
            \/ (ty = "camping_hotels" /\ exists tags, extract_price_range tags = Raise ex)))
  /\ (in_config ty = true ->
      filter_pois self JsonNull ty max_km = Raise AttributeError
      /\ filter_pois self (JsonObject Null) ty max_km = Raise TypeError
      /\ (forall els, filter_pois self (JsonObject (Value (None :: els))) ty max_km
                      = Raise AttributeError)
      /\ (forall e els, el_type e = Some "way" -> el_center e = Null ->
            filter_pois self (JsonObject (Value (Some e :: els))) ty max_km = Raise TypeError))
  /\ (in_config ty = true -> (forall box, rtree (route self) box <> []) ->
      ty <> "camping_hotels" -> without_null data ->
      exists pois, filter_pois self data ty max_km = Ok pois).
Proof.
  unfold filter_pois, in_config.
  destruct (config_get ty POI_TYPE_CONFIG) as [config|]; split; try done; split; try done;
    [|split].
  - intros ex _. destruct data as [|[| |els]]; simpl.
    + intros [= <-]. split; [done|]. right. left. split; [done|by left].
    + done.
    + intros [= <-]. split; [done|]. right. right. left. split; [done|by left].
    + destruct (filter_loop _ _ _ _ _ _) as [pois|ex'] eqn:Hloop; simpl; [done|].
      intros [= <-]. apply filter_loop_raise in Hloop as [Hs [?|[[-> Hin]|[[-> Hin]|?]]]].
      * split; [done|by left].
      * split; [done|]. right. left. split; [done|]. right. by exists els.
      * split; [done|]. right. right. left. split; [done|]. right.
        destruct Hin as [e ?]. by exists els, e.
      * split; [done|]. by do 3 right.
  - intros _. split; [done|]. split; [done|]. split; [done|].
    intros e els Hway Hnull. simpl. unfold element_coords.
    rewrite Hway, Hnull. simpl. done.
  - intros _ Hidx Hty Hwf. destruct data as [|[| |els]]; simpl in *; try done.
    + by eexists.
    + destruct (filter_loop_total self (default_name config) ty max_km els [] Hidx Hty Hwf)
        as [pois ->].
      by eexists.
Qed.

Lemma element_poi_placed (self : t) (dn ty : string) (max_km : Q) (e : element) (la lo : Q) (p : POI) :
  element_coords e = Ok (Some la, Some lo) ->
  element_poi self dn ty max_km e la lo = Ok (Some p) ->
  placed_from self e p.
Proof.
  unfold element_poi. intros Hc Hp.
  destruct (RouteCalculator.find_nearest_route_point_index _ _) as [i|]; simpl in Hp; [|done].
  unfold RouteCalculator.getitem in Hp.
  destruct (points (route self) !! i) as [nearest|] eqn:Hn; simpl in Hp; [|done].
  destruct (Qleb _ max_km); [|done].
  destruct (RouteCalculator.calculate_distance_on_route _ nearest) as [along|]; simpl in Hp; [|done].
  unfold element_tags in Hp. unfold placed_from, tag.
  destruct (el_tags e) as [| |tags]; simpl in Hp; [|done|];
    (destruct (if String.eqb ty "camping_hotels" then _ else _) as [price|]; simpl in Hp; [|done]);
    injection Hp as <-; simpl;
    (split; [exact Hc|]; split; [|done]);
    exists nearest; (split; [by eapply list_elem_of_lookup_2|done]).
Qed.

Lemma filter_loop_placed (self : t) (dn ty : string) (max_km : Q) (all : list element) (els : list (option element)) (acc pois : list POI) :
  (forall e, Some e ∈ els -> e ∈ all) ->
  filter_loop self dn ty max_km els acc = Ok pois ->
  Forall (fun p => exists e, e ∈ all /\ placed_from self e p) acc ->
  Forall (fun p => exists e, e ∈ all /\ placed_from self e p) pois
  /\ (length pois <= length acc + length els)%nat
  /\ Forall is_Some els.
Proof.
  revert acc. induction els as [|[e|] els IH]; intros acc Hsub Hrun Hacc; simpl in Hrun.
  - injection Hrun as <-. split; [done|]. split; [simpl; lia|constructor].
  - assert (Hsub' : forall e', Some e' ∈ els -> e' ∈ all) by (intros e' He'; apply Hsub; by right).
    assert (Hskip : filter_loop self dn ty max_km els acc = Ok pois ->
              Forall (fun p => exists e, e ∈ all /\ placed_from self e p) pois
              /\ (length pois <= length acc + length (Some e :: els))%nat
              /\ Forall is_Some (Some e :: els)).
    { intros Hrun'. destruct (IH acc Hsub' Hrun' Hacc) as (? & ? & ?). split; [done|].
      split; [simpl; lia|]. constructor; [by eexists|done]. }
    destruct (element_coords e) as [[[la|] [lo|]]|] eqn:Hc; try done; try (by apply Hskip).
    destruct (element_poi self dn ty max_km e la lo) as [[p|]|ex] eqn:Hp.
    + destruct (IH (acc ++ [p]) Hsub' Hrun) as (Hall & Hlen & Hsome).
      { apply Forall_app. split; [exact Hacc|]. constructor; [|constructor].
        exists e. split; [apply Hsub; left|]. by eapply element_poi_placed. }
      split; [exact Hall|]. rewrite length_app in Hlen.
      split; [simpl in *; lia|]. constructor; [by eexists|done].
    + by apply Hskip.
    + destruct (skipped ex); [by apply Hskip|done].
  - done.
Qed.

(** What [filter_pois] returns is sorted ascending by [distance_on_route]
    and has at most one POI per element; each POI stands where its element
    stands (a node at its own coordinates, a way at its centre), carries
    the element's tags as they are, and its distance to the route is the
    distance to a point of the route. *)
Theorem filter_pois_sorted_and_placed (self : t) (data : overpass_data) (ty : string) (max_km : Q) (pois : list POI) :
  filter_pois self data ty max_km = Ok pois ->
  sorted_on_route pois
  /\ (length pois <= length (entries data))%nat
  /\ (forall p, p ∈ pois -> exists e, e ∈ entries data /\ placed_from self e p).
Proof.
  unfold filter_pois. intros Hrun.
  destruct (config_get ty POI_TYPE_CONFIG) as [config|]; [|done].
  destruct (get_elements data) as [els|] eqn:Hels; simpl in Hrun; [|done].
  destruct (filter_loop _ _ _ _ _ _) as [filtered|] eqn:Hloop; simpl in Hrun; [|done].
  injection Hrun as <-.
  destruct (filter_loop_placed self (default_name config) ty max_km (entries data) els [] filtered
              (fun e He => get_elements_entries data els e Hels He) Hloop (Forall_nil_2 _))
    as (Hall & Hlen & Hsome).
  split; [apply sort_on_route_sorted|]. split.
  - rewrite (Permutation_length (sort_by_perm Qltb distance_on_route filtered)).
    rewrite <- (get_elements_length data els Hels Hsome). simpl in Hlen. lia.
  - intros p Hp. apply sort_by_elem in Hp. rewrite Forall_forall in Hall. by apply Hall.
Qed.

End FilterMore.

Lemma filter_pois_sorted_witness :
  sorted_on_route sample_filtered
  /\ (length sample_filtered <= 3)%nat
  /\ (forall p, p ∈ sample_filtered ->
        exists e, e ∈ entries sample_data /\ placed_from (env := scripted []) sample_client e p).
Proof.
  apply (filter_pois_sorted_and_placed (env := scripted []) sample_client sample_data "gas_stations" 2).
  vm_compute. reflexivity.
Defined.

(** Replies with [null] on the sample route: a body or an element that
    is [null], tags that are [null] on a node near the route (on a node
    that is too far the tags are not read), elements that are [null],
    the centre of a way that is [null]. *)
Example filter_pois_null_replies :
  OverpassClient.filter_pois (env := scripted []) sample_client JsonNull "gas_stations" 2
  = Raise AttributeError
  /\ OverpassClient.filter_pois (env := scripted []) sample_client
       (JsonObject (Value [sample_node 0 1 ∅; None])) "gas_stations" 2
     = Raise AttributeError
  /\ OverpassClient.filter_pois (env := scripted []) sample_client
       (JsonObject (Value [null_tags_node 0.001 0.001])) "gas_stations" 2
     = Raise AttributeError
  /\ OverpassClient.filter_pois (env := scripted []) sample_client
       (JsonObject (Value [null_tags_node 5 5])) "gas_stations" 2
     = Ok []
  /\ OverpassClient.filter_pois (env := scripted []) sample_client (JsonObject Null) "gas_stations" 2
     = Raise TypeError
  /\ OverpassClient.filter_pois (env := scripted []) sample_client
       (JsonObject (Value [null_center_way])) "gas_stations" 2
     = Raise TypeError
  /\ OverpassClient.filter_pois (env := scripted []) sample_client (JsonObject Missing) "gas_stations" 2
     = Ok [].
Proof. repeat split; vm_compute; reflexivity. Qed.

(** ** [query_poi_type]: the requests one call can make *)

Section QueryBudget.
Context {env : Env}.
Import OverpassClient.

Lemma posts_app (a b : trace) : posts (a ++ b) = (posts a + posts b)%nat.
Proof. unfold posts. by rewrite List.filter_app, length_app. Qed.

Lemma retry_or_break_budget (attempt n : nat) (e : exn) (w : Q) :
  match retry_or_break attempt n e w with
  | Continue e' w' => (S attempt < n)%nat /\ e' = e /\ w' = w
  | Break e' => e' = e
  | Return _ => False
  end.
Proof.
  unfold retry_or_break. destruct (attempt <? n - 1)%nat eqn:Hlt; [|done].
  apply Nat.ltb_lt in Hlt. split; [lia|done].
Qed.

Lemma classify_budget (attempt n : nat) (r : reply) :
  match classify attempt n r with
  | Continue e w =>
      (S attempt < n)%nat /\ query_error e /\ (w = 5%Q \/ w = (2 ^ Z.of_nat attempt)%Q)
  | Break e => query_error e
  | Return _ => True
  end.
Proof.
  assert (Hretry : forall e w, query_error e -> w = 5%Q \/ w = (2 ^ Z.of_nat attempt)%Q ->
            match retry_or_break attempt n e w with
            | Continue e' w' =>
                (S attempt < n)%nat /\ query_error e'
                /\ (w' = 5%Q \/ w' = (2 ^ Z.of_nat attempt)%Q)
            | Break e' => query_error e'
            | Return _ => True
            end).
  { intros e w He Hw. pose proof (retry_or_break_budget attempt n e w) as Hrb.
    destruct (retry_or_break attempt n e w); [done|by destruct Hrb as (? & -> & ->)|by subst]. }
  unfold classify. destruct r as [| | |status_code body]; try (apply Hretry; [done|by right]).
  destruct ((400 <=? status_code)%Z && (status_code <? 600)%Z); [|by destruct body].
  destruct (status_code =? 429)%Z; [apply Hretry; [done|by left]|].
  destruct (status_code =? 400)%Z; [done|].
  destruct ((500 <=? status_code)%Z && (status_code <? 600)%Z); [|done].
  apply Hretry; [done|by right].
Qed.

Lemma attempt_loop_budget (urls : list string) (u ty : string) (box : bbox) (n : nat) (range : list nat) (le : option exn) (tr : trace) :
  u ∈ urls -> Forall (fun attempt => (attempt < n)%nat) range ->
  from_option query_error True le ->
  exists new, snd (attempt_loop u ty box n range le tr) = tr ++ new
    /\ (posts new <= length range)%nat
    /\ Forall (within_budget urls ty box n) new
    /\ from_option query_error True (snd (fst (attempt_loop u ty box n range le tr))).
Proof.
  intros Hu. revert le tr. induction range as [|attempt range IH]; intros le tr Hrange Hle.
  { exists []. simpl. by rewrite app_nil_r. }
  apply Forall_cons in Hrange as [Hattempt Hrange]. cbn [attempt_loop].
  set (timeout := (45 + Z.of_nat attempt * 15)%Z).
  set (r := requests_post tr u ty box timeout).
  assert (Hpost : within_budget urls ty box n (Post u ty box timeout r)).
  { simpl. repeat split; try done. by exists attempt. }
  pose proof (classify_budget attempt n r) as Hc.
  destruct (classify attempt n r) as [data|e w|e].
  - exists [Post u ty box timeout r]. simpl.
    split; [done|]. split; [unfold posts; simpl; lia|]. split; [by constructor|done].
  - destruct Hc as (Hnext & He & Hw).
    destruct (IH (Some e) ((tr ++ [Post u ty box timeout r]) ++ [Sleep w]) Hrange He)
      as (new & Htr & Hposts & Hnew & Hle').
    exists (Post u ty box timeout r :: Sleep w :: new).
    split; [by rewrite Htr, <- !app_assoc|]. split; [|split; [|exact Hle']].
    + change (Post u ty box timeout r :: Sleep w :: new)
        with ([Post u ty box timeout r; Sleep w] ++ new).
      rewrite posts_app. unfold posts at 1. simpl. lia.
    + constructor; [exact Hpost|]. constructor; [|exact Hnew].
      simpl. by exists attempt.
  - exists [Post u ty box timeout r]. simpl.
    split; [done|]. split; [unfold posts; simpl; lia|]. split; [by constructor|done].
Qed.

Lemma seq_below (n : nat) : Forall (fun attempt => (attempt < n)%nat) (seq 0 n).
Proof. apply Forall_forall. intros k Hk. apply elem_of_seq in Hk. lia. Qed.

Lemma endpoint_loop_budget (all urls : list string) (ty : string) (box : bbox) (n : nat) (le : option exn) (tr : trace) :
  urls ⊆ all -> from_option query_error True le ->
  exists new, snd (endpoint_loop urls ty box n le tr) = tr ++ new
    /\ (posts new <= length urls * n)%nat
    /\ Forall (within_budget all ty box n) new
    /\ (forall e, fst (endpoint_loop urls ty box n le tr) = Raise e -> query_error e).
Proof.
  revert le tr. induction urls as [|u urls IH]; intros le tr Hsub Hle.
  { exists []. simpl. rewrite app_nil_r. split; [done|]. split; [unfold posts; simpl; lia|].
    split; [done|]. intros e [= <-]. by destruct le. }
  cbn [endpoint_loop].
  destruct (attempt_loop_budget all u ty box n (seq 0 n) le tr) as (new & Htr & Hposts & Hnew & Hle').
  { apply Hsub. left. } { apply seq_below. } { exact Hle. }
  rewrite length_seq in Hposts.
  destruct (attempt_loop u ty box n (seq 0 n) le tr) as [[[data|] le'] tr']; simpl in *.
  - exists new. split; [done|]. split; [lia|]. split; [done|done].
  - destruct (IH le' tr') as (rest & Htr' & Hposts' & Hrest & Hres).
    { intros x Hx. apply Hsub. by right. } { exact Hle'. }
    exists (new ++ rest). split; [by rewrite Htr', Htr, <- app_assoc|].
    split; [rewrite posts_app; lia|]. split; [by apply Forall_app|exact Hres].
Qed.

Lemma posts_at_app (u : string) (a b : trace) : posts_at u (a ++ b) = (posts_at u a + posts_at u b)%nat.
Proof. unfold posts_at. by rewrite List.filter_app, length_app. Qed.

Lemma posts_for_app (u ty : string) (a b : trace) :
  posts_for u ty (a ++ b) = (posts_for u ty a + posts_for u ty b)%nat.
Proof. unfold posts_for. by rewrite List.filter_app, length_app. Qed.

(** The attempts at an endpoint from attempt [a] on are at most
    [max_retries - a] requests, all of them to that endpoint and for the
    category asked for. *)
Lemma attempts_from_posts (u ty : string) (box : bbox) (n a : nat) (block : trace) (u' ty' : string) :
  attempts_from u ty box n a block ->
  (posts_at u' block <= if String.eqb u u' then n - a else 0)%nat
  /\ (posts_for u' ty' block <= if String.eqb u u' && String.eqb ty ty' then n - a else 0)%nat
  /\ (posts block <= n - a)%nat
  /\ block <> [].
Proof.
  induction 1 as [a r Ha|a r w rest Ha Hw Hrest (IH1 & IH2 & IH3 & _)].
  - unfold posts_at, posts_for, posts. simpl.
    destruct (String.eqb u u'), (String.eqb ty ty'); simpl; repeat split; try lia; done.
  - unfold posts_at, posts_for, posts in *. simpl.
    destruct (String.eqb u u'), (String.eqb ty ty'); simpl in *; repeat split; try lia; done.
Qed.

Lemma attempt_loop_blocks (u ty : string) (box : bbox) (n k a : nat) (le : option exn) (tr : trace) :
  (a + k = n)%nat ->
  exists new, snd (attempt_loop u ty box n (seq a k) le tr) = tr ++ new
    /\ ((k = 0%nat /\ new = []) \/ ((0 < k)%nat /\ attempts_from u ty box n a new)).
Proof.
  revert a le tr. induction k as [|k IH]; intros a le tr Hn.
  { exists []. simpl. rewrite app_nil_r. split; [done|by left]. }
  cbn [seq attempt_loop].
  set (timeout := (45 + Z.of_nat a * 15)%Z).
  set (r := requests_post tr u ty box timeout).
  pose proof (classify_budget a n r) as Hc.
  destruct (classify a n r) as [data|e w|e].
  - exists [Post u ty box timeout r]. simpl. split; [done|]. right. split; [lia|].
    constructor. lia.
  - destruct Hc as (Hnext & _ & Hw).
    destruct (IH (S a) (Some e) ((tr ++ [Post u ty box timeout r]) ++ [Sleep w]) ltac:(lia))
      as (rest & Htr & [[-> _]|[_ Hrest]]); [lia|].
    exists (Post u ty box timeout r :: Sleep w :: rest).
    split; [by rewrite Htr, <- !app_assoc|]. right. split; [lia|].
    by constructor.
  - exists [Post u ty box timeout r]. simpl. split; [done|]. right. split; [lia|].
    constructor. lia.
Qed.

Lemma endpoint_loop_no_retries (urls : list string) (ty : string) (box : bbox) (le : option exn) (tr : trace) :
  snd (endpoint_loop urls ty box 0 le tr) = tr
  /\ exists e, fst (endpoint_loop urls ty box 0 le tr) = Raise e.
Proof.
  revert le tr. induction urls as [|u urls IH]; intros le tr; simpl; [split; [done|by eexists]|].
  apply IH.
Qed.

Lemma endpoint_loop_blocks (urls : list string) (ty : string) (box : bbox) (n : nat) (le : option exn) (tr : trace) :
  (0 < n)%nat ->
  exists new, snd (endpoint_loop urls ty box n le tr) = tr ++ new
    /\ endpoint_blocks urls ty box n new.
Proof.
  intros Hn. revert le tr. induction urls as [|u urls IH]; intros le tr.
  { exists []. simpl. rewrite app_nil_r. split; [done|]. exists []. split; [done|constructor]. }
  cbn [endpoint_loop].
  destruct (attempt_loop_blocks u ty box n n 0 le tr eq_refl) as (new & Htr & [[-> _]|[_ Hblock]]);
    [lia|].
  destruct (attempt_loop u ty box n (seq 0 n) le tr) as [[[data|] le'] tr']; simpl in Htr; subst tr'.
  - exists new. split; [done|]. exists [new]. simpl. rewrite app_nil_r. split; [done|].
    constructor; [exact Hblock|constructor].
  - destruct (IH le' (tr ++ new)) as (rest & Htr' & blocks & -> & Hblocks).
    exists (new ++ concat blocks). split; [by rewrite Htr', <- app_assoc|].
    exists (new :: blocks). split; [done|]. simpl. by constructor.
Qed.

Lemma occurrences_cons (x y : string) (l : list string) :
  occurrences x (y :: l) = ((if String.eqb x y then 1 else 0) + occurrences x l)%nat.
Proof. unfold occurrences. simpl. by destruct (String.eqb x y). Qed.

Lemma occurrences_take (x : string) (k : nat) (l : list string) :
  (occurrences x (take k l) <= occurrences x l)%nat.
Proof.
  revert k. induction l as [|y l IH]; intros [|k]; simpl; try (unfold occurrences; simpl; lia).
  rewrite !occurrences_cons. specialize (IH k). lia.
Qed.

Lemma occurrences_NoDup (x : string) (l : list string) : NoDup l -> (occurrences x l <= 1)%nat.
Proof.
  induction 1 as [|y l Hy _ IH]; [unfold occurrences; simpl; lia|]. rewrite occurrences_cons.
  destruct (String.eqb x y) eqn:Hxy; [|lia].
  apply String.eqb_eq in Hxy. subst y.
  assert (occurrences x l = 0)%nat; [|lia].
  unfold occurrences. clear IH. induction l as [|z l IH]; [done|]. simpl.
  destruct (String.eqb x z) eqn:Hxz.
  - apply String.eqb_eq in Hxz. subst z. exfalso. apply Hy. left.
  - apply IH. intros Hin. apply Hy. by right.
Qed.

(** Per endpoint and per category: the requests of a call. *)
Lemma endpoint_blocks_posts (urls : list string) (ty : string) (box : bbox) (n : nat) (new : trace) (u' ty' : string) :
  endpoint_blocks urls ty box n new ->
  (posts_at u' new <= occurrences u' urls * n)%nat
  /\ (posts_for u' ty' new <= if String.eqb ty ty' then occurrences u' urls * n else 0)%nat
  /\ (posts new <= length urls * n)%nat.
Proof.
  intros (blocks & -> & Hblocks).
  assert (Hgen : forall us, Forall2 (fun u block => attempts_from u ty box n 0 block) us blocks ->
            (posts_at u' (concat blocks) <= occurrences u' us * n)%nat
            /\ (posts_for u' ty' (concat blocks)
                <= if String.eqb ty ty' then occurrences u' us * n else 0)%nat
            /\ (posts (concat blocks) <= length us * n)%nat).
  { clear Hblocks. intros us Hall. induction Hall as [|u block us blocks Hblock _ IH].
    - unfold posts_at, posts_for, posts. simpl. destruct (String.eqb ty ty'); lia.
    - destruct (attempts_from_posts u ty box n 0 block u' ty' Hblock) as (H1 & H2 & H3 & _).
      destruct IH as (IH1 & IH2 & IH3).
      simpl concat. rewrite posts_at_app, posts_for_app, posts_app, occurrences_cons.
      rewrite (String.eqb_sym u' u). simpl length.
      destruct (String.eqb u u'), (String.eqb ty ty'); simpl in *; repeat split; lia. }
  destruct (Hgen _ Hblocks) as (H1 & H2 & H3).
  pose proof (occurrences_take u' (length blocks) urls) as Hocc.
  pose proof (length_take_le urls (length blocks)) as Hlen.
  assert (Hlen' : (length (take (length blocks) urls) <= length urls)%nat).
  { rewrite length_take. lia. }
  split; [nia|]. split; [destruct (String.eqb ty ty'); [nia|lia]|nia].
Qed.

(** One call of [query_poi_type] only adds to what happened. What it
    adds is, for the endpoints of the client in their order up to the
    one that answers, the attempts at that endpoint from attempt 0 on:
    each attempt is a request for the category and box asked for, with
    the timeout [45 + 15 * attempt]; an attempt that is retried is
    followed by a sleep of 5 or [2 ** attempt] seconds and by the next
    attempt at the same endpoint, which is below [max_retries]. So at
    most [max_retries] requests go to an endpoint (for each time it
    stands in the list). What the call raises is a [ValueError], a
    [ConnectionError] or a [TimeoutError]. With [max_retries = 0], or for
    a category that is not configured, it raises without a request. *)
Theorem query_poi_type_request_budget (self : t) (box : bbox) (ty : string) (max_retries : nat) (tr : trace) :
  exists new, snd (query_poi_type self box ty max_retries tr) = tr ++ new
    /\ endpoint_blocks (overpass_urls self) ty box max_retries new
    /\ (forall u, posts_at u new <= occurrences u (overpass_urls self) * max_retries)%nat
    /\ (NoDup (overpass_urls self) -> forall u, (posts_at u new <= max_retries)%nat)
    /\ (posts new <= length (overpass_urls self) * max_retries)%nat
    /\ (forall e, fst (query_poi_type self box ty max_retries tr) = Raise e -> query_error e)
    /\ (max_retries = 0%nat \/ in_config ty = false ->
        new = [] /\ exists e, fst (query_poi_type self box ty max_retries tr) = Raise e).
Proof.
  assert (Hempty : endpoint_blocks (overpass_urls self) ty box max_retries []).
  { exists []. split; [done|constructor]. }
  assert (Hcount : forall new, endpoint_blocks (overpass_urls self) ty box max_retries new ->
            (forall u, posts_at u new <= occurrences u (overpass_urls self) * max_retries)%nat
            /\ (NoDup (overpass_urls self) -> forall u, (posts_at u new <= max_retries)%nat)
            /\ (posts new <= length (overpass_urls self) * max_retries)%nat).
  { intros new Hnew. split; [|split].
    - intros u. by destruct (endpoint_blocks_posts _ _ _ _ _ u ty Hnew) as (? & _ & _).
    - intros Hnd u. destruct (endpoint_blocks_posts _ _ _ _ _ u ty Hnew) as (Hu & _ & _).
      pose proof (occurrences_NoDup u _ Hnd). nia.
    - by destruct (endpoint_blocks_posts _ _ _ _ _ "" ty Hnew) as (_ & _ & ?). }
  unfold query_poi_type. destruct (in_config ty) eqn:Hty; simpl.
  - destruct (endpoint_loop_budget (overpass_urls self) (overpass_urls self) ty box
                max_retries None tr) as (new & Htr & _ & _ & Hres); [done|done|].
    destruct (Nat.eq_dec max_retries 0) as [->|Hpos].
    + destruct (endpoint_loop_no_retries (overpass_urls self) ty box None tr) as [Htr0 Hraise].
      exists []. rewrite app_nil_r. split; [exact Htr0|]. split; [exact Hempty|].
      destruct (Hcount [] Hempty) as (? & ? & ?).
      split; [done|]. split; [done|]. split; [done|]. split; [exact Hres|].
      intros _. split; [done|exact Hraise].
    + destruct (endpoint_loop_blocks (overpass_urls self) ty box max_retries None tr ltac:(lia))
        as (new' & Htr' & Hblocks).
      exists new'. split; [exact Htr'|]. split; [exact Hblocks|].
      destruct (Hcount new' Hblocks) as (? & ? & ?).
      split; [done|]. split; [done|]. split; [done|]. split; [exact Hres|].
      intros [?|?]; [lia|done].
  - exists []. rewrite app_nil_r. split; [done|]. split; [exact Hempty|].
    destruct (Hcount [] Hempty) as (? & ? & ?).
    split; [done|]. split; [done|]. split; [done|].
    split; [by intros e [= <-]|]. intros _. split; [done|by eexists].
Qed.

End QueryBudget.

(** ** [query_all_poi_types]: what it returns and what it reports *)

Section QueryAll.
Context {env : Env}.
Import OverpassClient.

Lemma filter_pois_delivered (self : t) (data : overpass_data) (ty : string) (max_km : Q) (pois : list POI) :
  filter_pois self data ty max_km = Ok pois ->
  in_config ty = true
  /\ Forall (fun p => poi_type p = ty /\ truthy_str (name p) = true
                      /\ (distance_to_route p <= max_km)%Q) pois.
Proof.
  unfold filter_pois, in_config.
  destruct (config_get ty POI_TYPE_CONFIG) as [config|] eqn:Hcfg; [|done].
  destruct (get_elements data) as [els|] eqn:Hels; simpl; [|done].
  destruct (filter_loop _ _ _ _ _ _) as [filtered|] eqn:Hloop; simpl; [|done].
  intros [= <-]. split; [done|].
  pose proof (filter_loop_built self config ty max_km (entries data) els [] filtered
                (fun e He => get_elements_entries data els e Hels He) Hloop
                (Forall_nil_2 _)) as Hall.
  apply Forall_forall. intros p Hp. apply sort_by_elem in Hp.
  rewrite Forall_forall in Hall. destruct (Hall p Hp) as (e & _ & Hname & Hty & Hd).
  split; [done|]. split; [|done].
  rewrite Hname. apply name_or_default_nonempty. by eapply default_name_nonempty.
Qed.

Lemma budget_no_callbacks (urls : list string) (ty : string) (box : bbox) (n : nat) (new : trace) :
  Forall (within_budget urls ty box n) new ->
  omap progress_of new = [] /\ omap batch_of new = [].
Proof.
  induction 1 as [|x new Hx _ [IH1 IH2]]; [done|].
  destruct x; simpl in *; try done.
Qed.

Lemma query_poi_type_events (self : t) (box : bbox) (ty : string) (n : nat) (tr : trace) :
  exists new, snd (query_poi_type self box ty n tr) = tr ++ new
    /\ (posts new <= length (overpass_urls self) * n)%nat
    /\ omap progress_of new = [] /\ omap batch_of new = [].
Proof.
  unfold query_poi_type. destruct (in_config ty); simpl.
  - destruct (endpoint_loop_budget (overpass_urls self) (overpass_urls self) ty (box)
                n None tr) as (new & Htr & Hposts & Hnew & _); [done|done|].
    exists new. split; [done|]. split; [done|]. by eapply budget_no_callbacks.
  - exists []. rewrite app_nil_r. split; [done|]. split; [unfold posts; simpl; lia|done].
Qed.

(** The requests of one call, per endpoint and category. *)
Lemma query_poi_type_posts_for (self : t) (box : bbox) (ty : string) (n : nat) (tr : trace) (u ty' : string) :
  exists new, snd (query_poi_type self box ty n tr) = tr ++ new
    /\ (posts_for u ty' new
        <= if String.eqb ty ty' then occurrences u (overpass_urls self) * n else 0)%nat.
Proof.
  assert (Hnil : (posts_for u ty' []
                  <= if String.eqb ty ty' then occurrences u (overpass_urls self) * n else 0)%nat).
  { unfold posts_for. simpl. destruct (String.eqb ty ty'); lia. }
  unfold query_poi_type. destruct (in_config ty); simpl.
  - destruct (Nat.eq_dec n 0) as [->|Hpos].
    + destruct (endpoint_loop_no_retries (overpass_urls self) ty box None tr) as [Htr _].
      exists []. rewrite app_nil_r. by split.
    + destruct (endpoint_loop_blocks (overpass_urls self) ty box n None tr ltac:(lia))
        as (new & Htr & Hblocks).
      exists new. split; [exact Htr|].
      by destruct (endpoint_blocks_posts _ _ _ _ _ u ty' Hblocks) as (_ & ? & _).
  - exists []. rewrite app_nil_r. by split.
Qed.

Lemma quiet_posts_for (u ty : string) (gap : trace) : quiet gap -> posts_for u ty gap = 0%nat.
Proof.
  unfold quiet, posts_for. induction 1 as [|e gap He _ IH]; [done|].
  simpl. destruct e; simpl in *; try done.
Qed.

Lemma type_body_posts_for (self : t) (a : query_args) (types : list string) (i : nat) (ty : string) (all : list POI) (tr : trace) (u ty' : string) :
  exists new, snd (snd (type_body self a types i ty (all, tr))) = tr ++ new
    /\ (posts_for u ty' new
        <= if String.eqb ty ty' then occurrences u (overpass_urls self) * 3 else 0)%nat.
Proof.
  destruct (type_body_run self a types i ty all tr)
    as (r & gap & gap' & Hty & Hstart & Hgap & Hout & Hbody & Hgap').
  rewrite Hbody. simpl.
  assert (Hquery : forall res, query_poi_type self (arg_bbox a) (run_type r) 3 (run_start r)
                               = (res, run_end r) ->
            exists new, run_end r ++ gap' = tr ++ new
              /\ (posts_for u ty' new
                  <= if String.eqb ty ty' then occurrences u (overpass_urls self) * 3 else 0)%nat).
  { intros res Hq.
    destruct (query_poi_type_posts_for self (arg_bbox a) (run_type r) 3 (run_start r) u ty')
      as (qnew & Hqtr & Hqn).
    rewrite Hq in Hqtr. simpl in Hqtr. rewrite Hty in Hqn.
    exists (gap ++ qnew ++ gap'). split; [by rewrite Hqtr, Hstart, <- !app_assoc|].
    rewrite !posts_for_app, (quiet_posts_for u ty' gap Hgap), (quiet_posts_for u ty' gap' Hgap').
    lia. }
  destruct Hout as [(callback & ex & _ & _ & Hend & _)|[_ [(ex & Hq & _)|(data & Hq & _)]]].
  - exists (gap ++ gap'). split; [by rewrite Hend, Hstart, <- app_assoc|].
    rewrite posts_for_app, (quiet_posts_for u ty' gap Hgap), (quiet_posts_for u ty' gap' Hgap').
    destruct (String.eqb ty ty'); lia.
  - by eapply Hquery.
  - by eapply Hquery.
Qed.

Lemma type_loop_posts_for (self : t) (a : query_args) (types remaining : list string) (i : nat) (all : list POI) (tr : trace) (u ty' : string) :
  exists new, snd (type_loop self a types i remaining (all, tr)) = tr ++ new
    /\ (posts_for u ty' new
        <= occurrences ty' remaining * (occurrences u (overpass_urls self) * 3))%nat.
Proof.
  revert i all tr. induction remaining as [|ty remaining IH]; intros i all tr.
  { exists []. simpl. rewrite app_nil_r. split; [done|]. unfold posts_for. simpl. lia. }
  cbn [type_loop].
  destruct (type_body_posts_for self a types i ty all tr u ty') as (new1 & Hbody & Hn1).
  destruct (type_body self a types i ty (all, tr)) as [res [all1 tr1]]. simpl in Hbody. subst tr1.
  cbv beta iota.
  destruct (IH (S i) all1 (tr ++ new1)) as (new2 & Hloop & Hn2).
  exists (new1 ++ new2). split; [by rewrite Hloop, <- app_assoc|].
  rewrite posts_for_app, occurrences_cons, (String.eqb_sym ty' ty).
  destruct (String.eqb ty ty'); lia.
Qed.

(** One category: what its [try] block adds to the list and to the
    trace. *)
Lemma type_body_shape (self : t) (a : query_args) (types : list string) (i : nat) (ty : string) (all : list POI) (tr : trace) :
  exists added new,
    snd (type_body self a types i ty (all, tr)) = (all ++ added, tr ++ new)
    /\ omap progress_of new
       = match progress_callback a with Some _ => [(ty, i, length types)] | None => [] end
    /\ ((omap batch_of new = [] /\ (added = [] \/ batch_callback a = None))
        \/ (omap batch_of new = [(ty, added)] /\ is_Some (batch_callback a)))
    /\ (posts new <= length (overpass_urls self) * 3)%nat
    /\ Forall (fun p => poi_type p = ty /\ in_config ty = true /\ truthy_str (name p) = true
                        /\ (distance_to_route p <= poi_max_distance_for a ty)%Q) added.
Proof.
  assert (Hp : exists pnew, snd (call_progress a ty i (length types) tr) = tr ++ pnew
             /\ omap progress_of pnew
                = match progress_callback a with Some _ => [(ty, i, length types)] | None => [] end
             /\ omap batch_of pnew = [] /\ posts pnew = 0%nat).
  { unfold call_progress. destruct (progress_callback a).
    - by exists [Progress ty i (length types)].
    - exists []. by rewrite app_nil_r. }
  destruct Hp as (pnew & Hptr & Hpp & Hpb & Hpn).
  unfold type_body.
  destruct (call_progress a ty i (length types) tr) as [[[]|ex] tr0]; simpl in Hptr; subst tr0.
  2: { exists [], pnew. rewrite app_nil_r. simpl. rewrite Hpn.
       split; [done|]. split; [done|]. split; [left; split; [done|by left]|]. split; [lia|done]. }
  destruct (query_poi_type_events self (arg_bbox a) ty 3 (tr ++ pnew))
    as (qnew & Hqtr & Hqn & Hqp & Hqb).
  assert (Hsum : omap progress_of (pnew ++ qnew)
                 = match progress_callback a with Some _ => [(ty, i, length types)] | None => [] end
               /\ omap batch_of (pnew ++ qnew) = []
               /\ (posts (pnew ++ qnew) <= length (overpass_urls self) * 3)%nat).
  { rewrite !omap_app, posts_app, Hqp, Hqb, Hpb, Hpn, app_nil_r. split; [done|]. split; [done|lia]. }
  destruct Hsum as (Hsp & Hsb & Hsn).
  destruct (query_poi_type self (arg_bbox a) ty 3 (tr ++ pnew)) as [[data|ex] tr1];
    simpl in Hqtr; subst tr1; rewrite <- app_assoc.
  2: { exists [], (pnew ++ qnew). rewrite app_nil_r. simpl.
       split; [done|]. split; [done|]. split; [left; split; [done|by left]|]. split; [done|done]. }
  destruct (filter_pois self data ty (poi_max_distance_for a ty)) as [filtered|ex] eqn:Hf.
  2: { exists [], (pnew ++ qnew). rewrite app_nil_r. simpl.
       split; [done|]. split; [done|]. split; [left; split; [done|by left]|]. split; [done|done]. }
  apply filter_pois_delivered in Hf as [Hcfg Hall].
  set (added := deduplicate_pois filtered (deduplication_radius_km a) (poi_settings a)).
  assert (Hadded : Forall (fun p => poi_type p = ty /\ in_config ty = true
                     /\ truthy_str (name p) = true
                     /\ (distance_to_route p <= poi_max_distance_for a ty)%Q) added).
  { apply Forall_forall. intros p Hp.
    assert (p ∈ filtered) as Hin by (eapply elem_of_submseteq; [exact Hp|apply dedup_submseteq]).
    rewrite Forall_forall in Hall. destruct (Hall p Hin) as (? & ? & ?). done. }
  exists added.
  assert (Hb : exists bnew, snd (call_batch a ty added (tr ++ pnew ++ qnew))
                 = tr ++ (pnew ++ qnew) ++ bnew
             /\ omap progress_of bnew = [] /\ posts bnew = 0%nat
             /\ ((omap batch_of bnew = [] /\ batch_callback a = None)
                 \/ (omap batch_of bnew = [(ty, added)] /\ is_Some (batch_callback a)))).
  { unfold call_batch. destruct (batch_callback a).
    - exists [Batch ty added]. simpl. rewrite <- !app_assoc.
      split; [done|]. split; [done|]. split; [done|]. right. split; [done|by eexists].
    - exists []. simpl. rewrite !app_nil_r. split; [done|]. split; [done|]. split; [done|]. by left. }
  destruct Hb as (bnew & Hbtr & Hbp & Hbn & Hbb).
  assert (Hsum : forall snew, omap progress_of snew = [] -> omap batch_of snew = [] ->
            posts snew = 0%nat ->
            omap progress_of ((pnew ++ qnew) ++ bnew ++ snew)
            = match progress_callback a with Some _ => [(ty, i, length types)] | None => [] end
            /\ ((omap batch_of ((pnew ++ qnew) ++ bnew ++ snew) = []
                 /\ (added = [] \/ batch_callback a = None))
                \/ (omap batch_of ((pnew ++ qnew) ++ bnew ++ snew) = [(ty, added)]
                    /\ is_Some (batch_callback a)))
            /\ (posts ((pnew ++ qnew) ++ bnew ++ snew) <= length (overpass_urls self) * 3)%nat).
  { intros snew Hs1 Hs2 Hs3.
    rewrite !omap_app, !posts_app, Hpp, Hqp, Hpb, Hqb, Hbp, Hs1, Hs2, Hpn, Hbn, Hs3, !app_nil_r.
    simpl. split; [done|]. split; [|lia].
    destruct Hbb as [[-> ?]|[-> ?]]; [left; split; [done|by right]|right; by split]. }
  destruct (call_batch a ty added (tr ++ pnew ++ qnew)) as [[[]|ex] tr2]; simpl in Hbtr; subst tr2.
  2: { exists ((pnew ++ qnew) ++ bnew ++ []). rewrite app_nil_r at 1. simpl.
       split; [done|]. destruct (Hsum [] eq_refl eq_refl eq_refl) as (? & ? & ?). done. }
  destruct (bool_decide (Some ty ≠ last types)); simpl.
  - exists ((pnew ++ qnew) ++ bnew ++ [Sleep (delay_seconds a)]).
    split; [by rewrite <- !app_assoc|].
    destruct (Hsum [Sleep (delay_seconds a)] eq_refl eq_refl eq_refl) as (? & ? & ?). done.
  - exists ((pnew ++ qnew) ++ bnew ++ []). rewrite app_nil_r at 1.
    split; [done|]. destruct (Hsum [] eq_refl eq_refl eq_refl) as (? & ? & ?). done.
Qed.

Lemma type_loop_shape (self : t) (a : query_args) (types remaining : list string) (i : nat) (all : list POI) (tr : trace) :
  exists added new,
    type_loop self a types i remaining (all, tr) = (all ++ added, tr ++ new)
    /\ omap progress_of new
       = match progress_callback a with
         | Some _ => imap (fun k ty => (ty, (i + k)%nat, length types)) remaining
         | None => []
         end
    /\ (is_Some (batch_callback a) -> concat (map snd (omap batch_of new)) = added)
    /\ (batch_callback a = None -> omap batch_of new = [])
    /\ map fst (omap batch_of new) `sublist_of` remaining
    /\ (posts new <= length remaining * (length (overpass_urls self) * 3))%nat
    /\ Forall (fun p => poi_type p ∈ remaining /\ in_config (poi_type p) = true
                        /\ truthy_str (name p) = true
                        /\ (distance_to_route p <= poi_max_distance_for a (poi_type p))%Q) added.
Proof.
  revert i all tr. induction remaining as [|ty remaining IH]; intros i all tr.
  { exists [], []. simpl. rewrite !app_nil_r. repeat (split; [by destruct (progress_callback a)|]).
    done. }
  cbn [type_loop].
  destruct (type_body_shape self a types i ty all tr)
    as (added1 & new1 & Hbody & Hp1 & Hb1 & Hn1 & Hall1).
  destruct (type_body self a types i ty (all, tr)) as [res st']. simpl in Hbody. subst st'.
  cbv beta iota.
  destruct (IH (S i) (all ++ added1) (tr ++ new1))
    as (added2 & new2 & Hloop & Hp2 & Hb2 & Hb2' & Hsub2 & Hn2 & Hall2).
  exists (added1 ++ added2), (new1 ++ new2).
  split; [rewrite <- !app_assoc in Hloop; exact Hloop|]. rewrite !omap_app, posts_app. split; [|split; [|split; [|split; [|split]]]].
  - rewrite Hp1, Hp2. destruct (progress_callback a); [|done]. simpl.
    rewrite Nat.add_0_r. f_equal. apply imap_ext. intros k ty' _. simpl.
    by rewrite Nat.add_succ_r.
  - intros Hcb. rewrite map_app, concat_app, (Hb2 Hcb). f_equal.
    destruct Hb1 as [[-> [->|Hnone]]|[-> _]]; [done| |simpl; by rewrite app_nil_r].
    rewrite Hnone in Hcb. by destruct Hcb.
  - intros Hnone. rewrite (Hb2' Hnone), app_nil_r.
    destruct Hb1 as [[-> _]|[_ Hsome]]; [done|]. rewrite Hnone in Hsome. by destruct Hsome.
  - rewrite map_app. destruct Hb1 as [[-> _]|[-> _]]; simpl.
    + by apply sublist_cons.
    + by apply sublist_skip.
  - simpl. lia.
  - apply Forall_app. split.
    + eapply Forall_impl; [exact Hall1|]. intros p (Hty & ? & ? & ?). rewrite Hty.
      split; [left|done].
    + eapply Forall_impl; [exact Hall2|]. intros p (? & ? & ? & ?). split; [by right|done].
Qed.

Lemma select_poi_types_cases (sel : option (list string)) :
  match select_poi_types sel with
  | Ok types =>
      Forall (fun ty => in_config ty = true) types
      /\ (forall tys, sel = Some tys -> tys <> [] -> types = tys)
  | Raise ex =>
      ex = ValueError "Unknown POI types"
      /\ exists tys ty, sel = Some tys /\ ty ∈ tys /\ in_config ty = false
  end.
Proof.
  unfold select_poi_types. destruct sel as [[|ty tys]|].
  - split; [by vm_compute; repeat constructor|]. by intros tys [= <-].
  - destruct (filter (fun ty' => in_config ty' = false) (ty :: tys)) as [|bad rest] eqn:Hf.
    + split; [|by intros tys' [= <-]].
      apply Forall_forall. intros c Hc. destruct (in_config c) eqn:Hcfg; [done|].
      assert (c ∈ filter (fun ty' => in_config ty' = false) (ty :: tys)) as Hin
        by (by apply list_elem_of_filter).
      rewrite Hf in Hin. by apply elem_of_nil in Hin.
    + split; [done|]. exists (ty :: tys), bad. split; [done|].
      assert (bad ∈ filter (fun ty' => in_config ty' = false) (ty :: tys)) as Hin
        by (rewrite Hf; left).
      apply list_elem_of_filter in Hin as [? ?]. done.
  - split; [by vm_compute; repeat constructor|]. done.
Qed.

(** [query_all_poi_types] raises in one case only, a selection that names
    a category that is not configured; whatever else fails, it returns a
    list. The list is sorted ascending by [distance_on_route], and every
    POI in it has a configured category (one of the selection, where
    there is one), a name that is not empty, and a distance to the route
    within the limit of its category: the limit of [poi_settings] where
    the category has one, the general limit otherwise. *)
Theorem query_all_poi_types_output (self : t) (a : query_args) (sel : option (list string)) (tr : trace) :
  (forall ex, fst (query_all_poi_types self a sel tr) = Raise ex <->
              ex = ValueError "Unknown POI types"
              /\ exists tys ty, sel = Some tys /\ ty ∈ tys /\ in_config ty = false)
  /\ (forall pois, fst (query_all_poi_types self a sel tr) = Ok pois ->
        sorted_on_route pois
        /\ forall p, p ∈ pois ->
             in_config (poi_type p) = true
             /\ (forall tys, sel = Some tys -> tys <> [] -> poi_type p ∈ tys)
             /\ truthy_str (name p) = true
             /\ (distance_to_route p <= poi_max_distance_for a (poi_type p))%Q).
Proof.
  unfold query_all_poi_types. pose proof (select_poi_types_cases sel) as Hsel.
  destruct (select_poi_types sel) as [types|ex0] eqn:Hs.
  - destruct Hsel as [_ Htypes].
    destruct (type_loop_shape self a types types 1 [] tr)
      as (added & new & Hloop & _ & _ & _ & _ & _ & Hall).
    rewrite Hloop. simpl. split.
    + intros ex. split; [done|]. intros (_ & tys & ty & -> & Hin & Hcfg).
      by rewrite (select_invalid tys ty Hin Hcfg) in Hs.
    + intros pois [= <-]. split; [apply sort_on_route_sorted|].
      intros p Hp. apply sort_by_elem in Hp. rewrite Forall_forall in Hall.
      destruct (Hall p Hp) as (Hty & ? & ? & ?). split; [done|]. split; [|done].
      intros tys Htys Hne. by rewrite <- (Htypes tys Htys Hne).
  - simpl. split; [|done]. intros ex. split.
    + by intros [= <-].
    + destruct Hsel as [-> _]. by intros [-> _].
Qed.

(** What the callbacks of [query_all_poi_types] see, for the categories
    [poi_types] of a valid selection. The progress callback is called
    once per category, in order, with the category, its position counted
    from 1 and the number of categories, also for a category that fails
    afterwards. The batch callback is called for categories in their
    order, at most once each, and the list returned is the batches it
    received, concatenated and sorted by [distance_on_route]. Without a
    callback there is no such call. To one endpoint, for one category,
    at most three requests are made (for each time the category stands
    in the selection and the endpoint in the list of the client). *)
Theorem query_all_poi_types_callbacks (self : t) (a : query_args) (sel : option (list string)) (tr : trace) (poi_types : list string) :
  select_poi_types sel = Ok poi_types ->
  exists new, snd (query_all_poi_types self a sel tr) = tr ++ new
    /\ omap progress_of new
       = match progress_callback a with
         | Some _ => imap (fun k ty => (ty, S k, length poi_types)) poi_types
         | None => []
         end
    /\ map fst (omap batch_of new) `sublist_of` poi_types
    /\ (is_Some (batch_callback a) ->
        fst (query_all_poi_types self a sel tr)
        = Ok (sort_by Qltb distance_on_route (concat (map snd (omap batch_of new)))))
    /\ (batch_callback a = None -> omap batch_of new = [])
    /\ (forall u ty,
          posts_for u ty new
          <= occurrences ty poi_types * (occurrences u (overpass_urls self) * 3))%nat
    /\ (NoDup poi_types -> NoDup (overpass_urls self) ->
        forall u ty, (posts_for u ty new <= 3)%nat)
    /\ (posts new <= length poi_types * (length (overpass_urls self) * 3))%nat.
Proof.
  intros Hs. unfold query_all_poi_types. rewrite Hs.
  destruct (type_loop_shape self a poi_types poi_types 1 [] tr)
    as (added & new & Hloop & Hp & Hb & Hb' & Hsub & Hn & _).
  assert (Hfor : forall u ty,
            (posts_for u ty new
             <= occurrences ty poi_types * (occurrences u (overpass_urls self) * 3))%nat).
  { intros u ty.
    destruct (type_loop_posts_for self a poi_types poi_types 1 [] tr u ty) as (new' & Htr' & Hn').
    rewrite Hloop in Htr'. simpl in Htr'. apply app_inv_head in Htr'. by subst new'. }
  rewrite Hloop. simpl. exists new.
  split; [done|]. split; [exact Hp|]. split; [exact Hsub|].
  split; [intros Hcb; by rewrite (Hb Hcb)|].
  split; [exact Hb'|]. split; [exact Hfor|]. split; [|exact Hn].
  intros Hnd1 Hnd2 u ty. specialize (Hfor u ty).
  pose proof (occurrences_NoDup ty poi_types Hnd1).
  pose proof (occurrences_NoDup u (overpass_urls self) Hnd2). nia.
Qed.

End QueryAll.

Lemma query_all_poi_types_callbacks_witness :
  exists new,
    snd (OverpassClient.query_all_poi_types (env := scripted one_failure_script) sample_client
           callback_args (Some ["bakeries"; "gas_stations"]) []) = [] ++ new
    /\ omap progress_of new = [("bakeries", 1%nat, 2%nat); ("gas_stations", 2%nat, 2%nat)]
    /\ map fst (omap batch_of new) `sublist_of` ["bakeries"; "gas_stations"]
    /\ (is_Some (OverpassClient.batch_callback callback_args) ->
        fst (OverpassClient.query_all_poi_types (env := scripted one_failure_script) sample_client
               callback_args (Some ["bakeries"; "gas_stations"]) [])
        = Ok (sort_by Qltb distance_on_route (concat (map snd (omap batch_of new)))))
    /\ (OverpassClient.batch_callback callback_args = None -> omap batch_of new = [])
    /\ (forall u ty,
          posts_for u ty new
          <= occurrences ty ["bakeries"; "gas_stations"]
             * (occurrences u (OverpassClient.overpass_urls sample_client) * 3))%nat
    /\ (NoDup ["bakeries"; "gas_stations"] -> NoDup (OverpassClient.overpass_urls sample_client) ->
        forall u ty, (posts_for u ty new <= 3)%nat)
    /\ (posts new <= 2 * (length (OverpassClient.overpass_urls sample_client) * 3))%nat.
Proof.
  apply (query_all_poi_types_callbacks (env := scripted one_failure_script) sample_client
           callback_args (Some ["bakeries"; "gas_stations"]) [] ["bakeries"; "gas_stations"]).
  reflexivity.
Defined.
